(** * Text splitters of langchain/src/text_splitter.ts

    A shallow embedding of the chunking engine: the shared constructor
    check, the merge engine [mergeSplits], the fixed-separator splitter,
    the recursive separator-fallback splitter and the token-window
    splitter, followed by the properties established about them. *)

From Stdlib Require Import List ZArith NArith Lia Bool String Ascii.
Import ListNotations.

#[local] Open Scope Z_scope.

(** ** JavaScript strings and arrays

    A JavaScript string is a sequence of UTF-16 code units; [length],
    [split], [includes], [join] and [trim] all work on code units. *)

Module JS.

Definition code_unit := N.
Definition jsstring := list code_unit.

(** Reading of an ASCII literal as a JavaScript string. *)
Fixpoint str (s : string) : jsstring :=
  match s with
  | EmptyString => []
  | String a s' => N_of_ascii a :: str s'
  end.

Definition len (s : jsstring) : Z := Z.of_nat (List.length s).

Definition array_length {A : Type} (a : list A) : Z := Z.of_nat (List.length a).

Definition code_unit_eqb : code_unit -> code_unit -> bool := N.eqb.

Fixpoint string_eqb (a b : jsstring) : bool :=
  match a, b with
  | [], [] => true
  | x :: a', y :: b' => code_unit_eqb x y && string_eqb a' b'
  | _, _ => false
  end.

Definition is_empty (s : jsstring) : bool :=
  match s with [] => true | _ :: _ => false end.

(** WhiteSpace and LineTerminator code units of ECMAScript, the ones
    [String.prototype.trim] removes. *)
Definition is_white_space (c : code_unit) : bool :=
  ((9 <=? c) && (c <=? 13) || (c =? 32) || (c =? 160) || (c =? 5760)
   || (8192 <=? c) && (c <=? 8202) || (c =? 8232) || (c =? 8233)
   || (c =? 8239) || (c =? 8287) || (c =? 12288) || (c =? 65279))%N.

Fixpoint trimStart (s : jsstring) : jsstring :=
  match s with
  | [] => []
  | c :: s' => if is_white_space c then trimStart s' else s
  end.

Definition trimEnd (s : jsstring) : jsstring := rev (trimStart (rev s)).

Definition trim (s : jsstring) : jsstring := trimEnd (trimStart s).

(** [starts_with p s]: the string [p] occurs in [s] at position 0. *)
Fixpoint starts_with (p s : jsstring) : bool :=
  match p, s with
  | [], _ => true
  | _ :: _, [] => false
  | x :: p', y :: s' => code_unit_eqb x y && starts_with p' s'
  end.

(** [text.includes(s)] *)
Fixpoint includes (text s : jsstring) : bool :=
  starts_with s text ||
  match text with
  | [] => false
  | _ :: text' => includes text' s
  end.

(** [docs.join(separator)] *)
Fixpoint join (docs : list jsstring) (separator : jsstring) : jsstring :=
  match docs with
  | [] => []
  | [d] => d
  | d :: rest => d ++ separator ++ join rest separator
  end.

(** [text.split(separator)] for a non-empty separator: the scan goes left
    to right; at a position where the separator occurs the current piece is
    closed and the scan resumes behind the occurrence ([skip] counts the
    code units of the occurrence still to be passed). The result always has
    a last piece, possibly empty. *)
Fixpoint split_scan (separator : jsstring) (skip : nat) (s : jsstring)
  : list jsstring :=
  match s with
  | [] => [[]]
  | c :: s' =>
      match skip with
      | S k => split_scan separator k s'
      | O =>
          if starts_with separator s
          then [] :: split_scan separator (List.length separator - 1) s'
          else match split_scan separator 0 s' with
               | p :: ps => (c :: p) :: ps
               | [] => [[c]]
               end
      end
  end.

(** [text.split(separator)]; with the empty separator the pieces are the
    single code units, and the empty text yields no piece at all. *)
Definition split (text separator : jsstring) : list jsstring :=
  match separator with
  | [] => map (fun c => [c]) text
  | _ :: _ => split_scan separator 0 text
  end.

(** [Array.prototype.slice(start, end)]: negative indices count from the
    end of the array, and both are clamped to the array. *)
Definition relative_index (i n : Z) : Z :=
  if i <? 0 then Z.max (n + i) 0 else Z.min i n.

Definition slice {A : Type} (a : list A) (start stop : Z) : list A :=
  let n := Z.of_nat (List.length a) in
  let k := relative_index start n in
  let final := relative_index stop n in
  firstn (Z.to_nat (final - k)) (skipn (Z.to_nat k) a).

End JS.

Import JS.

(** ** Outcomes

    A call either returns or throws; the errors that can be thrown by the
    modelled code are the constructor's [Error] and the [TypeError] of a
    property read on [undefined]. *)

Inductive js_error : Type :=
| Error (message : string)
| TypeError.

Inductive res (A : Type) : Type :=
| Ok (a : A)
| Throw (e : js_error).

Arguments Ok {A} a.
Arguments Throw {A} e.

Definition bind {A B : Type} (r : res A) (k : A -> res B) : res B :=
  match r with
  | Ok a => k a
  | Throw e => Throw e
  end.

Notation "x <- r ;; k" := (bind r (fun x => k))
  (at level 61, r at next level, right associativity).

(** ** TextSplitter *)

Record TextSplitterParams : Type := {
  chunkSize : Z;
  chunkOverlap : Z
}.

(** [Partial<TextSplitterParams>]: each field may be absent. *)
Record PartialTextSplitterParams : Type := {
  fields_chunkSize : option Z;
  fields_chunkOverlap : option Z
}.

Module TextSplitter.

Definition default_chunkSize : Z := 1000.
Definition default_chunkOverlap : Z := 200.

(** [fields?.chunkSize ?? this.chunkSize] *)
Definition resolve_chunkSize (fields : option PartialTextSplitterParams) : Z :=
  match fields with
  | Some f => match fields_chunkSize f with
              | Some v => v
              | None => default_chunkSize
              end
  | None => default_chunkSize
  end.

Definition resolve_chunkOverlap (fields : option PartialTextSplitterParams) : Z :=
  match fields with
  | Some f => match fields_chunkOverlap f with
              | Some v => v
              | None => default_chunkOverlap
              end
  | None => default_chunkOverlap
  end.

Definition config_error : js_error :=
  Error "Cannot have chunkOverlap >= chunkSize".

Definition constructor (fields : option PartialTextSplitterParams)
  : res TextSplitterParams :=
  let this := {| chunkSize := resolve_chunkSize fields;
                 chunkOverlap := resolve_chunkOverlap fields |} in
  if chunkOverlap this >=? chunkSize this
  then Throw config_error
  else Ok this.

Definition joinDocs (docs : list jsstring) (separator : jsstring)
  : option jsstring :=
  let text := trim (join docs separator) in
  if is_empty text then None else Some text.

(** The local variables of [mergeSplits]; [warnings] records the totals
    reported through [console.warn]. *)
Record merge_state : Type := {
  docs : list jsstring;
  currentDoc : list jsstring;
  total : Z;
  warnings : list Z
}.

Definition initial_state : merge_state :=
  {| docs := []; currentDoc := []; total := 0; warnings := [] |}.

Section Merge.

Variable this : TextSplitterParams.
Variable separator : jsstring.

Definition keep_popping (_len total : Z) : bool :=
  (total >? chunkOverlap this)
  || ((total + _len >? chunkSize this) && (total >? 0)).

(** The [while] loop that shifts the window. Reading [currentDoc[0].length]
    on an empty window is a read of [length] on [undefined]. *)
Fixpoint pop_loop (_len total : Z) (currentDoc : list jsstring)
  : res (Z * list jsstring) :=
  match currentDoc with
  | [] => if keep_popping _len total then Throw TypeError
          else Ok (total, [])
  | front :: rest =>
      if keep_popping _len total
      then pop_loop _len (total - len front) rest
      else Ok (total, currentDoc)
  end.

Definition push_doc (docs : list jsstring) (doc : option jsstring)
  : list jsstring :=
  match doc with
  | Some d => docs ++ [d]
  | None => docs
  end.

(** One iteration of [for (const d of splits)]. *)
Definition merge_step (st : merge_state) (d : jsstring) : res merge_state :=
  let _len := len d in
  st1 <-
    (if total st + _len
          + (if 0 <? array_length (currentDoc st) then len separator else 0)
        >? chunkSize this
     then
       let warnings1 :=
         if total st >? chunkSize this
         then warnings st ++ [total st] else warnings st in
       if 0 <? array_length (currentDoc st)
       then
         let docs1 := push_doc (docs st) (joinDocs (currentDoc st) separator) in
         popped <- pop_loop _len (total st) (currentDoc st) ;;
         Ok {| docs := docs1; currentDoc := snd popped;
               total := fst popped; warnings := warnings1 |}
       else Ok {| docs := docs st; currentDoc := currentDoc st;
                  total := total st; warnings := warnings1 |}
     else Ok st) ;;
  Ok {| docs := docs st1; currentDoc := currentDoc st1 ++ [d];
        total := total st1 + _len; warnings := warnings st1 |}.

Fixpoint merge_loop (st : merge_state) (splits : list jsstring)
  : res merge_state :=
  match splits with
  | [] => Ok st
  | d :: rest => st' <- merge_step st d ;; merge_loop st' rest
  end.

Definition mergeSplits (splits : list jsstring) : res (list jsstring) :=
  st <- merge_loop initial_state splits ;;
  Ok (push_doc (docs st) (joinDocs (currentDoc st) separator)).

End Merge.

(** [mergeSplits] when the argument passed for [separator] is [undefined],
    as the recursive splitter passes it when its separator array is empty:
    [separator.length] is then a read on [undefined], evaluated only when
    the window is not empty, and [join] takes [","] for its separator. *)
Section MergeUndefined.

Variable this : TextSplitterParams.

Definition comma : jsstring := [44%N].

Definition merge_step_undefined (st : merge_state) (d : jsstring)
  : res merge_state :=
  let _len := len d in
  separator_length <-
    (if 0 <? array_length (currentDoc st) then Throw TypeError else Ok 0) ;;
  st1 <-
    (if total st + _len + separator_length >? chunkSize this
     then
       let warnings1 :=
         if total st >? chunkSize this
         then warnings st ++ [total st] else warnings st in
       if 0 <? array_length (currentDoc st)
       then
         let docs1 := push_doc (docs st) (joinDocs (currentDoc st) comma) in
         popped <- pop_loop this _len (total st) (currentDoc st) ;;
         Ok {| docs := docs1; currentDoc := snd popped;
               total := fst popped; warnings := warnings1 |}
       else Ok {| docs := docs st; currentDoc := currentDoc st;
                  total := total st; warnings := warnings1 |}
     else Ok st) ;;
  Ok {| docs := docs st1; currentDoc := currentDoc st1 ++ [d];
        total := total st1 + _len; warnings := warnings st1 |}.

Fixpoint merge_loop_undefined (st : merge_state) (splits : list jsstring)
  : res merge_state :=
  match splits with
  | [] => Ok st
  | d :: rest =>
      st' <- merge_step_undefined st d ;; merge_loop_undefined st' rest
  end.

Definition mergeSplits_undefined (splits : list jsstring)
  : res (list jsstring) :=
  st <- merge_loop_undefined initial_state splits ;;
  Ok (push_doc (docs st) (joinDocs (currentDoc st) comma)).

End MergeUndefined.

(** [mergeSplits] with the argument as the callers pass it: a string, or
    [undefined] ([None]). *)
Definition mergeSplits_any (this : TextSplitterParams)
  (separator : option jsstring) (splits : list jsstring)
  : res (list jsstring) :=
  match separator with
  | Some s => mergeSplits this s splits
  | None => mergeSplits_undefined this splits
  end.

End TextSplitter.

(** ** CharacterTextSplitter *)

Module CharacterTextSplitter.

Record t : Type := {
  params : TextSplitterParams;
  separator : jsstring
}.

Definition default_separator : jsstring := [10; 10]%N.

(** [Partial<CharacterTextSplitterParams>] *)
Record PartialParams : Type := {
  fields_base : PartialTextSplitterParams;
  fields_separator : option jsstring
}.

Definition constructor (fields : option PartialParams) : res t :=
  base <- TextSplitter.constructor (option_map fields_base fields) ;;
  Ok {| params := base;
        separator :=
          match fields with
          | Some f => match fields_separator f with
                      | Some s => s
                      | None => default_separator
                      end
          | None => default_separator
          end |}.

Definition splitText (this : t) (text : jsstring) : res (list jsstring) :=
  let splits :=
    if is_empty (separator this)
    then split text []
    else split text (separator this) in
  TextSplitter.mergeSplits (params this) (separator this) splits.

End CharacterTextSplitter.

(** ** RecursiveCharacterTextSplitter *)

(** The recursion of [splitText] is on texts, not on a structure, so the
    embedding counts nested calls down from a fuel; [OutOfFuel] is the
    answer of a call that needs a deeper nesting than the fuel allows. *)
Inductive outcome (A : Type) : Type :=
| Returns (a : A)
| Rejects (e : js_error)
| OutOfFuel.

Arguments Returns {A} a.
Arguments Rejects {A} e.
Arguments OutOfFuel {A}.

Module RecursiveCharacterTextSplitter.

Record t : Type := {
  params : TextSplitterParams;
  separators : list jsstring
}.

Definition default_separators : list jsstring :=
  [[10; 10]; [10]; [32]; []]%N.

(** [Partial<RecursiveCharacterTextSplitterParams>] *)
Record PartialParams : Type := {
  fields_base : PartialTextSplitterParams;
  fields_separators : option (list jsstring)
}.

Definition constructor (fields : option PartialParams) : res t :=
  base <- TextSplitter.constructor (option_map fields_base fields) ;;
  Ok {| params := base;
        separators :=
          match fields with
          | Some f => match fields_separators f with
                      | Some l => l
                      | None => default_separators
                      end
          | None => default_separators
          end |}.

(** [for (const s of this.separators)] with its two [break]s; [separator]
    is the value the variable holds when the loop is entered. *)
Fixpoint scan_separators (seps : list jsstring) (text : jsstring)
  (separator : option jsstring) : option jsstring :=
  match seps with
  | [] => separator
  | s :: rest =>
      if is_empty s then Some s
      else if includes text s then Some s
      else scan_separators rest text separator
  end.

(** [this.separators[this.separators.length - 1]] followed by the scan. *)
Definition select_separator (seps : list jsstring) (text : jsstring)
  : option jsstring :=
  scan_separators seps text (nth_error seps (List.length seps - 1)).

Section SplitText.

Variable this : t.

(** [mergeSplits(goodSplits, separator)] guarded by [goodSplits.length],
    with the chunks pushed on [finalChunks]; [separator] is [None] when the
    variable holds [undefined]. *)
Definition flush_good (separator : option jsstring)
  (finalChunks goodSplits : list jsstring) : res (list jsstring) :=
  if 0 <? array_length goodSplits
  then mergedText <-
         TextSplitter.mergeSplits_any (params this) separator goodSplits ;;
       Ok (finalChunks ++ mergedText)
  else Ok finalChunks.

(** [for (const s of splits)]; [self] is the recursive call. *)
Fixpoint split_loop (self : jsstring -> outcome (list jsstring))
  (separator : option jsstring) (finalChunks goodSplits splits : list jsstring)
  : outcome (list jsstring * list jsstring) :=
  match splits with
  | [] => Returns (finalChunks, goodSplits)
  | s :: rest =>
      if len s <? chunkSize (params this)
      then split_loop self separator finalChunks (goodSplits ++ [s]) rest
      else
        match flush_good separator finalChunks goodSplits with
        | Throw e => Rejects e
        | Ok finalChunks1 =>
            match self s with
            | Returns otherInfo =>
                split_loop self separator (finalChunks1 ++ otherInfo) [] rest
            | Rejects e => Rejects e
            | OutOfFuel => OutOfFuel
            end
        end
  end.

(** [if (separator) text.split(separator) else text.split("")]: the
    condition fails on the empty string and on [undefined]. *)
Definition split_on (text : jsstring) (separator : option jsstring)
  : list jsstring :=
  match separator with
  | Some s => if is_empty s then split text [] else split text s
  | None => split text []
  end.

Fixpoint splitText (fuel : nat) (text : jsstring) : outcome (list jsstring) :=
  match fuel with
  | O => OutOfFuel
  | S fuel' =>
      let separator := select_separator (separators this) text in
      let splits := split_on text separator in
      match split_loop (splitText fuel') separator [] [] splits with
      | Returns (finalChunks, goodSplits) =>
          match flush_good separator finalChunks goodSplits with
          | Ok chunks => Returns chunks
          | Throw e => Rejects e
          end
      | Rejects e => Rejects e
      | OutOfFuel => OutOfFuel
      end
  end.

End SplitText.

End RecursiveCharacterTextSplitter.

(** ** TokenTextSplitter *)

(** ["all" | Array<string>] *)
Inductive special : Type :=
| All
| Listed (tokens : list jsstring).

(** The tokenizer of js-tiktoken is an external collaborator: it is known
    only by its interface. *)
Record Tiktoken : Type := {
  encode : jsstring -> special -> special -> res (list Z);
  decode : list Z -> jsstring
}.

Module TokenTextSplitter.

Record t : Type := {
  params : TextSplitterParams;
  encodingName : string;
  allowedSpecial : special;
  disallowedSpecial : special;
  tokenizer : option Tiktoken
}.

(** [Partial<TokenTextSplitterParams>] *)
Record PartialParams : Type := {
  fields_base : PartialTextSplitterParams;
  fields_encodingName : option string;
  fields_allowedSpecial : option special;
  fields_disallowedSpecial : option special
}.

Definition field_or {A B : Type} (fields : option A) (get : A -> option B)
  (default : B) : B :=
  match fields with
  | Some f => match get f with
              | Some v => v
              | None => default
              end
  | None => default
  end.

Definition constructor (fields : option PartialParams) : res t :=
  base <- TextSplitter.constructor (option_map fields_base fields) ;;
  Ok {| params := base;
        encodingName := field_or fields fields_encodingName "gpt2"%string;
        allowedSpecial := field_or fields fields_allowedSpecial (Listed []);
        disallowedSpecial := field_or fields fields_disallowedSpecial All;
        tokenizer := None |}.

Definition set_tokenizer (this : t) (tk : Tiktoken) : t :=
  {| params := params this;
     encodingName := encodingName this;
     allowedSpecial := allowedSpecial this;
     disallowedSpecial := disallowedSpecial this;
     tokenizer := Some tk |}.

Section SplitText.

(** [getEncoding] of util/tiktoken.js *)
Variable getEncoding : string -> res Tiktoken.

(** [if (!this.tokenizer) this.tokenizer = await getEncoding(...)] *)
Definition acquire (this : t) : res (t * Tiktoken) :=
  match tokenizer this with
  | Some tk => Ok (this, tk)
  | None => tk <- getEncoding (encodingName this) ;;
            Ok (set_tokenizer this tk, tk)
  end.

(** The [while (start_idx < input_ids.length)] loop; [None] when the fuel
    is used up before the loop condition fails. *)
Fixpoint window_loop (p : TextSplitterParams) (tk : Tiktoken)
  (input_ids : list Z) (fuel : nat)
  (start_idx : Z) (chunk_ids : list Z) (splits : list jsstring)
  : option (list jsstring) :=
  match fuel with
  | O => None
  | S fuel' =>
      if start_idx <? array_length input_ids
      then
        let splits1 := splits ++ [decode tk chunk_ids] in
        let start_idx1 := start_idx + (chunkSize p - chunkOverlap p) in
        let cur_idx1 := Z.min (start_idx1 + chunkSize p) (array_length input_ids) in
        let chunk_ids1 := slice input_ids start_idx1 cur_idx1 in
        window_loop p tk input_ids fuel' start_idx1 chunk_ids1 splits1
      else Some splits
  end.

(** [splitText] returns the splitter with its tokenizer slot and the result
    of the call; the result is [None] when the fuel does not suffice. *)
Definition splitText (this : t) (fuel : nat) (text : jsstring)
  : res (t * option (list jsstring)) :=
  acquired <- acquire this ;;
  let this1 := fst acquired in
  let tk := snd acquired in
  input_ids <- encode tk text (allowedSpecial this1) (disallowedSpecial this1) ;;
  let start_idx := 0 in
  let cur_idx := Z.min (start_idx + chunkSize (params this1)) (array_length input_ids) in
  let chunk_ids := slice input_ids start_idx cur_idx in
  Ok (this1, window_loop (params this1) tk input_ids fuel start_idx chunk_ids []).

End SplitText.

End TokenTextSplitter.

(** ** MarkdownTextSplitter *)

Module MarkdownTextSplitter.

(** The class field [separators]; ["\n"] is the code unit 10. *)
Definition separators : list jsstring :=
  [ 10%N :: str "## ";
    10%N :: str "### ";
    10%N :: str "#### ";
    10%N :: str "##### ";
    10%N :: str "###### ";
    str "```" ++ [10; 10]%N;
    [10; 10]%N ++ str "***" ++ [10; 10]%N;
    [10; 10]%N ++ str "---" ++ [10; 10]%N;
    [10; 10]%N ++ str "___" ++ [10; 10]%N;
    [10; 10]%N;
    [10]%N;
    str " ";
    [] ].

(** [super(fields)] with [fields] of type [Partial<TextSplitterParams>];
    the initializer of the class field [separators] runs when [super]
    has returned and replaces what the parent constructor stored. *)
Definition constructor (fields : option PartialTextSplitterParams)
  : res RecursiveCharacterTextSplitter.t :=
  parent <- RecursiveCharacterTextSplitter.constructor
              (option_map
                 (fun f => {| RecursiveCharacterTextSplitter.fields_base := f;
                              RecursiveCharacterTextSplitter.fields_separators := None |})
                 fields) ;;
  Ok {| RecursiveCharacterTextSplitter.params :=
          RecursiveCharacterTextSplitter.params parent;
        RecursiveCharacterTextSplitter.separators := separators |}.

End MarkdownTextSplitter.

(** ** createDocuments and splitDocuments

    The metadata of a document is a JavaScript object. The embedding has
    the values that are not functions or arrays; an object is the list of
    its own properties, read by key. *)

#[warnings="-register-all"] Inductive jsvalue : Type :=
| VUndefined
| VNull
| VBoolean (b : bool)
| VNumber (z : Z)
| VString (s : jsstring)
| VObject (props : list (string * jsvalue)).

Definition object : Type := list (string * jsvalue).

(** [o[k]], [None] for [undefined] *)
Fixpoint get (o : object) (k : string) : option jsvalue :=
  match o with
  | [] => None
  | (k', v) :: rest => if String.eqb k k' then Some v else get rest k
  end.

(** [o[k] = v] on a copy of [o] *)
Fixpoint set (o : object) (k : string) (v : jsvalue) : object :=
  match o with
  | [] => [(k, v)]
  | (k', v') :: rest =>
      if String.eqb k k' then (k', v) :: rest else (k', v') :: set rest k v
  end.

(** [TextSplitterChunkHeaderOptions] *)
Record TextSplitterChunkHeaderOptions : Type := {
  chunkHeader : option jsstring;
  chunkOverlapHeader : option jsstring;
  appendChunkOverlapHeader : option bool
}.

Module TextSplitterDocuments.

(** [text.indexOf(s)] *)
Fixpoint indexOf_from (text s : jsstring) (i : Z) : Z :=
  if starts_with s text then i
  else match text with
       | [] => -1
       | _ :: text' => indexOf_from text' s (i + 1)
       end.

Definition indexOf (text s : jsstring) : Z := indexOf_from text s 0.

(** [(s.match(/\n/g) || []).length] *)
Fixpoint count_newlines (s : jsstring) : Z :=
  match s with
  | [] => 0
  | c :: s' => (if (c =? 10)%N then 1 else 0) + count_newlines s'
  end.

Definition default_chunkOverlapHeader : jsstring := str "(cont'd) ".

Definition or_default {A : Type} (o : option A) (default : A) : A :=
  match o with
  | Some a => a
  | None => default
  end.

(** A string or [null] in a condition. *)
Definition truthy (prevChunk : option jsstring) : bool :=
  match prevChunk with
  | Some (_ :: _) => true
  | _ => false
  end.

Section CreateDocuments.

(** The class [Document] of document.js is used through its constructor
    and its two fields only. *)
Variable Document : Type.
Variable new_Document : jsstring -> object -> Document.
Variable pageContent : Document -> option jsstring.
Variable metadata : Document -> object.

(** The abstract method [splitText]. *)
Variable splitText : jsstring -> outcome (list jsstring).

Variable chunkHeaderOptions : TextSplitterChunkHeaderOptions.

(** The variables of the loop over the chunks of one text. *)
Record chunk_state : Type := {
  documents : list Document;
  lineCounterIndex : Z;
  prevChunk : option jsstring
}.

(** The [loc] object of a chunk: a copy of the [loc] of the metadata when
    that is an object, with the property [lines] set. *)
Definition loc_with_lines (md : object) (from to : Z) : object :=
  let loc := match get md "loc" with
             | Some (VObject props) => props
             | _ => []
             end in
  set loc "lines" (VObject [("from"%string, VNumber from); ("to"%string, VNumber to)]).

(** One iteration of [for (const chunk of await this.splitText(text))];
    [md] is [_metadatas[i]], [None] when the array has no such entry. *)
Definition chunk_step (text : jsstring) (md : option object)
  (st : chunk_state) (chunk : jsstring) : res chunk_state :=
  let header := or_default (chunkHeader chunkHeaderOptions) [] in
  let overlapHeader :=
    or_default (chunkOverlapHeader chunkHeaderOptions) default_chunkOverlapHeader in
  let append := or_default (appendChunkOverlapHeader chunkHeaderOptions) false in
  let pageContent0 := header in
  let entered := truthy (prevChunk st) in
  let numberOfIntermediateNewLines :=
    match prevChunk st with
    | Some prev =>
        if entered
        then
          let indexChunk := indexOf text chunk in
          let indexEndPrevChunk := indexOf text prev + len prev in
          count_newlines (slice text indexEndPrevChunk indexChunk)
        else 0
    | None => 0
    end in
  let pageContent1 :=
    if entered && append then pageContent0 ++ overlapHeader else pageContent0 in
  let lineCounterIndex1 := lineCounterIndex st + numberOfIntermediateNewLines in
  let newLinesCount := count_newlines chunk in
  match md with
  | None => Throw TypeError
  | Some m =>
      let loc := loc_with_lines m lineCounterIndex1
                   (lineCounterIndex1 + newLinesCount) in
      let metadataWithLinesNumber := set m "loc" (VObject loc) in
      let pageContent2 := pageContent1 ++ chunk in
      Ok {| documents :=
              documents st ++ [new_Document pageContent2 metadataWithLinesNumber];
            lineCounterIndex := lineCounterIndex1 + newLinesCount;
            prevChunk := Some chunk |}
  end.

Fixpoint chunks_loop (text : jsstring) (md : option object)
  (st : chunk_state) (chunks : list jsstring) : res chunk_state :=
  match chunks with
  | [] => Ok st
  | chunk :: rest =>
      st' <- chunk_step text md st chunk ;; chunks_loop text md st' rest
  end.

(** [for (let i = 0; i < texts.length; i += 1)], from index [i] on. *)
Fixpoint texts_loop (_metadatas : list object) (i : nat)
  (texts : list jsstring) (docs : list Document) : outcome (list Document) :=
  match texts with
  | [] => Returns docs
  | text :: rest =>
      match splitText text with
      | Returns chunks =>
          match chunks_loop text (nth_error _metadatas i)
                  {| documents := docs; lineCounterIndex := 1;
                     prevChunk := None |} chunks with
          | Ok st => texts_loop _metadatas (S i) rest (documents st)
          | Throw e => Rejects e
          end
      | Rejects e => Rejects e
      | OutOfFuel => OutOfFuel
      end
  end.

Definition createDocuments (texts : list jsstring) (metadatas : list object)
  : outcome (list Document) :=
  let _metadatas :=
    if 0 <? array_length metadatas then metadatas
    else repeat [] (List.length texts) in
  texts_loop _metadatas 0 texts [].

(** [doc.pageContent !== undefined] keeps a document; its text and its
    metadata are then passed on. *)
Definition selected (doc : Document) : bool :=
  match pageContent doc with
  | Some _ => true
  | None => false
  end.

Definition splitDocuments (docs : list Document) : outcome (list Document) :=
  let selectedDocuments := filter selected docs in
  let texts := map (fun doc => or_default (pageContent doc) []) selectedDocuments in
  let metadatas := map metadata selectedDocuments in
  createDocuments texts metadatas.

End CreateDocuments.

End TextSplitterDocuments.

(** ** Vocabulary of the statements *)

(** Sum of the lengths of the units of a window. *)
Fixpoint sum_len (window : list jsstring) : Z :=
  match window with
  | [] => 0
  | u :: rest => len u + sum_len rest
  end.

(** [run] is a contiguous run of [units]. *)
Definition contiguous_run (run units : list jsstring) : Prop :=
  exists before after, units = before ++ run ++ after.

(** A chunk over [units]: the trimmed join of a non-empty contiguous run
    of them, itself not the empty string. *)
Definition chunk_of (separator : jsstring) (units : list jsstring)
  (chunk : jsstring) : Prop :=
  chunk <> [] /\
  exists run, run <> [] /\ contiguous_run run units /\
              chunk = trim (join run separator).

(** The total the window would have with the separators between its
    units counted in: the length of the joined window. *)
Definition total_with_separators (separator : jsstring)
  (window : list jsstring) : Z :=
  sum_len window + len separator * Z.max 0 (array_length window - 1).

(** [ceil (a / b)] for a positive [b]. *)
Definition ceil_div (a b : Z) : Z := (a + b - 1) / b.

(** The tokens at the indices of the interval [[start, stop)]. *)
Definition window (ids : list Z) (start stop : Z) : list Z :=
  firstn (Z.to_nat (stop - start)) (skipn (Z.to_nat start) ids).

(** The starts [0, step, 2 * step, ...] of the windows over [n] tokens,
    with [step = chunkSize - chunkOverlap]. *)
Definition window_starts (p : TextSplitterParams) (n : Z) : list Z :=
  map (fun k => Z.of_nat k * (chunkSize p - chunkOverlap p))
      (seq 0 (Z.to_nat (ceil_div n (chunkSize p - chunkOverlap p)))).

(** The decoding of the window that starts at [start]. *)
Definition decoded_window (p : TextSplitterParams) (tk : Tiktoken)
  (ids : list Z) (start : Z) : jsstring :=
  decode tk (window ids start (Z.min (start + chunkSize p) (array_length ids))).

(** The window count in the words of the specification. *)
Definition window_count_as_specified (p : TextSplitterParams) (n : Z) : Z :=
  ceil_div (n - chunkOverlap p) (chunkSize p - chunkOverlap p).

(** A tokenizer with one token per code unit, to run the token-window
    splitter on concrete texts. *)
Definition code_unit_tokenizer : Tiktoken :=
  {| encode := fun text _ _ => Ok (map Z.of_N text);
     decode := fun ids => map Z.to_N ids |}.

Definition code_unit_splitter (size overlap : Z) : TokenTextSplitter.t :=
  {| TokenTextSplitter.params := {| chunkSize := size; chunkOverlap := overlap |};
     TokenTextSplitter.encodingName := "gpt2";
     TokenTextSplitter.allowedSpecial := Listed [];
     TokenTextSplitter.disallowedSpecial := All;
     TokenTextSplitter.tokenizer := None |}.

(** An entry of the separator list the scan stops at: it is the empty
    string or it is contained in the text. *)
Definition qualifies (text s : jsstring) : bool :=
  is_empty s || includes text s.

(** A call that came to an end with the fuel it was given: it returned or
    it rejected. *)
Definition settled {A : Type} (o : outcome A) : Prop :=
  match o with
  | Returns _ | Rejects _ => True
  | OutOfFuel => False
  end.

(** The run of [units] that starts at offset [fst r] and has [snd r]
    units. *)
Definition run_at (units : list jsstring) (r : nat * nat) : list jsstring :=
  firstn (snd r) (skipn (fst r) units).

(** The chunks of a sequence of runs: their trimmed joins, the empty ones
    left out. *)
Definition chunks_of_runs (separator : jsstring) (units : list jsstring)
  (runs : list (nat * nat)) : list jsstring :=
  flat_map (fun r => match TextSplitter.joinDocs (run_at units r) separator with
                     | Some doc => [doc]
                     | None => []
                     end) runs.

(** The runs [rs] continue the run of [n] units at offset [o] up to the
    end [total] of the units: each run starts inside or right behind the
    one before it and ends beyond it, and the last one ends at [total]. *)
Fixpoint follows (o n : nat) (rs : list (nat * nat)) (total : nat) : Prop :=
  match rs with
  | [] => (o + n = total)%nat
  | (o', n') :: rs' =>
      (o <= o' <= o + n)%nat /\ (o + n < o' + n')%nat /\ follows o' n' rs' total
  end.

(** The runs cover the [total] units from the first to the last, in
    order and without a gap. *)
Definition tiling (runs : list (nat * nat)) (total : nat) : Prop :=
  match runs with
  | [] => False
  | (o, n) :: rs => o = 0%nat /\ follows o n rs total
  end.

(** A window within the size budget: the lengths of its units sum to at
    most [chunkSize], or all its units but the last are empty. *)
Definition fits (this : TextSplitterParams) (window : list jsstring) : Prop :=
  sum_len window <= chunkSize this \/
  exists pre d, window = pre ++ [d] /\ sum_len pre = 0.

(** The runs flushed between two states of the scan: the window starts at
    offset [lo] when [hi] units have been read, [runs] are the windows
    flushed from then on, and the window starts at [lo'] when [hi'] units
    have been read. *)
Fixpoint chain (lo hi : nat) (runs : list (nat * nat)) (lo' hi' : nat) : Prop :=
  match runs with
  | [] => lo' = lo /\ (hi <= hi')%nat
  | (o, n) :: rs =>
      o = lo /\ (hi <= o + n)%nat /\
      exists lo1, (o <= lo1 <= o + n)%nat /\ chain lo1 (S (o + n)) rs lo' hi'
  end.

(** [p] occurs in [text] as a contiguous substring. *)
Definition substring (p text : jsstring) : Prop :=
  exists a b, text = a ++ p ++ b.

(** A chunk taken verbatim from [text]: a non-empty contiguous substring
    of it without white space at its ends. *)
Definition verbatim_chunk (text chunk : jsstring) : Prop :=
  substring chunk text /\ chunk <> [] /\ trim chunk = chunk.

(** The page content of a chunk: the chunk header, the overlap header
    when it is asked for and the chunk before is a non-empty string, then
    the chunk. *)
Definition page_content (o : TextSplitterChunkHeaderOptions)
  (prev : option jsstring) (chunk : jsstring) : jsstring :=
  TextSplitterDocuments.or_default (chunkHeader o) []
  ++ (if TextSplitterDocuments.truthy prev
         && TextSplitterDocuments.or_default (appendChunkOverlapHeader o) false
      then TextSplitterDocuments.or_default (chunkOverlapHeader o)
             TextSplitterDocuments.default_chunkOverlapHeader
      else [])
  ++ chunk.

Fixpoint page_contents (o : TextSplitterChunkHeaderOptions)
  (prev : option jsstring) (chunks : list jsstring) : list jsstring :=
  match chunks with
  | [] => []
  | chunk :: rest => page_content o prev chunk :: page_contents o (Some chunk) rest
  end.

(** Line ranges [(from, to)] of the chunks of one text, counted from line
    [lo] on: a range starts at or behind the end of the range before it and
    spans the newlines of its chunk. *)
Fixpoint ranges_from (lo : Z) (chunks : list jsstring) (ranges : list (Z * Z))
  : Prop :=
  match chunks, ranges with
  | [], [] => True
  | chunk :: chunks', (from, to) :: ranges' =>
      lo <= from /\
      to = from + TextSplitterDocuments.count_newlines chunk /\
      ranges_from to chunks' ranges'
  | _, _ => False
  end.

(** The metadata of a chunk relative to the metadata [m] of its text: the
    same properties, but for [loc], which is an object that has the
    properties of the [loc] object of [m], if there is one, but for
    [lines], which holds the range. *)
Definition chunk_metadata (m md : object) (range : Z * Z) : Prop :=
  (forall k, k <> "loc"%string -> get md k = get m k) /\
  exists loc,
    get md "loc" = Some (VObject loc) /\
    get loc "lines"
    = Some (VObject [("from"%string, VNumber (fst range));
                     ("to"%string, VNumber (snd range))]) /\
    (forall k, k <> "lines"%string ->
       get loc k = match get m "loc" with
                   | Some (VObject props) => get props k
                   | _ => None
                   end).

(** The documents of one text, as the page contents and metadata handed to
    the constructor of [Document]. *)
Definition text_group (o : TextSplitterChunkHeaderOptions) (m : object)
  (chunks : list jsstring) (group : list (jsstring * object))
  (ranges : list (Z * Z)) : Prop :=
  map fst group = page_contents o None chunks /\
  Forall2 (fun f r => chunk_metadata m (snd f) r) group ranges /\
  ranges_from 1 chunks ranges /\
  match ranges with
  | r :: _ => fst r = 1
  | [] => True
  end.

(** The groups of documents of the texts from index [i] on, against the
    chunks of the texts and the array [mds] of metadata: a text without
    chunks has no document, and the documents of any other text are made
    with the metadata at the index of the text. *)
Inductive groups_from (o : TextSplitterChunkHeaderOptions) (mds : list object)
  : nat -> list (list jsstring) -> list (list (jsstring * object)) -> Prop :=
| groups_from_nil (i : nat) : groups_from o mds i [] []
| groups_from_cons (i : nat) (chunks : list jsstring)
    (group : list (jsstring * object)) (chunkss : list (list jsstring))
    (groups : list (list (jsstring * object))) :
    ((chunks = [] /\ group = []) \/
     exists m ranges,
       nth_error mds i = Some m /\ text_group o m chunks group ranges) ->
    groups_from o mds (S i) chunkss groups ->
    groups_from o mds i (chunks :: chunkss) (group :: groups).

(** The array of metadata [createDocuments] works with: the one it is
    given, or an empty object for each text when it is given none. *)
Definition metadatas_used (texts : list jsstring) (metadatas : list object)
  : list object :=
  if 0 <? array_length metadatas then metadatas
  else repeat [] (List.length texts).

(** The promise of an [async] method whose body returns or throws. *)
Definition promise {A : Type} (r : res A) : outcome A :=
  match r with
  | Ok a => Returns a
  | Throw e => Rejects e
  end.

(** A splitter on line breaks, to run [createDocuments] on concrete
    texts. *)
Definition line_splitter (size : Z) (text : jsstring) : outcome (list jsstring) :=
  promise (CharacterTextSplitter.splitText
             {| CharacterTextSplitter.params :=
                  {| chunkSize := size; chunkOverlap := 0 |};
                CharacterTextSplitter.separator := [10%N] |} text).

(** * Properties *)

(** ** The merge engine *)

Section MergeFacts.

Import TextSplitter.

Variable this : TextSplitterParams.
Variable separator : jsstring.

Lemma sum_len_app (a b : list jsstring) :
  sum_len (a ++ b) = sum_len a + sum_len b.
Proof.
  induction a as [|u a IH]; simpl; [reflexivity | rewrite IH; lia].
Qed.

Lemma len_nonneg (s : jsstring) : 0 <= len s.
Proof. unfold len; lia. Qed.

Lemma sum_len_nonneg (w : list jsstring) : 0 <= sum_len w.
Proof.
  induction w as [|u w IH]; simpl; [lia | pose proof (len_nonneg u); lia].
Qed.

Lemma keep_popping_zero (_len : Z) :
  0 <= chunkOverlap this -> keep_popping this _len 0 = false.
Proof.
  intros Hov. unfold keep_popping.
  rewrite Z.gtb_ltb, andb_false_r, orb_false_r.
  apply Z.ltb_ge. exact Hov.
Qed.

Lemma keep_popping_positive (_len total : Z) :
  keep_popping this _len total = true -> 0 <= chunkOverlap this -> 0 < total.
Proof.
  unfold keep_popping. intros H Hov.
  apply orb_true_iff in H. destruct H as [H|H].
  - apply Z.gtb_lt in H. lia.
  - apply andb_true_iff in H. destruct H as [_ H]. apply Z.gtb_lt in H. lia.
Qed.

(** What the shifting loop leaves is a suffix of the window, and the total
    it leaves is the sum of the lengths of that suffix. *)
Lemma pop_loop_suffix (_len : Z) (window : list jsstring) :
  forall total total' window',
    pop_loop this _len total window = Ok (total', window') ->
    exists evicted,
      window = evicted ++ window' /\ total' = total - sum_len evicted.
Proof.
  induction window as [|front rest IH]; intros total total' window'; simpl.
  - destruct (keep_popping this _len total); [discriminate|].
    intros H. injection H as <- <-. exists []. simpl. split; [reflexivity | lia].
  - destruct (keep_popping this _len total).
    + intros H. apply IH in H. destruct H as (ev & -> & ->).
      exists (front :: ev). simpl. split; [reflexivity | lia].
    + intros H. injection H as <- <-. exists []. simpl. split; [reflexivity | lia].
Qed.

(** With a non-negative overlap the loop stops before it reads the front of
    an empty window, provided the total is the sum of the unit lengths. *)
Lemma pop_loop_returns (_len : Z) (window : list jsstring) :
  0 <= chunkOverlap this ->
  exists window',
    pop_loop this _len (sum_len window) window = Ok (sum_len window', window').
Proof.
  intros Hov. induction window as [|front rest IH]; simpl.
  - rewrite keep_popping_zero by assumption. exists []. reflexivity.
  - destruct (keep_popping this _len (len front + sum_len rest)).
    + replace (len front + sum_len rest - len front) with (sum_len rest) by lia.
      exact IH.
    + exists (front :: rest). reflexivity.
Qed.

(** Effect of one iteration on the window and on the emitted chunks. *)
Lemma merge_step_inv (st st' : merge_state) (d : jsstring) :
  merge_step this separator st d = Ok st' ->
  exists evicted kept,
    currentDoc st = evicted ++ kept /\
    currentDoc st' = kept ++ [d] /\
    total st' = total st - sum_len evicted + len d /\
    (docs st' = docs st \/
     (currentDoc st <> [] /\
      docs st' = push_doc (docs st) (joinDocs (currentDoc st) separator))).
Proof.
  unfold merge_step.
  destruct (_ >? chunkSize this).
  - destruct (0 <? array_length (currentDoc st)) eqn:Hne.
    + destruct (pop_loop this (len d) (total st) (currentDoc st))
        as [[t' w']|e] eqn:Hpop; simpl; [|discriminate].
      intros H. injection H as <-. simpl.
      apply pop_loop_suffix in Hpop. destruct Hpop as (ev & Hw & ->).
      exists ev, w'. repeat split; try assumption.
      right. split; [|reflexivity].
      intros Hnil. rewrite Hnil in Hne. discriminate.
    + simpl. intros H. injection H as <-. simpl.
      exists [], (currentDoc st). simpl. repeat split; auto; lia.
  - simpl. intros H. injection H as <-. simpl.
    exists [], (currentDoc st). simpl. repeat split; auto; lia.
Qed.

Lemma merge_step_total (st st' : merge_state) (d : jsstring) :
  total st = sum_len (currentDoc st) ->
  merge_step this separator st d = Ok st' ->
  total st' = sum_len (currentDoc st').
Proof.
  intros Ht H. apply merge_step_inv in H.
  destruct H as (ev & kept & Hw & Hw' & Htot & _).
  rewrite Htot, Hw', Ht, Hw, !sum_len_app. simpl. lia.
Qed.

Lemma merge_step_returns (st : merge_state) (d : jsstring) :
  0 <= chunkOverlap this ->
  total st = sum_len (currentDoc st) ->
  exists st', merge_step this separator st d = Ok st'.
Proof.
  intros Hov Ht. unfold merge_step.
  destruct (_ >? chunkSize this); simpl; [|eauto].
  destruct (0 <? array_length (currentDoc st)); simpl; [|eauto].
  rewrite Ht.
  destruct (pop_loop_returns (len d) (currentDoc st) Hov) as (w' & ->).
  simpl. eauto.
Qed.

Lemma merge_loop_returns (splits : list jsstring) :
  0 <= chunkOverlap this ->
  forall st, total st = sum_len (currentDoc st) ->
  exists st', merge_loop this separator st splits = Ok st' /\
              total st' = sum_len (currentDoc st').
Proof.
  intros Hov. induction splits as [|d rest IH]; intros st Ht; simpl.
  - eauto.
  - destruct (merge_step_returns st d Hov Ht) as (st1 & Hstep).
    rewrite Hstep. simpl. apply IH. eapply merge_step_total; eassumption.
Qed.

Lemma joinDocs_some (window : list jsstring) (doc : jsstring) :
  joinDocs window separator = Some doc ->
  doc <> [] /\ doc = trim (join window separator).
Proof.
  unfold joinDocs.
  destruct (trim (join window separator)) as [|c s]; simpl; [discriminate|].
  intros H. injection H as <-. split; [discriminate | reflexivity].
Qed.

Lemma push_doc_chunks (units window emitted : list jsstring) :
  window <> [] ->
  contiguous_run window units ->
  Forall (chunk_of separator units) emitted ->
  Forall (chunk_of separator units) (push_doc emitted (joinDocs window separator)).
Proof.
  intros Hne Hrun Hall.
  destruct (joinDocs window separator) as [doc|] eqn:Hj; simpl; [|assumption].
  apply joinDocs_some in Hj. destruct Hj as [Hdoc Heq].
  apply Forall_app. split; [assumption|].
  constructor; [|constructor].
  split; [assumption|]. exists window. auto.
Qed.

(** The window is always a run that ends where the scan stands, and the
    emitted chunks are chunks over the whole input. *)
Lemma merge_loop_chunks (rest : list jsstring) :
  forall done st st',
    merge_loop this separator st rest = Ok st' ->
    (exists before, done = before ++ currentDoc st) ->
    Forall (chunk_of separator (done ++ rest)) (docs st) ->
    (exists before, done ++ rest = before ++ currentDoc st') /\
    Forall (chunk_of separator (done ++ rest)) (docs st').
Proof.
  induction rest as [|d rest IH]; intros done st st'; simpl.
  - intros H. injection H as <-. rewrite app_nil_r. auto.
  - destruct (merge_step this separator st d) as [st1|e] eqn:Hstep;
      simpl; [|discriminate].
    intros Hloop (before & Hdone) Hdocs.
    apply merge_step_inv in Hstep.
    destruct Hstep as (ev & kept & Hw & Hw1 & _ & Hd1).
    replace (done ++ d :: rest) with ((done ++ [d]) ++ rest) in *
      by (rewrite <- app_assoc; reflexivity).
    apply (IH (done ++ [d]) st1 st' Hloop).
    + exists (before ++ ev). rewrite Hw1, Hdone, Hw, !app_assoc. reflexivity.
    + destruct Hd1 as [-> | [Hne ->]]; [assumption|].
      apply push_doc_chunks; try assumption.
      exists before, ([d] ++ rest). rewrite Hdone, <- !app_assoc. reflexivity.
Qed.

(** The errors of the merge engine are never the constructor's. *)
Lemma pop_loop_throws (_len : Z) (window : list jsstring) :
  forall total e, pop_loop this _len total window = Throw e -> e = TypeError.
Proof.
  induction window as [|front rest IH]; intros total e; simpl;
    destruct (keep_popping this _len total); try discriminate.
  - intros H. injection H as <-. reflexivity.
  - apply IH.
Qed.

Lemma merge_step_throws (st : merge_state) (d : jsstring) (e : js_error) :
  merge_step this separator st d = Throw e -> e = TypeError.
Proof.
  unfold merge_step.
  destruct (_ >? chunkSize this); simpl; [|discriminate].
  destruct (0 <? array_length (currentDoc st)); simpl; [|discriminate].
  destruct (pop_loop this (len d) (total st) (currentDoc st)) eqn:Hpop;
    simpl; [discriminate|].
  intros H. injection H as <-. eapply pop_loop_throws; eassumption.
Qed.

Lemma merge_loop_throws (splits : list jsstring) :
  forall st e, merge_loop this separator st splits = Throw e -> e = TypeError.
Proof.
  induction splits as [|d rest IH]; intros st e; simpl; [discriminate|].
  destruct (merge_step this separator st d) as [st1|e1] eqn:Hstep; simpl.
  - apply IH.
  - intros H. injection H as <-. eapply merge_step_throws; eassumption.
Qed.

Lemma mergeSplits_throws (splits : list jsstring) (e : js_error) :
  mergeSplits this separator splits = Throw e -> e = TypeError.
Proof.
  unfold mergeSplits.
  destruct (merge_loop this separator initial_state splits) eqn:Hloop;
    simpl; [discriminate|].
  intros H. injection H as <-. eapply merge_loop_throws; eassumption.
Qed.

End MergeFacts.

Lemma merge_loop_total (this : TextSplitterParams) (separator : jsstring)
  (splits : list jsstring) :
  forall st st',
    TextSplitter.total st = sum_len (TextSplitter.currentDoc st) ->
    TextSplitter.merge_loop this separator st splits = Ok st' ->
    TextSplitter.total st' = sum_len (TextSplitter.currentDoc st').
Proof.
  induction splits as [|d rest IH]; intros st st' Ht; simpl.
  - intros H. injection H as <-. exact Ht.
  - destruct (TextSplitter.merge_step this separator st d) as [st1|e] eqn:Hstep;
      simpl; [|discriminate].
    apply IH. eapply merge_step_total; eassumption.
Qed.

Lemma total_with_separators_join (separator : jsstring) (window : list jsstring) :
  total_with_separators separator window = len (join window separator).
Proof.
  unfold total_with_separators, array_length.
  induction window as [|u [|v rest] IH].
  - unfold len. cbn [sum_len join List.length]. lia.
  - unfold len. cbn [sum_len join List.length]. unfold len. lia.
  - change (join (u :: v :: rest) separator)
      with (u ++ separator ++ join (v :: rest) separator).
    change (sum_len (u :: v :: rest)) with (len u + sum_len (v :: rest)).
    unfold len in *. rewrite !length_app.
    cbn [List.length] in *. lia.
Qed.

(** ** The token-window splitter: the loop *)

Lemma ceil_div_zero_iff (step a : Z) :
  0 < step -> (ceil_div a step <= 0 <-> a <= 0).
Proof.
  intros Hstep. unfold ceil_div. split; intros H.
  - pose proof (Z.mul_succ_div_gt (a + step - 1) step Hstep). nia.
  - pose proof (Z.mul_div_le (a + step - 1) step Hstep). nia.
Qed.

Lemma ceil_div_step (step a : Z) :
  0 < step -> ceil_div (a - step) step = ceil_div a step - 1.
Proof.
  intros Hstep. unfold ceil_div.
  replace (a - step + step - 1) with ((a + step - 1) + (-1) * step) by lia.
  rewrite Z.div_add by lia. lia.
Qed.

Lemma ceil_div_bounds (step a : Z) (k : nat) :
  0 < step ->
  ((k < Z.to_nat (ceil_div a step))%nat <-> Z.of_nat k * step < a).
Proof.
  intros Hstep. unfold ceil_div.
  pose proof (Z.mul_succ_div_gt (a + step - 1) step Hstep).
  pose proof (Z.mul_div_le (a + step - 1) step Hstep).
  split; intros Hk; [nia|].
  assert (Z.of_nat k < (a + step - 1) / step) by nia. lia.
Qed.

Section TokenFacts.

Import TokenTextSplitter.

Variable getEncoding : string -> res Tiktoken.
Variable p : TextSplitterParams.
Variable tk : Tiktoken.
Variable input_ids : list Z.

Let step : Z := chunkSize p - chunkOverlap p.
Let n : Z := array_length input_ids.

Hypothesis step_positive : 0 < step.

(** The loop, started at [start] with the slice for [start], appends the
    decodings of the slices at [start], [start + step], ... *)
Lemma window_loop_runs (r : nat) :
  forall start acc fuel,
    r = Z.to_nat (ceil_div (n - start) step) ->
    (r < fuel)%nat ->
    window_loop p tk input_ids fuel start
      (slice input_ids start (Z.min (start + chunkSize p) n)) acc
    = Some (acc ++
            map (fun k =>
                   let s := start + Z.of_nat k * step in
                   decode tk (slice input_ids s (Z.min (s + chunkSize p) n)))
                (seq 0 r)).
Proof.
  induction r as [|r IH]; intros start acc fuel Hr Hfuel;
    (destruct fuel as [|fuel]; [lia|]); simpl.
  - assert (Hstop : n - start <= 0).
    { apply (ceil_div_zero_iff step); [exact step_positive | lia]. }
    fold n. replace (start <? n) with false by (symmetry; apply Z.ltb_ge; lia).
    rewrite app_nil_r. reflexivity.
  - assert (Hlt : start < n).
    { assert (H : ~ n - start <= 0)
        by (rewrite <- (ceil_div_zero_iff step) by exact step_positive; lia).
      lia. }
    fold n. replace (start <? n) with true by (symmetry; apply Z.ltb_lt; lia).
    fold step.
    rewrite (IH (start + step)).
    + rewrite <- app_assoc. simpl. rewrite Z.add_0_r.
      rewrite <- seq_shift, map_map.
      do 3 f_equal. apply map_ext. intros k.
      replace (start + step + Z.of_nat k * step)
        with (start + Z.of_nat (S k) * step) by lia.
      reflexivity.
    + replace (n - (start + step)) with (n - start - step) by lia.
      rewrite ceil_div_step by exact step_positive. lia.
    + lia.
Qed.

Lemma slice_is_window (start : Z) :
  0 <= start < n -> 0 <= chunkSize p ->
  slice input_ids start (Z.min (start + chunkSize p) n)
  = window input_ids start (Z.min (start + chunkSize p) n).
Proof.
  intros Hs Hsize. unfold slice, window, relative_index.
  change (Z.of_nat (List.length input_ids)) with n.
  replace (start <? 0) with false by (symmetry; apply Z.ltb_ge; lia).
  replace (Z.min (start + chunkSize p) n <? 0) with false
    by (symmetry; apply Z.ltb_ge; lia).
  cbv iota.
  rewrite (Z.min_l start n) by lia.
  rewrite (Z.min_l (Z.min (start + chunkSize p) n) n) by lia.
  reflexivity.
Qed.

Lemma acquire_fields (this this' : t) (tk' : Tiktoken) :
  acquire getEncoding this = Ok (this', tk') ->
  params this' = params this /\
  allowedSpecial this' = allowedSpecial this /\
  disallowedSpecial this' = disallowedSpecial this /\
  tokenizer this' = Some tk'.
Proof.
  unfold acquire. destruct (tokenizer this) as [tk0|] eqn:Htk.
  - intros H. injection H as <- <-. auto.
  - destruct (getEncoding (encodingName this)); simpl; [|discriminate].
    intros H. injection H as <- <-. auto.
Qed.

End TokenFacts.

Lemma window_starts_spec (p : TextSplitterParams) (n : Z) (k : nat) :
  0 < chunkSize p - chunkOverlap p ->
  (In (Z.of_nat k * (chunkSize p - chunkOverlap p)) (window_starts p n)
   <-> Z.of_nat k * (chunkSize p - chunkOverlap p) < n).
Proof.
  intros Hstep. unfold window_starts.
  rewrite <- (ceil_div_bounds _ n k Hstep), in_map_iff. split.
  - intros (j & Hj & Hin). apply in_seq in Hin.
    assert (j = k) by nia. subst j. lia.
  - intros Hk. exists k. split; [reflexivity|]. apply in_seq. lia.
Qed.

Lemma window_count_le (p : TextSplitterParams) (n : nat) :
  0 < chunkSize p - chunkOverlap p ->
  (Z.to_nat (ceil_div (Z.of_nat n) (chunkSize p - chunkOverlap p)) <= n)%nat.
Proof.
  intros Hstep.
  destruct (Nat.le_gt_cases
              (Z.to_nat (ceil_div (Z.of_nat n) (chunkSize p - chunkOverlap p))) n)
    as [H|H]; [exact H|].
  apply (ceil_div_bounds _ _ _ Hstep) in H. nia.
Qed.

(** The call on a splitter whose tokenizer is, or becomes, [tk] and whose
    text encodes to [ids]: the slices decoded in the order of the starts. *)
Lemma splitText_runs (getEncoding : string -> res Tiktoken)
  (this this' : TokenTextSplitter.t) (tk : Tiktoken)
  (text : jsstring) (ids : list Z) (fuel : nat) :
  let p := TokenTextSplitter.params this in
  let step := chunkSize p - chunkOverlap p in
  let n := array_length ids in
  0 < step ->
  TokenTextSplitter.acquire getEncoding this = Ok (this', tk) ->
  encode tk text (TokenTextSplitter.allowedSpecial this)
    (TokenTextSplitter.disallowedSpecial this) = Ok ids ->
  (List.length ids < fuel)%nat ->
  TokenTextSplitter.splitText getEncoding this fuel text
  = Ok (this',
        Some (map (fun k =>
                     let s := Z.of_nat k * step in
                     decode tk (slice ids s (Z.min (s + chunkSize p) n)))
                  (seq 0 (Z.to_nat (ceil_div n step))))).
Proof.
  intros p step n Hstep Hacq Henc Hfuel.
  unfold TokenTextSplitter.splitText. rewrite Hacq. simpl.
  destruct (acquire_fields getEncoding this this' tk Hacq) as (Hp & Ha & Hd & _).
  rewrite Ha, Hd, Henc, Hp. simpl. fold p. f_equal. f_equal.
  rewrite (window_loop_runs p tk ids Hstep (Z.to_nat (ceil_div n step))).
  - reflexivity.
  - fold step. f_equal. f_equal. unfold n. lia.
  - pose proof (window_count_le p (List.length ids) Hstep).
    fold step in H. unfold n, array_length. lia.
Qed.

(** ** The recursive splitter: the scan of the separators *)

Section SeparatorFacts.

Import RecursiveCharacterTextSplitter.

Variable text : jsstring.

Lemma scan_separators_first (before after : list jsstring) (s : jsstring)
  (init : option jsstring) :
  qualifies text s = true ->
  (forall b, In b before -> qualifies text b = false) ->
  scan_separators (before ++ s :: after) text init = Some s.
Proof.
  unfold qualifies. intros Hs Hbefore.
  induction before as [|b before IH]; simpl.
  - destruct (is_empty s); [reflexivity|]. simpl in Hs. rewrite Hs. reflexivity.
  - pose proof (Hbefore b (or_introl eq_refl)) as Hb.
    apply orb_false_iff in Hb. destruct Hb as [-> ->].
    apply IH. intros b' Hin. apply Hbefore. right. exact Hin.
Qed.

Lemma scan_separators_none (seps : list jsstring) (init : option jsstring) :
  (forall s, In s seps -> qualifies text s = false) ->
  scan_separators seps text init = init.
Proof.
  unfold qualifies. induction seps as [|s seps IH]; intros Hall; simpl.
  - reflexivity.
  - pose proof (Hall s (or_introl eq_refl)) as Hs.
    apply orb_false_iff in Hs. destruct Hs as [-> ->].
    apply IH. intros s' Hin. apply Hall. right. exact Hin.
Qed.

Lemma last_entry (seps : list jsstring) :
  seps <> [] ->
  nth_error seps (List.length seps - 1) = Some (last seps []).
Proof.
  induction seps as [|s [|s' seps] IH]; intros Hne.
  - contradiction.
  - reflexivity.
  - change (last (s :: s' :: seps) []) with (last (s' :: seps) []).
    rewrite <- IH by discriminate.
    simpl. rewrite Nat.sub_0_r. reflexivity.
Qed.

End SeparatorFacts.

(** ** Occurrences and pieces *)

Lemma starts_with_iff (p s : jsstring) :
  starts_with p s = true <-> exists rest, s = p ++ rest.
Proof.
  revert s. induction p as [|x p IH]; intros s; simpl.
  - split; [intros _; exists s; reflexivity | reflexivity].
  - destruct s as [|y s].
    + split; [discriminate | intros (rest & H); discriminate].
    + rewrite andb_true_iff, IH. unfold code_unit_eqb. rewrite N.eqb_eq.
      split.
      * intros (-> & rest & ->). exists rest. reflexivity.
      * intros (rest & H). injection H as -> ->. eauto.
Qed.

Lemma includes_iff (text s : jsstring) :
  includes text s = true <-> exists a b, text = a ++ s ++ b.
Proof.
  induction text as [|c text IH].
  - simpl. rewrite orb_false_r, starts_with_iff. split.
    + intros (rest & H). exists [], rest. exact H.
    + intros (a & b & H). destruct a; [eauto|discriminate].
  - change (includes (c :: text) s)
      with (starts_with s (c :: text) || includes text s).
    rewrite orb_true_iff, starts_with_iff, IH. split.
    + intros [(rest & H) | (a & b & H)].
      * exists [], rest. exact H.
      * exists (c :: a), b. rewrite H. reflexivity.
    + intros (a & b & H). destruct a as [|x a].
      * left. exists b. exact H.
      * right. injection H as -> ->. eauto.
Qed.

(** A string contained in a piece of a text is contained in the text. *)
Lemma includes_in_piece (text piece s : jsstring) :
  (exists a b, text = a ++ piece ++ b) ->
  includes text s = false -> includes piece s = false.
Proof.
  intros (a & b & ->) Htext.
  destruct (includes piece s) eqn:Hp; [|reflexivity].
  apply includes_iff in Hp. destruct Hp as (a' & b' & ->).
  rewrite <- Htext. symmetry. apply includes_iff.
  exists (a ++ a'), (b' ++ b). rewrite <- !app_assoc. reflexivity.
Qed.

Section SplitFacts.

Variable separator : jsstring.

(** The first piece of a scan is a prefix of the scanned text. *)
Lemma split_scan_head (s : jsstring) :
  exists p ps,
    split_scan separator 0 s = p :: ps /\ exists rest, s = p ++ rest.
Proof.
  induction s as [|c s IH].
  - exists [], []. split; [reflexivity | exists []; reflexivity].
  - cbn [split_scan]. destruct (starts_with separator (c :: s)).
    + eexists _, _. split; [reflexivity | exists (c :: s); reflexivity].
    + destruct IH as (p & ps & -> & rest & ->).
      exists (c :: p), ps. split; [reflexivity | exists rest; reflexivity].
Qed.

(** Every piece is a part of the scanned text. *)
Lemma split_scan_pieces (s : jsstring) :
  forall skip piece,
    In piece (split_scan separator skip s) ->
    exists a b, s = a ++ piece ++ b.
Proof.
  induction s as [|c s IH]; intros skip piece.
  - simpl. intros [<- | []]. exists [], []. reflexivity.
  - cbn [split_scan]. destruct skip as [|k].
    + destruct (starts_with separator (c :: s)).
      * intros [<- | Hin].
        -- exists [], (c :: s). reflexivity.
        -- apply IH in Hin. destruct Hin as (a & b & ->).
           exists (c :: a), b. reflexivity.
      * destruct (split_scan_head s) as (p & ps & Hscan & rest & Hrest).
        pose proof (IH 0%nat) as IH0. rewrite Hscan in IH0 |- *.
        intros [<- | Hin].
        -- exists [], rest. rewrite Hrest. reflexivity.
        -- destruct (IH0 piece (or_intror Hin)) as (a & b & ->).
           exists (c :: a), b. reflexivity.
    + intros Hin. apply IH in Hin. destruct Hin as (a & b & ->).
      exists (c :: a), b. reflexivity.
Qed.

(** No piece contains the separator. *)
Lemma split_scan_free (s : jsstring) :
  separator <> [] ->
  forall skip piece,
    In piece (split_scan separator skip s) ->
    includes piece separator = false.
Proof.
  intros Hne. induction s as [|c s IH]; intros skip piece.
  - simpl. intros [<- | []]. simpl.
    destruct separator; [contradiction | reflexivity].
  - cbn [split_scan]. destruct skip as [|k].
    + destruct (starts_with separator (c :: s)) eqn:Hocc.
      * intros [<- | Hin]; [|eapply IH; eassumption].
        simpl. destruct separator; [contradiction | reflexivity].
      * destruct (split_scan_head s) as (p & ps & Hscan & rest & Hrest).
        pose proof (IH 0%nat) as IH0. rewrite Hscan in IH0 |- *.
        intros [<- | Hin]; [|apply IH0; right; exact Hin].
        change (includes (c :: p) separator)
          with (starts_with separator (c :: p) || includes p separator).
        rewrite (IH0 p (or_introl eq_refl)), orb_false_r.
        destruct (starts_with separator (c :: p)) eqn:Hp; [|reflexivity].
        apply starts_with_iff in Hp. destruct Hp as (r & Hr).
        rewrite <- Hocc. symmetry. apply starts_with_iff.
        exists (r ++ rest). rewrite Hrest, app_assoc, <- Hr. reflexivity.
    + intros Hin. eapply IH; eassumption.
Qed.

End SplitFacts.

(** ** The recursive splitter: nested calls *)

(** [mergeSplits] on [undefined]: no unit gives no chunk, one unit is let
    through trimmed, and a second unit makes the read of
    [separator.length]. *)
Lemma mergeSplits_undefined_cases (this : TextSplitterParams)
  (splits : list jsstring) :
  TextSplitter.mergeSplits_undefined this splits
  = match splits with
    | [] => Ok []
    | [d] => Ok (TextSplitter.push_doc []
                   (TextSplitter.joinDocs [d] TextSplitter.comma))
    | _ :: _ :: _ => Throw TypeError
    end.
Proof.
  destruct splits as [|d [|d2 rest]]; [reflexivity| |];
    unfold TextSplitter.mergeSplits_undefined;
    cbn [TextSplitter.merge_loop_undefined bind];
    unfold TextSplitter.merge_step_undefined at 1;
    cbn [TextSplitter.initial_state TextSplitter.currentDoc TextSplitter.total
         TextSplitter.docs TextSplitter.warnings array_length List.length
         Z.of_nat Z.ltb Z.compare bind];
    destruct (0 + len d + 0 >? chunkSize this);
    cbn [bind TextSplitter.currentDoc TextSplitter.docs app
         TextSplitter.merge_loop_undefined];
    try reflexivity;
    unfold TextSplitter.merge_step_undefined;
    cbn [TextSplitter.currentDoc array_length List.length app];
    reflexivity.
Qed.

Lemma mergeSplits_any_throws (this : TextSplitterParams)
  (separator : option jsstring) (splits : list jsstring) (e : js_error) :
  TextSplitter.mergeSplits_any this separator splits = Throw e -> e = TypeError.
Proof.
  destruct separator as [s|]; cbn [TextSplitter.mergeSplits_any].
  - apply mergeSplits_throws.
  - rewrite mergeSplits_undefined_cases.
    destruct splits as [|d [|d2 rest]]; try discriminate.
    intros H. injection H as <-. reflexivity.
Qed.

Section RecursionFacts.

Import RecursiveCharacterTextSplitter.

Variable this : t.

Lemma splitText_unfold (fuel : nat) (text : jsstring) :
  splitText this (S fuel) text
  = let separator := select_separator (separators this) text in
    match split_loop this (splitText this fuel) separator [] []
            (split_on text separator) with
    | Returns (finalChunks, goodSplits) =>
        match flush_good this separator finalChunks goodSplits with
        | Ok chunks => Returns chunks
        | Throw e => Rejects e
        end
    | Rejects e => Rejects e
    | OutOfFuel => OutOfFuel
    end.
Proof.
  reflexivity.
Qed.

(** The loop over the pieces comes to an end as soon as the nested calls on
    its oversized pieces do. *)
Lemma split_loop_settled (self : jsstring -> outcome (list jsstring))
  (separator : option jsstring) (splits : list jsstring) :
  (forall s, In s splits -> chunkSize (params this) <= len s -> settled (self s)) ->
  forall finalChunks goodSplits,
    settled (split_loop this self separator finalChunks goodSplits splits).
Proof.
  induction splits as [|s rest IH]; intros Hself finalChunks goodSplits.
  - exact I.
  - cbn [split_loop].
    destruct (Z.ltb_spec (len s) (chunkSize (params this))) as [Hlt|Hge].
    + apply IH. intros s' Hin. apply Hself. right. exact Hin.
    + destruct (flush_good this separator finalChunks goodSplits); [|exact I].
      pose proof (Hself s (or_introl eq_refl) Hge) as Hs.
      destruct (self s); try contradiction; [|exact I].
      apply IH. intros s' Hin. apply Hself. right. exact Hin.
Qed.

Lemma splitText_step_settled (fuel : nat) (separator : option jsstring)
  (splits : list jsstring) :
  settled (split_loop this (splitText this fuel) separator [] [] splits) ->
  settled
    match split_loop this (splitText this fuel) separator [] [] splits with
    | Returns (finalChunks, goodSplits) =>
        match flush_good this separator finalChunks goodSplits with
        | Ok chunks => Returns chunks
        | Throw e => Rejects e
        end
    | Rejects e => Rejects e
    | OutOfFuel => OutOfFuel
    end.
Proof.
  destruct (split_loop this (splitText this fuel) separator [] [] splits)
    as [[finalChunks goodSplits]| |]; try contradiction; intros _; [|exact I].
  destruct (flush_good this separator finalChunks goodSplits); exact I.
Qed.

(** In a list that ends with the empty string some entry qualifies. *)
Lemma first_qualifying (text : jsstring) (rest : list jsstring) :
  rest <> [] -> last rest [] = [] ->
  exists mid s after,
    rest = mid ++ s :: after /\
    qualifies text s = true /\
    (forall b, In b mid -> qualifies text b = false).
Proof.
  induction rest as [|x rest IH]; intros Hne Hlast; [contradiction|].
  destruct (qualifies text x) eqn:Hx.
  - exists [], x, rest. repeat split; [exact Hx | intros b []].
  - destruct rest as [|y rest].
    + simpl in Hlast. subst x. discriminate.
    + destruct IH as (mid & s & after & Heq & Hs & Hmid);
        [discriminate | exact Hlast |].
      exists (x :: mid), s, after. rewrite Heq. repeat split; [exact Hs|].
      intros b [<- | Hin]; [exact Hx | apply Hmid; exact Hin].
Qed.

Lemma last_after (mid after : list jsstring) (s : jsstring) :
  s <> [] -> last (mid ++ s :: after) [] = [] ->
  after <> [] /\ last after [] = [].
Proof.
  intros Hs Hlast. destruct after as [|y after].
  - rewrite last_last in Hlast. contradiction.
  - split; [discriminate|].
    assert (H : last (mid ++ s :: y :: after) [] = last (y :: after) []).
    { clear. induction mid as [|m mid IH]; [reflexivity|].
      rewrite <- IH. simpl.
      destruct (mid ++ s :: y :: after) eqn:E; [|reflexivity].
      destruct mid; discriminate. }
    rewrite <- H. exact Hlast.
Qed.

Lemma flush_good_throws (separator : option jsstring)
  (finalChunks goodSplits : list jsstring) (e : js_error) :
  flush_good this separator finalChunks goodSplits = Throw e -> e = TypeError.
Proof.
  unfold flush_good. destruct (0 <? array_length goodSplits); [|discriminate].
  destruct (TextSplitter.mergeSplits_any (params this) separator goodSplits)
    eqn:Hm; simpl; [discriminate|].
  intros H. injection H as <-. eapply mergeSplits_any_throws; eassumption.
Qed.

Lemma split_loop_rejects (self : jsstring -> outcome (list jsstring))
  (separator : option jsstring) (splits : list jsstring) :
  (forall s e, self s = Rejects e -> e = TypeError) ->
  forall finalChunks goodSplits e,
    split_loop this self separator finalChunks goodSplits splits = Rejects e ->
    e = TypeError.
Proof.
  intros Hself. induction splits as [|s rest IH]; intros finalChunks goodSplits e.
  - discriminate.
  - cbn [split_loop]. destruct (len s <? chunkSize (params this)); [apply IH|].
    destruct (flush_good this separator finalChunks goodSplits) eqn:Hflush.
    + destruct (self s) eqn:Hs; try discriminate; [apply IH|].
      intros H. injection H as <-. eapply Hself; eassumption.
    + intros H. injection H as <-. eapply flush_good_throws; eassumption.
Qed.

(** The only error a call rejects with is the one of the merge engine. *)
Lemma splitText_rejects (fuel : nat) :
  forall text e, splitText this fuel text = Rejects e -> e = TypeError.
Proof.
  induction fuel as [|fuel IH]; intros text e; [discriminate|].
  rewrite splitText_unfold. cbv zeta.
  set (separator := select_separator (separators this) text).
  destruct (split_loop this (splitText this fuel) separator [] []
              (split_on text separator))
    as [[finalChunks goodSplits]|e'|] eqn:Hloop; try discriminate.
  - destruct (flush_good this separator finalChunks goodSplits) eqn:Hflush;
      [discriminate|].
    intros H. injection H as <-. eapply flush_good_throws; eassumption.
  - intros H. injection H as <-.
    eapply split_loop_rejects; [exact IH | exact Hloop].
Qed.

Hypothesis chunkSize_above_1 : 2 <= chunkSize (params this).

(** With [chunkSize >= 2] a call comes to an end when the fuel covers the
    entries of the separator list from the first one that can still be
    chosen for the text, the list ending with the empty string. *)
Lemma splitText_settled (fuel : nat) :
  forall text before rest,
    separators this = before ++ rest ->
    (forall b, In b before -> qualifies text b = false) ->
    rest <> [] -> last rest [] = [] ->
    (List.length rest <= fuel)%nat ->
    settled (splitText this fuel text).
Proof.
  induction fuel as [|fuel IH]; intros text before rest Hseps Hbefore Hne Hlast Hfuel.
  - destruct rest; [contradiction | simpl in Hfuel; lia].
  - rewrite splitText_unfold.
    destruct (first_qualifying text rest Hne Hlast)
      as (mid & s & after & Hrest & Hs & Hmid).
    assert (Hskip : forall b, In b (before ++ mid) -> qualifies text b = false).
    { intros b Hin. apply in_app_or in Hin. destruct Hin; auto. }
    unfold select_separator.
    rewrite Hseps, Hrest, app_assoc.
    rewrite (scan_separators_first text (before ++ mid) after s _ Hs Hskip).
    cbv zeta. apply splitText_step_settled. apply split_loop_settled.
    unfold split_on.
    destruct s as [|c s]; cbn [is_empty].
    + intros piece Hin Hbig. unfold split in Hin.
      apply in_map_iff in Hin. destruct Hin as (x & <- & _).
      unfold len in Hbig. simpl in Hbig. lia.
    + intros piece Hin _. cbn [split] in Hin.
      destruct (last_after mid after (c :: s)) as [Hafter Hlast'];
        [discriminate | rewrite <- Hrest; exact Hlast |].
      apply (IH piece ((before ++ mid) ++ [c :: s]) after).
      * rewrite Hseps, Hrest, <- !app_assoc. reflexivity.
      * intros b Hb. apply in_app_or in Hb. unfold qualifies.
        destruct Hb as [Hb | [<- | []]].
        -- pose proof (Hskip b Hb) as Hq. unfold qualifies in Hq.
           apply orb_false_iff in Hq. destruct Hq as [-> Hq]. simpl.
           eapply includes_in_piece; [|exact Hq].
           eapply split_scan_pieces; eassumption.
        -- simpl. eapply split_scan_free; [discriminate | eassumption].
      * exact Hafter.
      * exact Hlast'.
      * rewrite Hrest, length_app in Hfuel. simpl in Hfuel. lia.
Qed.

End RecursionFacts.

(** With an empty separator array the variable [separator] holds
    [undefined]: the text is split into its code units, a single unit is
    returned as it is, and merging more of them reads [separator.length]
    on [undefined]. *)
Example splitText_empty_separator_array :
  let this := {| RecursiveCharacterTextSplitter.params :=
                   {| chunkSize := 1000; chunkOverlap := 200 |};
                 RecursiveCharacterTextSplitter.separators := [] |} in
  RecursiveCharacterTextSplitter.splitText this 1 (str "a") = Returns [str "a"] /\
  RecursiveCharacterTextSplitter.splitText this 1 [] = Returns [] /\
  RecursiveCharacterTextSplitter.splitText this 1 (str "ab") = Rejects TypeError.
Proof.
  vm_compute. repeat split.
Qed.

(** With [chunkSize >= 2] and a separator list that ends with the empty
    string, a nesting of calls as deep as the list is long suffices: the
    call returns its chunks or rejects with the error of the merge
    engine. *)
Lemma splitText_terminates_from_chunkSize_2
  (this : RecursiveCharacterTextSplitter.t) (text : jsstring) (fuel : nat) :
  2 <= chunkSize (RecursiveCharacterTextSplitter.params this) ->
  RecursiveCharacterTextSplitter.separators this <> [] ->
  last (RecursiveCharacterTextSplitter.separators this) [] = [] ->
  (List.length (RecursiveCharacterTextSplitter.separators this) <= fuel)%nat ->
  settled (RecursiveCharacterTextSplitter.splitText this fuel text).
Proof.
  intros Hsize Hne Hlast Hfuel.
  apply (splitText_settled this Hsize fuel text []
           (RecursiveCharacterTextSplitter.separators this));
    try assumption; [reflexivity | intros b []].
Qed.

(** * Main results *)

(** ** The constructor *)

(** C1. Let [size] be the caller's [chunkSize], or 1000 when the caller
    gives none, and [overlap] the caller's [chunkOverlap], or 200 when the
    caller gives none (a constructor called without fields gets both
    defaults).  The constructor throws the configuration [Error] exactly
    when [overlap >= size], and otherwise returns the splitter that holds
    [size] and [overlap]; the constructors of the three splitters throw
    exactly when it does; and the error belongs to construction: the merge
    engine and the split operations built on it never throw an [Error]. *)
Theorem constructor_throws_iff_overlap_ge_size
  (fields : option PartialTextSplitterParams) :
  let size := match fields with
              | Some f => match fields_chunkSize f with
                          | Some v => v
                          | None => 1000
                          end
              | None => 1000
              end in
  let overlap := match fields with
                 | Some f => match fields_chunkOverlap f with
                             | Some v => v
                             | None => 200
                             end
                 | None => 200
                 end in
  (TextSplitter.constructor fields = Throw TextSplitter.config_error
   <-> overlap >= size) /\
  (TextSplitter.constructor fields
     = Ok {| chunkSize := size; chunkOverlap := overlap |}
   <-> overlap < size) /\
  (forall f,
     option_map CharacterTextSplitter.fields_base f = fields ->
     (CharacterTextSplitter.constructor f = Throw TextSplitter.config_error
      <-> overlap >= size) /\
     ((exists this, CharacterTextSplitter.constructor f = Ok this)
      <-> overlap < size)) /\
  (forall f,
     option_map RecursiveCharacterTextSplitter.fields_base f = fields ->
     (RecursiveCharacterTextSplitter.constructor f = Throw TextSplitter.config_error
      <-> overlap >= size) /\
     ((exists this, RecursiveCharacterTextSplitter.constructor f = Ok this)
      <-> overlap < size)) /\
  (forall f,
     option_map TokenTextSplitter.fields_base f = fields ->
     (TokenTextSplitter.constructor f = Throw TextSplitter.config_error
      <-> overlap >= size) /\
     ((exists this, TokenTextSplitter.constructor f = Ok this)
      <-> overlap < size)) /\
  (forall this separator splits message,
     TextSplitter.mergeSplits this separator splits <> Throw (Error message)) /\
  (forall this text message,
     CharacterTextSplitter.splitText this text <> Throw (Error message)) /\
  (forall this fuel text message,
     RecursiveCharacterTextSplitter.splitText this fuel text
     <> Rejects (Error message)).
Proof.
  intros size overlap.
  assert (Hbase :
    (TextSplitter.constructor fields = Throw TextSplitter.config_error
     /\ overlap >= size) \/
    (TextSplitter.constructor fields
       = Ok {| chunkSize := size; chunkOverlap := overlap |}
     /\ overlap < size)).
  { unfold TextSplitter.constructor. cbn [chunkSize chunkOverlap].
    change (TextSplitter.resolve_chunkSize fields) with size.
    change (TextSplitter.resolve_chunkOverlap fields) with overlap.
    destruct (Z.geb_spec overlap size); [left | right]; split;
      (reflexivity || lia). }
  repeat match goal with |- _ /\ _ => split end.
  - destruct Hbase as [[-> H] | [-> H]]; split; (discriminate || lia || auto).
  - destruct Hbase as [[-> H] | [-> H]]; split; (discriminate || lia || auto).
  - intros f <-. unfold CharacterTextSplitter.constructor.
    destruct Hbase as [[-> H] | [-> H]]; simpl; split; split;
      try discriminate; try lia; auto.
    + intros (this & Hthis). discriminate.
    + eauto.
  - intros f <-. unfold RecursiveCharacterTextSplitter.constructor.
    destruct Hbase as [[-> H] | [-> H]]; simpl; split; split;
      try discriminate; try lia; auto.
    + intros (this & Hthis). discriminate.
    + eauto.
  - intros f <-. unfold TokenTextSplitter.constructor.
    destruct Hbase as [[-> H] | [-> H]]; simpl; split; split;
      try discriminate; try lia; auto.
    + intros (this & Hthis). discriminate.
    + eauto.
  - intros this separator splits message H.
    apply mergeSplits_throws in H. discriminate.
  - intros this text message H. unfold CharacterTextSplitter.splitText in H.
    apply mergeSplits_throws in H. discriminate.
  - intros this fuel text message H.
    apply splitText_rejects in H. discriminate.
Qed.

(** ** The recursive splitter: chunk sizes *)

(** C2. With [chunkSize = 10], [chunkOverlap = 0] and the default
    separators, the text ["aaa bbb ccc"] comes back as the single chunk
    ["aaa bbb ccc"] of length 11: it is the join of the three units
    ["aaa"], ["bbb"], ["ccc"] obtained by splitting on [" "], it still
    contains that separator, and no warning was recorded for it. *)
Theorem recursive_splitter_chunk_above_chunkSize :
  let this :=
    {| RecursiveCharacterTextSplitter.params :=
         {| chunkSize := 10; chunkOverlap := 0 |};
       RecursiveCharacterTextSplitter.separators :=
         RecursiveCharacterTextSplitter.default_separators |} in
  RecursiveCharacterTextSplitter.splitText this 1 (str "aaa bbb ccc")
  = Returns [str "aaa bbb ccc"] /\
  len (str "aaa bbb ccc") = 11 /\
  RecursiveCharacterTextSplitter.select_separator
    RecursiveCharacterTextSplitter.default_separators (str "aaa bbb ccc")
  = Some (str " ") /\
  split (str "aaa bbb ccc") (str " ") = [str "aaa"; str "bbb"; str "ccc"] /\
  includes (str "aaa bbb ccc") (str " ") = true /\
  (exists st,
     TextSplitter.merge_loop {| chunkSize := 10; chunkOverlap := 0 |} (str " ")
       TextSplitter.initial_state [str "aaa"; str "bbb"; str "ccc"] = Ok st /\
     TextSplitter.total st = 9 /\ TextSplitter.warnings st = []).
Proof.
  repeat split.
  eexists. split; [vm_compute; reflexivity|]. split; reflexivity.
Qed.

(** ** The recursive splitter: termination *)

(** At [chunkSize = 1] a call on the text ["a"] consists of the nested
    call on the same text. *)
Lemma splitText_single_code_unit_step (fuel : nat) :
  let this :=
    {| RecursiveCharacterTextSplitter.params :=
         {| chunkSize := 1; chunkOverlap := 0 |};
       RecursiveCharacterTextSplitter.separators :=
         RecursiveCharacterTextSplitter.default_separators |} in
  RecursiveCharacterTextSplitter.splitText this (S fuel) (str "a")
  = match RecursiveCharacterTextSplitter.splitText this fuel (str "a") with
    | Returns otherInfo => Returns otherInfo
    | Rejects e => Rejects e
    | OutOfFuel => OutOfFuel
    end.
Proof.
  intros this. change (str "a") with [97%N].
  change (RecursiveCharacterTextSplitter.splitText this (S fuel) [97%N])
    with (match RecursiveCharacterTextSplitter.split_loop this
                  (RecursiveCharacterTextSplitter.splitText this fuel)
                  (Some []) [] [] [[97%N]] with
          | Returns (finalChunks, goodSplits) =>
              match RecursiveCharacterTextSplitter.flush_good
                      this (Some []) finalChunks goodSplits with
              | Ok chunks => Returns chunks
              | Throw e => Rejects e
              end
          | Rejects e => Rejects e
          | OutOfFuel => OutOfFuel
          end).
  cbn [RecursiveCharacterTextSplitter.split_loop].
  destruct (RecursiveCharacterTextSplitter.splitText this fuel [97%N]);
    reflexivity.
Qed.

(** C3. With [chunkSize = 1], [chunkOverlap = 0] and the default
    separators, no number of nested calls suffices for the text ["a"]: the
    single code unit has length 1, which is not below [chunkSize], so the
    call is repeated on the same text. *)
Theorem recursive_splitter_diverges_at_chunkSize_1 (fuel : nat) :
  TextSplitter.constructor
    (Some {| fields_chunkSize := Some 1; fields_chunkOverlap := Some 0 |})
  = Ok {| chunkSize := 1; chunkOverlap := 0 |} /\
  last RecursiveCharacterTextSplitter.default_separators (str "x") = [] /\
  RecursiveCharacterTextSplitter.splitText
    {| RecursiveCharacterTextSplitter.params :=
         {| chunkSize := 1; chunkOverlap := 0 |};
       RecursiveCharacterTextSplitter.separators :=
         RecursiveCharacterTextSplitter.default_separators |}
    fuel (str "a")
  = OutOfFuel.
Proof.
  split; [reflexivity|]. split; [reflexivity|].
  induction fuel as [|fuel IH]; [reflexivity|].
  rewrite splitText_single_code_unit_step, IH. reflexivity.
Qed.

(** ** The token-window splitter: number of windows *)

(** C4, as the code has it. For [N > 0] tokens and [chunkOverlap <
    chunkSize] the token-window splitter returns exactly
    [ceil (N / (chunkSize - chunkOverlap))] chunks. *)
Theorem token_splitter_window_count
  (getEncoding : string -> res Tiktoken)
  (this this' : TokenTextSplitter.t) (tk : Tiktoken)
  (text : jsstring) (ids : list Z) (fuel : nat) :
  let p := TokenTextSplitter.params this in
  let n := array_length ids in
  0 < n ->
  chunkOverlap p < chunkSize p ->
  TokenTextSplitter.acquire getEncoding this = Ok (this', tk) ->
  encode tk text (TokenTextSplitter.allowedSpecial this)
    (TokenTextSplitter.disallowedSpecial this) = Ok ids ->
  (List.length ids < fuel)%nat ->
  exists chunks,
    TokenTextSplitter.splitText getEncoding this fuel text
    = Ok (this', Some chunks) /\
    Z.of_nat (List.length chunks) = ceil_div n (chunkSize p - chunkOverlap p).
Proof.
  intros p n Hn Hvalid Hacq Henc Hfuel.
  assert (Hstep : 0 < chunkSize p - chunkOverlap p) by lia.
  eexists. split.
  - apply (splitText_runs getEncoding this this' tk text ids fuel
             Hstep Hacq Henc Hfuel).
  - rewrite length_map, length_seq. fold p n.
    assert (~ ceil_div n (chunkSize p - chunkOverlap p) <= 0)
      by (rewrite (ceil_div_zero_iff _ n Hstep); lia).
    lia.
Qed.

Lemma token_splitter_window_count_witness :
  exists chunks,
    TokenTextSplitter.splitText (fun _ => Ok code_unit_tokenizer)
      (code_unit_splitter 2 1) 4 (str "abc")
    = Ok (TokenTextSplitter.set_tokenizer (code_unit_splitter 2 1) code_unit_tokenizer,
          Some chunks) /\
    Z.of_nat (List.length chunks) = ceil_div 3 (2 - 1).
Proof.
  apply (token_splitter_window_count
           (fun _ => Ok code_unit_tokenizer) (code_unit_splitter 2 1)
           (TokenTextSplitter.set_tokenizer (code_unit_splitter 2 1) code_unit_tokenizer)
           code_unit_tokenizer (str "abc") (map Z.of_N (str "abc")) 4).
  - vm_compute. reflexivity.
  - vm_compute. reflexivity.
  - reflexivity.
  - reflexivity.
  - vm_compute. lia.
Defined.

(** C4, as stated, fails: with [chunkSize = 2] and [chunkOverlap = 1] a
    text of three tokens gives the three chunks ["ab"], ["bc"], ["c"],
    while [ceil ((3 - 1) / (2 - 1))] is 2. *)
Lemma token_splitter_window_count_as_specified_fails :
  chunkOverlap (TokenTextSplitter.params (code_unit_splitter 2 1))
    < chunkSize (TokenTextSplitter.params (code_unit_splitter 2 1)) /\
  encode code_unit_tokenizer (str "abc") (Listed []) All = Ok [97; 98; 99] /\
  TokenTextSplitter.splitText (fun _ => Ok code_unit_tokenizer)
    (code_unit_splitter 2 1) 4 (str "abc")
  = Ok (TokenTextSplitter.set_tokenizer (code_unit_splitter 2 1) code_unit_tokenizer,
        Some [str "ab"; str "bc"; str "c"]) /\
  Z.of_nat (List.length [str "ab"; str "bc"; str "c"])
  <> window_count_as_specified
       (TokenTextSplitter.params (code_unit_splitter 2 1)) 3.
Proof.
  repeat split; try reflexivity.
  vm_compute. discriminate.
Qed.

(** ** The merge engine: running total *)

(** C5. On the units ["aaa"; "bbb"] with separator [" "] the window
    holds both units and the running total is 6, the sum of the unit
    lengths, whereas the total with the separator between them counted in
    is 7. *)
Theorem merge_total_leaves_out_separators :
  let this := {| chunkSize := 10; chunkOverlap := 0 |} in
  let units := [str "aaa"; str "bbb"] in
  exists st,
    TextSplitter.merge_loop this (str " ") TextSplitter.initial_state units = Ok st /\
    TextSplitter.currentDoc st = units /\
    TextSplitter.total st = 6 /\
    sum_len (TextSplitter.currentDoc st) = 6 /\
    total_with_separators (str " ") (TextSplitter.currentDoc st) = 7.
Proof.
  eexists. split; [vm_compute; reflexivity|].
  repeat split.
Qed.

(** ** The merge engine: emitted chunks *)

(** C6. The empty unit sequence gives the empty chunk sequence, and every
    chunk [mergeSplits] returns is the trimmed separator-join of a non-empty
    contiguous run of the units and is not the empty string. *)
Theorem mergeSplits_emits_trimmed_joins
  (this : TextSplitterParams) (separator : jsstring) :
  TextSplitter.mergeSplits this separator [] = Ok [] /\
  forall splits chunks,
    TextSplitter.mergeSplits this separator splits = Ok chunks ->
    Forall (chunk_of separator splits) chunks.
Proof.
  split; [reflexivity|].
  intros splits chunks. unfold TextSplitter.mergeSplits.
  destruct (TextSplitter.merge_loop this separator TextSplitter.initial_state splits)
    as [st|e] eqn:Hloop; simpl; [|discriminate].
  intros H. injection H as <-.
  destruct (merge_loop_chunks this separator splits [] _ _ Hloop)
    as [(before & Hrun) Hdocs].
  - exists []. reflexivity.
  - constructor.
  - simpl in Hrun, Hdocs.
    destruct (TextSplitter.currentDoc st) as [|u w] eqn:Hw.
    + exact Hdocs.
    + apply push_doc_chunks; try assumption; [discriminate|].
      exists before, []. rewrite app_nil_r. exact Hrun.
Qed.

Lemma mergeSplits_emits_trimmed_joins_witness :
  Forall (chunk_of (str " ") [str "aaaa"; str " "; str "bbbb"; str "cccc"])
         [str "aaaa"; str "bbbb"; str "cccc"].
Proof.
  apply (proj2 (mergeSplits_emits_trimmed_joins
                  {| chunkSize := 8; chunkOverlap := 0 |} (str " "))
               [str "aaaa"; str " "; str "bbbb"; str "cccc"]).
  vm_compute. reflexivity.
Defined.

(** ** The recursive splitter: choice of the separator *)

(** C7, as the code has it. For a non-empty separator list the chosen
    separator is the first entry that is the empty string or is contained
    in the text; if no entry is empty or contained in the text, it is the
    last entry of the list. *)
Theorem select_separator_first_qualifying
  (text : jsstring) (seps : list jsstring) :
  seps <> [] ->
  (forall before s after,
     seps = before ++ s :: after ->
     qualifies text s = true ->
     (forall b, In b before -> qualifies text b = false) ->
     RecursiveCharacterTextSplitter.select_separator seps text = Some s) /\
  ((forall s, In s seps -> qualifies text s = false) ->
   RecursiveCharacterTextSplitter.select_separator seps text
   = Some (last seps [])).
Proof.
  intros Hne. unfold RecursiveCharacterTextSplitter.select_separator. split.
  - intros before s after -> Hs Hbefore.
    apply scan_separators_first; assumption.
  - intros Hnone. rewrite scan_separators_none by assumption.
    apply last_entry. exact Hne.
Qed.

Lemma select_separator_first_qualifying_witness :
  RecursiveCharacterTextSplitter.select_separator
    RecursiveCharacterTextSplitter.default_separators (str "ab cd")
  = Some (str " ").
Proof.
  apply (proj1 (select_separator_first_qualifying (str "ab cd")
                  RecursiveCharacterTextSplitter.default_separators
                  ltac:(discriminate))
               [[10; 10]; [10]]%N (str " ") [[]]).
  - reflexivity.
  - reflexivity.
  - intros b [<- | [<- | []]]; reflexivity.
Defined.

(** C7, as stated, fails: in the list ["x"; ""; "y"] no non-empty entry
    is contained in the text ["abc"], and the chosen separator is the
    empty string, which is not the last entry ["y"]. *)
Lemma select_separator_fallback_as_specified_fails :
  (forall s, In s [str "x"; []; str "y"] -> s <> [] ->
             includes (str "abc") s = false) /\
  RecursiveCharacterTextSplitter.select_separator
    [str "x"; []; str "y"] (str "abc") = Some [] /\
  last [str "x"; []; str "y"] [] = str "y" /\
  RecursiveCharacterTextSplitter.select_separator
    [str "x"; []; str "y"] (str "abc")
  <> Some (last [str "x"; []; str "y"] []).
Proof.
  repeat split.
  - intros s [<- | [<- | [<- | []]]] Hne; try reflexivity. contradiction.
  - discriminate.
Qed.

(** ** The token-window splitter: the windows *)

(** C8. Under a valid configuration (a positive [chunkSize] above
    [chunkOverlap]) the token-window splitter returns, in order, the
    decodings of the windows [[start, min (start + chunkSize) N)] for the
    starts [k * (chunkSize - chunkOverlap)], [k = 0, 1, ...], a start being
    taken exactly when it is below [N]; no token gives no chunk. *)
Theorem token_splitter_emits_windows_in_order
  (getEncoding : string -> res Tiktoken)
  (this this' : TokenTextSplitter.t) (tk : Tiktoken)
  (text : jsstring) (ids : list Z) (fuel : nat) :
  let p := TokenTextSplitter.params this in
  let step := chunkSize p - chunkOverlap p in
  let n := array_length ids in
  0 < chunkSize p ->
  chunkOverlap p < chunkSize p ->
  TokenTextSplitter.acquire getEncoding this = Ok (this', tk) ->
  encode tk text (TokenTextSplitter.allowedSpecial this)
    (TokenTextSplitter.disallowedSpecial this) = Ok ids ->
  (List.length ids < fuel)%nat ->
  TokenTextSplitter.splitText getEncoding this fuel text
  = Ok (this', Some (map (decoded_window p tk ids) (window_starts p n))) /\
  (forall k : nat, In (Z.of_nat k * step) (window_starts p n)
                   <-> Z.of_nat k * step < n) /\
  (ids = [] -> window_starts p n = []).
Proof.
  intros p step n Hsize Hvalid Hacq Henc Hfuel.
  assert (Hstep : 0 < step) by (unfold step; lia).
  split; [|split].
  - rewrite (splitText_runs getEncoding this this' tk text ids fuel
               Hstep Hacq Henc Hfuel).
    fold p step n. do 3 f_equal.
    unfold window_starts. rewrite map_map. fold step.
    apply map_ext_in. intros k Hk. apply in_seq in Hk. simpl.
    unfold decoded_window. fold n. f_equal.
    apply slice_is_window; [|lia].
    assert (Z.of_nat k * step < n)
      by (apply (ceil_div_bounds step n k Hstep); lia).
    fold n. nia.
  - intros k. apply window_starts_spec. exact Hstep.
  - intros ->. unfold window_starts. fold step.
    change (array_length (@nil Z)) with 0 in *.
    replace (Z.to_nat (ceil_div n step)) with 0%nat; [reflexivity|].
    pose proof (proj2 (ceil_div_zero_iff step 0 Hstep) (Z.le_refl 0)).
    unfold n. lia.
Qed.

Lemma token_splitter_emits_windows_in_order_witness :
  TokenTextSplitter.splitText (fun _ => Ok code_unit_tokenizer)
    (code_unit_splitter 4 1) 9 (str "abcdefgh")
  = Ok (TokenTextSplitter.set_tokenizer (code_unit_splitter 4 1) code_unit_tokenizer,
        Some [str "abcd"; str "defg"; str "gh"]).
Proof.
  apply (token_splitter_emits_windows_in_order
           (fun _ => Ok code_unit_tokenizer) (code_unit_splitter 4 1)
           (TokenTextSplitter.set_tokenizer (code_unit_splitter 4 1) code_unit_tokenizer)
           code_unit_tokenizer (str "abcdefgh")
           (map Z.of_N (str "abcdefgh")) 9).
  - vm_compute. reflexivity.
  - vm_compute. reflexivity.
  - reflexivity.
  - reflexivity.
  - vm_compute. lia.
Defined.

(** ** The fixed-separator splitter *)

(** C9. With [chunkSize = 10], [chunkOverlap = 0] and separator [" "], the
    text ["aaaa bbbb cccc dddd"] is split into ["aaaa bbbb"] and
    ["cccc dddd"]. *)
Theorem character_splitter_example :
  TextSplitter.constructor
    (Some {| fields_chunkSize := Some 10; fields_chunkOverlap := Some 0 |})
  = Ok {| chunkSize := 10; chunkOverlap := 0 |} /\
  CharacterTextSplitter.splitText
    {| CharacterTextSplitter.params := {| chunkSize := 10; chunkOverlap := 0 |};
       CharacterTextSplitter.separator := str " " |}
    (str "aaaa bbbb cccc dddd")
  = Ok [str "aaaa bbbb"; str "cccc dddd"].
Proof.
  split; vm_compute; reflexivity.
Qed.

(** Two more runs: the empty separator, and the recursion into an
    oversized line. *)
Example character_splitter_empty_separator :
  CharacterTextSplitter.splitText
    {| CharacterTextSplitter.params := {| chunkSize := 4; chunkOverlap := 0 |};
       CharacterTextSplitter.separator := [] |}
    (str "abcdefgh")
  = Ok [str "abcd"; str "efgh"].
Proof.
  vm_compute. reflexivity.
Qed.

Example recursive_splitter_oversized_line :
  RecursiveCharacterTextSplitter.splitText
    {| RecursiveCharacterTextSplitter.params :=
         {| chunkSize := 5; chunkOverlap := 0 |};
       RecursiveCharacterTextSplitter.separators :=
         RecursiveCharacterTextSplitter.default_separators |}
    2 ([97; 98; 10] ++ str "cdefghij")%N
  = Returns [str "ab"; str "cdefg"; str "hij"].
Proof.
  vm_compute. reflexivity.
Qed.

(** ** The merge engine: the shifting loop *)

(** C10. With a non-negative [chunkOverlap], the shifting loop run on a
    window whose total is the sum of its unit lengths never reads the
    front of an empty window, and it leaves a window with that same
    property; the scan of any unit sequence keeps the total equal to that
    sum, so [mergeSplits] returns. *)
Theorem shifting_loop_reads_existing_front
  (this : TextSplitterParams) (separator : jsstring) (splits : list jsstring) :
  0 <= chunkOverlap this ->
  (forall _len window,
     exists window',
       TextSplitter.pop_loop this _len (sum_len window) window
       = Ok (sum_len window', window')) /\
  (exists st,
     TextSplitter.merge_loop this separator TextSplitter.initial_state splits = Ok st /\
     TextSplitter.total st = sum_len (TextSplitter.currentDoc st)) /\
  (exists chunks, TextSplitter.mergeSplits this separator splits = Ok chunks).
Proof.
  intros Hov.
  destruct (merge_loop_returns this separator splits Hov TextSplitter.initial_state)
    as (st & Hloop & Ht); [reflexivity|].
  split; [|split].
  - intros _len window. apply pop_loop_returns. exact Hov.
  - exists st. auto.
  - unfold TextSplitter.mergeSplits. rewrite Hloop. simpl. eauto.
Qed.

Lemma shifting_loop_reads_existing_front_witness :
  exists chunks,
    TextSplitter.mergeSplits {| chunkSize := 10; chunkOverlap := 4 |} (str " ")
      [str "aaaa"; str "bbbb"; str "cccc"; str "dddd"] = Ok chunks.
Proof.
  apply (shifting_loop_reads_existing_front
           {| chunkSize := 10; chunkOverlap := 4 |} (str " ")
           [str "aaaa"; str "bbbb"; str "cccc"; str "dddd"]).
  simpl. lia.
Defined.

(** The precondition matters: the constructor accepts a negative
    [chunkOverlap], and then the loop does read the front of an empty
    window. *)
Example shifting_loop_negative_overlap :
  TextSplitter.constructor
    (Some {| fields_chunkSize := Some 10; fields_chunkOverlap := Some (-1) |})
  = Ok {| chunkSize := 10; chunkOverlap := -1 |} /\
  TextSplitter.mergeSplits {| chunkSize := 10; chunkOverlap := -1 |} (str " ")
    [str "aaaaaaa"; str "bbbbbbbbb"]
  = Throw TypeError.
Proof.
  split; reflexivity.
Qed.

(** * Further results *)

(** ** The merge engine: the runs behind the chunks *)

Section MergeRuns.

Import TextSplitter.

Variable this : TextSplitterParams.
Variable separator : jsstring.

Lemma pop_loop_exit (_len : Z) (window : list jsstring) :
  forall total total' window',
    pop_loop this _len total window = Ok (total', window') ->
    keep_popping this _len total' = false.
Proof.
  induction window as [|front rest IH]; intros total total' window'; simpl;
    destruct (keep_popping this _len total) eqn:Hkeep; try discriminate.
  - intros H. injection H as <- <-. exact Hkeep.
  - apply IH.
  - intros H. injection H as <- <-. exact Hkeep.
Qed.

Lemma keep_popping_false (_len total : Z) :
  keep_popping this _len total = false ->
  total <= chunkOverlap this /\
  (total + _len <= chunkSize this \/ total <= 0).
Proof.
  unfold keep_popping. intros H. apply orb_false_iff in H.
  destruct H as [H1 H2]. rewrite Z.gtb_ltb in H1. apply Z.ltb_ge in H1.
  split; [exact H1|].
  apply andb_false_iff in H2. rewrite !Z.gtb_ltb in H2.
  destruct H2 as [H2|H2]; apply Z.ltb_ge in H2; [left | right]; lia.
Qed.

(** One iteration either appends the unit to the window and emits nothing,
    or it flushes the non-empty window, keeps a suffix of it and appends
    the unit; the window it leaves fits. *)
Lemma merge_step_cases (st st' : merge_state) (d : jsstring) :
  total st = sum_len (currentDoc st) ->
  merge_step this separator st d = Ok st' ->
  total st' = sum_len (currentDoc st') /\
  fits this (currentDoc st') /\
  ((docs st' = docs st /\ currentDoc st' = currentDoc st ++ [d]) \/
   (currentDoc st <> [] /\
    docs st' = push_doc (docs st) (joinDocs (currentDoc st) separator) /\
    exists evicted kept,
      currentDoc st = evicted ++ kept /\ currentDoc st' = kept ++ [d])).
Proof.
  intros Ht Hstep.
  split; [eapply merge_step_total; eassumption|].
  revert Hstep. unfold merge_step.
  destruct (Z.gtb_spec
              (total st + len d
               + (if 0 <? array_length (currentDoc st) then len separator else 0))
              (chunkSize this)) as [Hbig|Hsmall].
  - destruct (0 <? array_length (currentDoc st)) eqn:Hne.
    + destruct (pop_loop this (len d) (total st) (currentDoc st))
        as [[t' w']|e] eqn:Hpop; simpl; [|discriminate].
      intros H. injection H as <-. simpl.
      pose proof (pop_loop_exit _ _ _ _ _ Hpop) as Hexit.
      apply keep_popping_false in Hexit. destruct Hexit as [_ Hexit].
      apply pop_loop_suffix in Hpop. destruct Hpop as (ev & Hw & Ht').
      assert (Hsum : t' = sum_len w').
      { rewrite Ht', Ht, Hw, sum_len_app. lia. }
      split.
      * destruct Hexit as [Hexit|Hexit].
        -- left. rewrite sum_len_app. simpl. lia.
        -- right. exists w', d. split; [reflexivity|].
           pose proof (sum_len_nonneg w'). lia.
      * right. split; [|split; [reflexivity | eauto]].
        intros Hnil. rewrite Hnil in Hne. discriminate.
    + simpl. intros H. injection H as <-. simpl.
      assert (Hnil : currentDoc st = []).
      { destruct (currentDoc st); [reflexivity | discriminate]. }
      split; [|left; auto].
      right. exists [], d. rewrite Hnil. auto.
  - simpl. intros H. injection H as <-. simpl.
    split; [|left; auto].
    left. rewrite sum_len_app. simpl.
    assert (0 <= (if 0 <? array_length (currentDoc st) then len separator else 0)).
    { destruct (0 <? array_length (currentDoc st)); [apply len_nonneg | lia]. }
    lia.
Qed.

Lemma chain_weaken (runs : list (nat * nat)) (lo hi hi0 lo' hi' : nat) :
  (hi0 <= hi)%nat -> chain lo hi runs lo' hi' -> chain lo hi0 runs lo' hi'.
Proof.
  destruct runs as [|[o n] rs]; simpl.
  - intros Hle [-> H]. split; [reflexivity | lia].
  - intros Hle (-> & H & Hrest). repeat split; [lia | exact Hrest].
Qed.

Lemma chain_follows (runs : list (nat * nat)) :
  forall lo hi lo' hi' o n,
    chain lo hi runs lo' hi' ->
    (o <= lo <= o + n)%nat -> (o + n < hi)%nat -> (lo' <= hi')%nat ->
    follows o n (runs ++ [(lo', hi' - lo')%nat]) hi'.
Proof.
  induction runs as [|[o2 n2] rs IH]; intros lo hi lo' hi' o n; simpl.
  - intros [-> Hhi] Hlo Hprev Hle. repeat split; lia.
  - intros (-> & Hhi & lo1 & Hlo1 & Hchain) Hlo Hprev Hle.
    repeat split; try lia.
    apply (IH lo1 _ lo' hi' _ _ Hchain); lia.
Qed.

Lemma skipn_snoc (lo : nat) (done : list jsstring) (d : jsstring) :
  (lo <= List.length done)%nat ->
  skipn lo (done ++ [d]) = skipn lo done ++ [d].
Proof.
  intros Hle. rewrite skipn_app.
  replace (lo - List.length done)%nat with 0%nat by lia. reflexivity.
Qed.

Lemma run_at_window (lo : nat) (done rest : list jsstring) :
  (lo <= List.length done)%nat ->
  run_at (done ++ rest) (lo, (List.length done - lo)%nat) = skipn lo done.
Proof.
  intros Hle. unfold run_at. simpl. rewrite skipn_app.
  replace (lo - List.length done)%nat with 0%nat by lia. simpl.
  rewrite firstn_app, length_skipn.
  replace (List.length done - lo - (List.length done - lo))%nat with 0%nat by lia.
  rewrite firstn_all2 by (rewrite length_skipn; lia).
  simpl. apply app_nil_r.
Qed.

(** The scan of the units: the chunks emitted are those of the windows
    flushed, and these windows follow each other without a gap. *)
Lemma merge_loop_chain (rest : list jsstring) :
  forall done lo st st',
    merge_loop this separator st rest = Ok st' ->
    (lo <= List.length done)%nat ->
    currentDoc st = skipn lo done ->
    total st = sum_len (currentDoc st) ->
    (currentDoc st = [] \/ fits this (currentDoc st)) ->
    exists runs lo',
      (lo' <= List.length (done ++ rest))%nat /\
      currentDoc st' = skipn lo' (done ++ rest) /\
      (currentDoc st' = [] \/ fits this (currentDoc st')) /\
      docs st' = docs st ++ chunks_of_runs separator (done ++ rest) runs /\
      Forall (fun r => run_at (done ++ rest) r <> [] /\
                       fits this (run_at (done ++ rest) r)) runs /\
      chain lo (List.length done) runs lo' (List.length (done ++ rest)).
Proof.
  induction rest as [|d rest IH]; intros done lo st st' Hloop Hlo Hwin Htot Hfit.
  - simpl in Hloop. injection Hloop as <-. exists [], lo.
    rewrite app_nil_r. simpl. rewrite app_nil_r.
    repeat split; auto.
  - simpl in Hloop.
    destruct (merge_step this separator st d) as [st1|e] eqn:Hstep;
      simpl in Hloop; [|discriminate].
    destruct (merge_step_cases st st1 d Htot Hstep) as (Htot1 & Hfit1 & Hcase).
    replace (done ++ d :: rest) with ((done ++ [d]) ++ rest)
      by (rewrite <- app_assoc; reflexivity).
    assert (Hlen : List.length (done ++ [d]) = S (List.length done))
      by (rewrite length_app; simpl; lia).
    destruct Hcase as [[Hdocs Hcur] | (Hne & Hdocs & ev & kept & Hev & Hcur)].
    + destruct (IH (done ++ [d]) lo st1 st' Hloop) as
        (runs & lo' & Hlo' & Hwin' & Hfit' & Hdocs' & Hall & Hchain); auto.
      * lia.
      * rewrite Hcur, Hwin. symmetry. apply skipn_snoc. exact Hlo.
      * exists runs, lo'. repeat split; auto.
        -- rewrite Hdocs', Hdocs. reflexivity.
        -- eapply chain_weaken; [|exact Hchain]. lia.
    + assert (Hevlen : (List.length ev <= List.length done - lo)%nat).
      { rewrite <- (length_skipn lo done), <- Hwin, Hev, length_app. lia. }
      assert (Hkept : kept = skipn (lo + List.length ev) done).
      { rewrite Nat.add_comm, <- skipn_skipn, <- Hwin, Hev.
        rewrite skipn_app, Nat.sub_diag, skipn_all. reflexivity. }
      destruct (IH (done ++ [d]) (lo + List.length ev)%nat st1 st' Hloop) as
        (runs & lo' & Hlo' & Hwin' & Hfit' & Hdocs' & Hall & Hchain); auto.
      * lia.
      * rewrite Hcur, Hkept. symmetry. apply skipn_snoc. lia.
      * exists ((lo, (List.length done - lo)%nat) :: runs), lo'.
        assert (Hrun : run_at ((done ++ [d]) ++ rest)
                         (lo, (List.length done - lo)%nat) = currentDoc st).
        { rewrite <- app_assoc, Hwin. apply run_at_window. exact Hlo. }
        repeat split; auto.
        -- rewrite Hdocs', Hdocs. cbn [chunks_of_runs flat_map].
           rewrite Hrun.
           destruct (joinDocs (currentDoc st) separator); simpl;
             [rewrite <- app_assoc|]; reflexivity.
        -- constructor; [|exact Hall]. rewrite Hrun. split; [exact Hne|].
           destruct Hfit as [Hnil|Hfit]; [contradiction | exact Hfit].
        -- lia.
        -- exists (lo + List.length ev)%nat. split; [lia|].
           replace (S (lo + (List.length done - lo))) with (List.length (done ++ [d]))
             by lia.
           exact Hchain.
Qed.

(** The chunks of [mergeSplits] are the non-empty trimmed joins of a
    sequence of runs of the units that tile the units, each run but
    possibly an empty last one non-empty and within the size budget. *)
Lemma mergeSplits_runs (splits chunks : list jsstring) :
  mergeSplits this separator splits = Ok chunks ->
  exists runs,
    chunks = chunks_of_runs separator splits runs /\
    tiling runs (List.length splits) /\
    Forall (fun r => run_at splits r = [] \/ fits this (run_at splits r)) runs.
Proof.
  unfold mergeSplits.
  destruct (merge_loop this separator initial_state splits) as [st|e] eqn:Hloop;
    simpl; [|discriminate].
  intros H. injection H as <-.
  destruct (merge_loop_chain splits [] 0%nat initial_state st Hloop)
    as (runs & lo' & Hlo' & Hwin & Hfit & Hdocs & Hall & Hchain);
    simpl; auto.
  simpl in *.
  set (final := (lo', (List.length splits - lo')%nat)).
  assert (Hfinal : run_at splits final = currentDoc st).
  { rewrite Hwin. apply (run_at_window lo' splits []) in Hlo'.
    rewrite app_nil_r in Hlo'. exact Hlo'. }
  exists (runs ++ [final]). split; [|split].
  - rewrite Hdocs. unfold chunks_of_runs. rewrite flat_map_app.
    cbn [flat_map]. rewrite Hfinal, app_nil_r.
    destruct (joinDocs (currentDoc st) separator); simpl;
      [reflexivity | rewrite app_nil_r; reflexivity].
  - destruct runs as [|[o n] rs]; simpl in Hchain |- *.
    + destruct Hchain as [-> _]. split; [reflexivity | lia].
    + destruct Hchain as (-> & _ & lo1 & Hlo1 & Hchain).
      split; [reflexivity|].
      apply (chain_follows rs lo1 (S (0 + n)) lo' (List.length splits) 0%nat n);
        auto; lia.
  - apply Forall_app. split.
    + eapply Forall_impl; [|exact Hall]. intros r [_ Hr]. right. exact Hr.
    + constructor; [|constructor]. rewrite Hfinal. exact Hfit.
Qed.

End MergeRuns.

(** ** White space at the ends of a string *)

Lemma trimStart_length (s : jsstring) :
  (List.length (trimStart s) <= List.length s)%nat.
Proof.
  induction s as [|c s IH]; simpl; [lia|].
  destruct (is_white_space c); simpl; lia.
Qed.

Lemma trim_length (s : jsstring) : len (trim s) <= len s.
Proof.
  unfold len, trim, trimEnd. rewrite length_rev.
  pose proof (trimStart_length (rev (trimStart s))) as H1.
  rewrite length_rev in H1.
  pose proof (trimStart_length s). lia.
Qed.

Lemma trimStart_idempotent (s : jsstring) :
  trimStart (trimStart s) = trimStart s.
Proof.
  induction s as [|c s IH]; simpl; [reflexivity|].
  destruct (is_white_space c) eqn:Hc; [exact IH|].
  simpl. rewrite Hc. reflexivity.
Qed.

Lemma trimStart_snoc (s : jsstring) (c : code_unit) :
  is_white_space c = false -> trimStart (s ++ [c]) = trimStart s ++ [c].
Proof.
  intros Hc. induction s as [|x s IH]; simpl.
  - rewrite Hc. reflexivity.
  - destruct (is_white_space x); [exact IH | reflexivity].
Qed.

Lemma trimEnd_cons (s : jsstring) (c : code_unit) :
  is_white_space c = false -> trimEnd (c :: s) = c :: trimEnd s.
Proof.
  intros Hc. unfold trimEnd. simpl.
  rewrite trimStart_snoc by exact Hc.
  rewrite rev_app_distr. reflexivity.
Qed.

Lemma trimStart_trimEnd (s : jsstring) :
  trimStart s = s -> trimStart (trimEnd s) = trimEnd s.
Proof.
  destruct s as [|c s]; [reflexivity|]. simpl.
  destruct (is_white_space c) eqn:Hc.
  - intros H. pose proof (trimStart_length s) as Hlen.
    rewrite H in Hlen. simpl in Hlen. lia.
  - intros _. rewrite trimEnd_cons by exact Hc. simpl. rewrite Hc. reflexivity.
Qed.

Lemma trim_idempotent (s : jsstring) : trim (trim s) = trim s.
Proof.
  unfold trim.
  rewrite trimStart_trimEnd by apply trimStart_idempotent.
  unfold trimEnd. rewrite rev_involutive, trimStart_idempotent. reflexivity.
Qed.

(** The trimmed string is a part of the string. *)
Lemma trimStart_suffix (s : jsstring) : exists a, s = a ++ trimStart s.
Proof.
  induction s as [|c s IH]; simpl.
  - exists []. reflexivity.
  - destruct (is_white_space c).
    + destruct IH as (a & IH). exists (c :: a). simpl. rewrite <- IH. reflexivity.
    + exists []. reflexivity.
Qed.

Lemma trim_part (s : jsstring) : exists a b, s = a ++ trim s ++ b.
Proof.
  unfold trim, trimEnd.
  destruct (trimStart_suffix s) as (a & Ha).
  destruct (trimStart_suffix (rev (trimStart s))) as (b & Hb).
  exists a, (rev b).
  rewrite <- rev_app_distr, <- Hb, rev_involutive. exact Ha.
Qed.

(** ** Runs and chunks *)

Lemma run_at_contiguous (units : list jsstring) (r : nat * nat) :
  contiguous_run (run_at units r) units.
Proof.
  unfold contiguous_run, run_at.
  exists (firstn (fst r) units), (skipn (snd r) (skipn (fst r) units)).
  rewrite firstn_skipn, firstn_skipn. reflexivity.
Qed.

Lemma chunks_of_runs_in (separator : jsstring) (units : list jsstring)
  (runs : list (nat * nat)) (chunk : jsstring) :
  In chunk (chunks_of_runs separator units runs) ->
  exists r, In r runs /\
            TextSplitter.joinDocs (run_at units r) separator = Some chunk.
Proof.
  unfold chunks_of_runs. rewrite in_flat_map. intros (r & Hr & Hin).
  exists r. split; [exact Hr|].
  destruct (TextSplitter.joinDocs (run_at units r) separator);
    simpl in Hin; [|contradiction].
  destruct Hin as [<- | []]. reflexivity.
Qed.

Lemma joinDocs_nil (separator : jsstring) :
  TextSplitter.joinDocs [] separator = None.
Proof. reflexivity. Qed.

Lemma follows_covers (rs : list (nat * nat)) :
  forall o n total i,
    follows o n rs total -> (o <= i < total)%nat ->
    exists r, In r ((o, n) :: rs) /\ (fst r <= i < fst r + snd r)%nat.
Proof.
  induction rs as [|[o' n'] rs IH]; intros o n total i; simpl.
  - intros <- Hi. exists (o, n). simpl. split; [left; reflexivity | lia].
  - intros (Ho & Hn & Hrest) Hi.
    destruct (Nat.lt_ge_cases i (o + n)) as [Hin|Hout].
    + exists (o, n). simpl. split; [left; reflexivity | lia].
    + destruct (IH o' n' total i Hrest) as (r & Hr & Hcov); [lia|].
      exists r. split; [right; exact Hr | exact Hcov].
Qed.

(** X1. The chunks [mergeSplits] returns are the non-empty trimmed joins,
    in order, of runs of the units that tile the units: the first run
    starts at the first unit, each next run starts inside or right behind
    the run before it and ends beyond it, and the last run ends at the last
    unit; so every unit lies in some run. *)
Theorem mergeSplits_runs_tile_units
  (this : TextSplitterParams) (separator : jsstring)
  (splits chunks : list jsstring) :
  TextSplitter.mergeSplits this separator splits = Ok chunks ->
  exists runs,
    chunks = chunks_of_runs separator splits runs /\
    tiling runs (List.length splits) /\
    (forall i, (i < List.length splits)%nat ->
               exists r, In r runs /\ (fst r <= i < fst r + snd r)%nat).
Proof.
  intros H. destruct (mergeSplits_runs this separator splits chunks H)
    as (runs & Hchunks & Htiling & _).
  exists runs. repeat split; try assumption.
  intros i Hi. destruct runs as [|[o n] rs]; [contradiction|].
  destruct Htiling as [-> Hfollows].
  apply (follows_covers rs 0%nat n (List.length splits) i Hfollows). lia.
Qed.

Lemma mergeSplits_runs_tile_units_witness :
  exists runs,
    [str "aaaa bbbb"; str "bbbb cccc"; str "cccc dddd"]
    = chunks_of_runs (str " ")
        [str "aaaa"; str "bbbb"; str "cccc"; str "dddd"] runs /\
    tiling runs 4 /\
    (forall i, (i < 4)%nat ->
               exists r, In r runs /\ (fst r <= i < fst r + snd r)%nat).
Proof.
  apply (mergeSplits_runs_tile_units {| chunkSize := 10; chunkOverlap := 4 |}
           (str " ") [str "aaaa"; str "bbbb"; str "cccc"; str "dddd"]).
  vm_compute. reflexivity.
Defined.

(** Every chunk comes from one of the runs, and that run fits. *)
Lemma mergeSplits_chunk_run
  (this : TextSplitterParams) (separator : jsstring)
  (splits chunks : list jsstring) (chunk : jsstring) :
  TextSplitter.mergeSplits this separator splits = Ok chunks ->
  In chunk chunks ->
  exists r,
    TextSplitter.joinDocs (run_at splits r) separator = Some chunk /\
    fits this (run_at splits r).
Proof.
  intros H Hin. destruct (mergeSplits_runs this separator splits chunks H)
    as (runs & -> & _ & Hfit).
  apply chunks_of_runs_in in Hin. destruct Hin as (r & Hr & Hjoin).
  exists r. split; [exact Hjoin|].
  rewrite Forall_forall in Hfit. destruct (Hfit r Hr) as [Hnil|Hok]; [|exact Hok].
  rewrite Hnil, joinDocs_nil in Hjoin. discriminate.
Qed.

(** X2. Every chunk [mergeSplits] returns is the trimmed join of a
    contiguous run of units within the size budget: the unit lengths of
    the run sum to at most [chunkSize], or all its units but the last are
    empty (the run is one unit let through as it is). *)
Theorem mergeSplits_chunk_runs_fit
  (this : TextSplitterParams) (separator : jsstring)
  (splits chunks : list jsstring) :
  TextSplitter.mergeSplits this separator splits = Ok chunks ->
  Forall (fun chunk =>
            exists run,
              contiguous_run run splits /\
              chunk = trim (join run separator) /\
              fits this run) chunks.
Proof.
  intros H. apply Forall_forall. intros chunk Hin.
  destruct (mergeSplits_chunk_run this separator splits chunks chunk H Hin)
    as (r & Hjoin & Hfit).
  exists (run_at splits r). split; [apply run_at_contiguous|].
  split; [apply (joinDocs_some separator _ _ Hjoin) | exact Hfit].
Qed.

Lemma mergeSplits_chunk_runs_fit_witness :
  Forall (fun chunk =>
            exists run,
              contiguous_run run [str "aaaa"; str "bbbbbbbbbbbb"; str "cc"] /\
              chunk = trim (join run (str " ")) /\
              fits {| chunkSize := 10; chunkOverlap := 0 |} run)
         [str "aaaa"; str "bbbbbbbbbbbb"; str "cc"].
Proof.
  apply (mergeSplits_chunk_runs_fit {| chunkSize := 10; chunkOverlap := 0 |}
           (str " ") [str "aaaa"; str "bbbbbbbbbbbb"; str "cc"]).
  vm_compute. reflexivity.
Defined.

Lemma sum_len_in (window : list jsstring) (u : jsstring) :
  In u window -> len u <= sum_len window.
Proof.
  induction window as [|v window IH]; simpl; [contradiction|].
  intros [-> | Hin].
  - pose proof (sum_len_nonneg window). lia.
  - pose proof (len_nonneg v). apply IH in Hin. lia.
Qed.

Lemma contiguous_run_in (run units : list jsstring) (u : jsstring) :
  contiguous_run run units -> In u run -> In u units.
Proof.
  intros (before & after & ->) Hin.
  apply in_or_app. right. apply in_or_app. left. exact Hin.
Qed.

(** X3. When no unit is longer than [chunkSize], every chunk
    [mergeSplits] returns is at most [chunkSize] long plus the separators
    between the units of its run; with the empty separator it is at most
    [chunkSize] long. *)
Theorem mergeSplits_chunk_length_bound
  (this : TextSplitterParams) (separator : jsstring)
  (splits chunks : list jsstring) :
  (forall u, In u splits -> len u <= chunkSize this) ->
  TextSplitter.mergeSplits this separator splits = Ok chunks ->
  Forall (fun chunk =>
            exists run,
              contiguous_run run splits /\
              chunk = trim (join run separator) /\
              len chunk <= chunkSize this
                           + len separator * Z.max 0 (array_length run - 1))
         chunks /\
  (separator = [] -> Forall (fun chunk => len chunk <= chunkSize this) chunks).
Proof.
  intros Hunits H.
  assert (Hmain : forall chunk, In chunk chunks ->
            exists run,
              contiguous_run run splits /\
              chunk = trim (join run separator) /\
              len chunk <= chunkSize this
                           + len separator * Z.max 0 (array_length run - 1)).
  { intros chunk Hin.
    destruct (mergeSplits_chunk_run this separator splits chunks chunk H Hin)
      as (r & Hjoin & Hfit).
    pose proof (run_at_contiguous splits r) as Hrun.
    apply (joinDocs_some separator) in Hjoin. destruct Hjoin as [_ Heq].
    exists (run_at splits r). split; [exact Hrun|]. split; [exact Heq|].
    rewrite Heq.
    pose proof (trim_length (join (run_at splits r) separator)) as Htrim.
    rewrite <- total_with_separators_join in Htrim.
    unfold total_with_separators in Htrim.
    assert (sum_len (run_at splits r) <= chunkSize this); [|lia].
    destruct Hfit as [Hsum | (pre & d & Hpre & Hzero)]; [exact Hsum|].
    rewrite Hpre, sum_len_app, Hzero. simpl.
    assert (len d <= chunkSize this); [|lia].
    apply Hunits. apply (contiguous_run_in _ _ _ Hrun).
    rewrite Hpre. apply in_or_app. right. left. reflexivity. }
  split.
  - apply Forall_forall. exact Hmain.
  - intros ->. apply Forall_forall. intros chunk Hin.
    destruct (Hmain chunk Hin) as (run & _ & _ & Hlen).
    change (len []) with 0 in Hlen. lia.
Qed.

Lemma mergeSplits_chunk_length_bound_witness :
  Forall (fun chunk => len chunk <= 4) [str "abcd"; str "efgh"; str "i"].
Proof.
  apply (mergeSplits_chunk_length_bound {| chunkSize := 4; chunkOverlap := 0 |}
           [] (split (str "abcdefghi") []) [str "abcd"; str "efgh"; str "i"]).
  - intros u Hin. apply in_map_iff in Hin. destruct Hin as (c & <- & _).
    vm_compute. discriminate.
  - vm_compute. reflexivity.
  - reflexivity.
Defined.

(** X4. No chunk [mergeSplits] returns starts or ends with white space:
    trimming a chunk again leaves it as it is. *)
Theorem mergeSplits_chunks_are_trimmed
  (this : TextSplitterParams) (separator : jsstring)
  (splits chunks : list jsstring) :
  TextSplitter.mergeSplits this separator splits = Ok chunks ->
  Forall (fun chunk => trim chunk = chunk) chunks.
Proof.
  intros H. apply Forall_forall. intros chunk Hin.
  destruct (mergeSplits_chunk_run this separator splits chunks chunk H Hin)
    as (r & Hjoin & _).
  apply (joinDocs_some separator) in Hjoin. destruct Hjoin as [_ ->].
  apply trim_idempotent.
Qed.

Lemma mergeSplits_chunks_are_trimmed_witness :
  Forall (fun chunk => trim chunk = chunk) [str "aaaa"; str "bbbb  cc"].
Proof.
  apply (mergeSplits_chunks_are_trimmed {| chunkSize := 8; chunkOverlap := 0 |}
           (str " ") [str " aaaa"; str ""; str "bbbb"; str ""; str "cc"; str " "]).
  vm_compute. reflexivity.
Defined.

(** ** The merge engine: what a flush keeps *)

(** X5. When the shifting loop returns, what it keeps is the longest tail
    of the window that needs no more shifting: the unit lengths of the tail
    sum to at most [chunkOverlap], and with the incoming unit to at most
    [chunkSize] unless they sum to zero, while every longer tail of the
    window fails one of the two. *)
Theorem shifting_loop_keeps_longest_tail
  (this : TextSplitterParams) (_len : Z) (window kept : list jsstring)
  (total' : Z) :
  TextSplitter.pop_loop this _len (sum_len window) window = Ok (total', kept) ->
  exists evicted,
    window = evicted ++ kept /\
    total' = sum_len kept /\
    sum_len kept <= chunkOverlap this /\
    (sum_len kept + _len <= chunkSize this \/ sum_len kept = 0) /\
    (forall e1 e2,
       evicted = e1 ++ e2 -> e2 <> [] ->
       chunkOverlap this < sum_len (e2 ++ kept) \/
       (chunkSize this < sum_len (e2 ++ kept) + _len /\
        0 < sum_len (e2 ++ kept))).
Proof.
  intros Hpop.
  pose proof (pop_loop_exit this _ _ _ _ _ Hpop) as Hexit.
  apply keep_popping_false in Hexit.
  assert (Htail : exists evicted,
            window = evicted ++ kept /\ total' = sum_len kept /\
            forall e1 e2, evicted = e1 ++ e2 -> e2 <> [] ->
              TextSplitter.keep_popping this _len (sum_len (e2 ++ kept)) = true).
  { clear Hexit. revert Hpop.
    induction window as [|front rest IH]; simpl.
    - destruct (TextSplitter.keep_popping this _len 0); [discriminate|].
      intros H. injection H as <- <-. exists []. repeat split.
      intros e1 e2 He Hne. destruct e1; destruct e2; try discriminate.
      contradiction.
    - destruct (TextSplitter.keep_popping this _len (len front + sum_len rest))
        eqn:Hkeep.
      + replace (len front + sum_len rest - len front) with (sum_len rest) by lia.
        intros H. destruct (IH H) as (ev & Hw & Ht & Hmax).
        exists (front :: ev). rewrite Hw. repeat split; [exact Ht|].
        intros e1 e2 He Hne. destruct e1 as [|x e1]; simpl in He.
        * subst e2. simpl. rewrite <- Hw. exact Hkeep.
        * injection He as _ He. apply (Hmax e1 e2 He Hne).
      + intros H. injection H as <- <-. exists []. repeat split.
        intros e1 e2 He Hne. destruct e1; destruct e2; try discriminate.
        contradiction. }
  destruct Htail as (evicted & Hw & Ht & Hmax).
  exists evicted. rewrite <- Ht.
  pose proof (sum_len_nonneg kept).
  repeat split; try tauto; try lia.
  intros e1 e2 He Hne. specialize (Hmax e1 e2 He Hne).
  unfold TextSplitter.keep_popping in Hmax.
  apply orb_true_iff in Hmax. destruct Hmax as [Hmax|Hmax].
  - left. apply Z.gtb_lt in Hmax. exact Hmax.
  - right. apply andb_true_iff in Hmax. destruct Hmax as [H1 H2].
    apply Z.gtb_lt in H1, H2. split; lia.
Qed.

Lemma shifting_loop_keeps_longest_tail_witness :
  exists evicted,
    [str "aa"; str "bbb"; str "cc"; str "d"] = evicted ++ [str "cc"; str "d"] /\
    3 = sum_len [str "cc"; str "d"] /\
    sum_len [str "cc"; str "d"] <= 4 /\
    (sum_len [str "cc"; str "d"] + 5 <= 10 \/ sum_len [str "cc"; str "d"] = 0) /\
    (forall e1 e2,
       evicted = e1 ++ e2 -> e2 <> [] ->
       4 < sum_len (e2 ++ [str "cc"; str "d"]) \/
       (10 < sum_len (e2 ++ [str "cc"; str "d"]) + 5 /\
        0 < sum_len (e2 ++ [str "cc"; str "d"]))).
Proof.
  apply (shifting_loop_keeps_longest_tail {| chunkSize := 10; chunkOverlap := 4 |}
           5 [str "aa"; str "bbb"; str "cc"; str "d"] [str "cc"; str "d"] 3).
  vm_compute. reflexivity.
Defined.

(** ** The merge engine: units that fit in one chunk *)

Lemma merge_loop_no_flush (this : TextSplitterParams) (separator : jsstring)
  (rest : list jsstring) :
  forall done,
    total_with_separators separator (done ++ rest) <= chunkSize this ->
    TextSplitter.merge_loop this separator
      {| TextSplitter.docs := []; TextSplitter.currentDoc := done;
         TextSplitter.total := sum_len done; TextSplitter.warnings := [] |} rest
    = Ok {| TextSplitter.docs := []; TextSplitter.currentDoc := done ++ rest;
            TextSplitter.total := sum_len (done ++ rest);
            TextSplitter.warnings := [] |}.
Proof.
  induction rest as [|d rest IH]; intros done Hfit.
  - rewrite app_nil_r. reflexivity.
  - simpl. unfold TextSplitter.merge_step. simpl.
    assert (Hsmall :
      (sum_len done + len d
       + (if 0 <? array_length done then len separator else 0)
       >? chunkSize this) = false).
    { rewrite Z.gtb_ltb. apply Z.ltb_ge.
      unfold total_with_separators, array_length in Hfit.
      rewrite sum_len_app, length_app in Hfit.
      cbn [sum_len List.length] in Hfit.
      pose proof (sum_len_nonneg rest). pose proof (len_nonneg separator).
      pose proof (len_nonneg d).
      unfold array_length.
      set (k := Z.max 0 (Z.of_nat (List.length done + S (List.length rest)) - 1))
        in Hfit.
      destruct (Z.ltb_spec 0 (Z.of_nat (List.length done))) as [Hne|He].
      - assert (1 <= k) by (unfold k; lia).
        assert (len separator <= len separator * k) by nia. lia.
      - assert (0 <= k) by (unfold k; lia).
        assert (0 <= len separator * k) by nia. lia. }
    rewrite Hsmall. simpl.
    replace (done ++ d :: rest) with ((done ++ [d]) ++ rest) in *
      by (rewrite <- app_assoc; reflexivity).
    rewrite <- IH by exact Hfit.
    rewrite sum_len_app. simpl. rewrite Z.add_0_r. reflexivity.
Qed.

Lemma mergeSplits_no_flush
  (this : TextSplitterParams) (separator : jsstring) (splits : list jsstring) :
  total_with_separators separator splits <= chunkSize this ->
  TextSplitter.mergeSplits this separator splits
  = Ok (TextSplitter.push_doc [] (TextSplitter.joinDocs splits separator)).
Proof.
  intros Hfit. unfold TextSplitter.mergeSplits.
  change TextSplitter.initial_state
    with {| TextSplitter.docs := []; TextSplitter.currentDoc := [];
            TextSplitter.total := sum_len []; TextSplitter.warnings := [] |}.
  rewrite (merge_loop_no_flush this separator splits [] Hfit). reflexivity.
Qed.

(** X6. Units whose join is at most [chunkSize] long are merged into one
    chunk, the trimmed join of all of them (none if it is empty), whatever
    [chunkOverlap] is. *)
Theorem mergeSplits_single_chunk
  (this : TextSplitterParams) (separator : jsstring) (splits : list jsstring) :
  len (join splits separator) <= chunkSize this ->
  TextSplitter.mergeSplits this separator splits
  = Ok (if is_empty (trim (join splits separator)) then []
        else [trim (join splits separator)]).
Proof.
  intros Hfit. rewrite <- total_with_separators_join in Hfit.
  rewrite (mergeSplits_no_flush this separator splits Hfit).
  unfold TextSplitter.joinDocs.
  destruct (is_empty (trim (join splits separator))); reflexivity.
Qed.

Lemma mergeSplits_single_chunk_witness :
  TextSplitter.mergeSplits {| chunkSize := 11; chunkOverlap := -3 |} (str ", ")
    [str " ab"; str "cd"; str "e "]
  = Ok [str "ab, cd, e"].
Proof.
  apply (mergeSplits_single_chunk {| chunkSize := 11; chunkOverlap := -3 |}
           (str ", ") [str " ab"; str "cd"; str "e "]).
  vm_compute. intros H. discriminate H.
Defined.

(** ** Splitting and joining *)

Lemma join_cons (d : jsstring) (rest : list jsstring) (separator : jsstring) :
  rest <> [] -> join (d :: rest) separator = d ++ separator ++ join rest separator.
Proof.
  destruct rest; [contradiction | reflexivity].
Qed.

Lemma join_app (a b : list jsstring) (separator : jsstring) :
  a <> [] -> b <> [] ->
  join (a ++ b) separator = join a separator ++ separator ++ join b separator.
Proof.
  intros Ha Hb. induction a as [|d a IH]; [contradiction|].
  destruct a as [|d' a].
  - simpl. apply join_cons. exact Hb.
  - change ((d :: d' :: a) ++ b) with (d :: ((d' :: a) ++ b)).
    rewrite join_cons by discriminate.
    rewrite IH by discriminate.
    rewrite (join_cons d (d' :: a)) by discriminate.
    rewrite <- !app_assoc. reflexivity.
Qed.

Lemma substring_refl (s : jsstring) : substring s s.
Proof. exists [], []. rewrite app_nil_r. reflexivity. Qed.

Lemma substring_trans (a b c : jsstring) :
  substring a b -> substring b c -> substring a c.
Proof.
  intros (x & y & ->) (x' & y' & ->).
  exists (x' ++ x), (y ++ y'). rewrite <- !app_assoc. reflexivity.
Qed.

(** The join of a run of units occurs in the join of the units. *)
Lemma join_run_substring (run units : list jsstring) (separator : jsstring) :
  contiguous_run run units ->
  substring (join run separator) (join units separator).
Proof.
  intros (before & after & ->).
  destruct run as [|u run].
  - exists [], (join (before ++ after) separator). reflexivity.
  - destruct before as [|x before]; destruct after as [|y after].
    + rewrite app_nil_r. apply substring_refl.
    + change ([] ++ (u :: run) ++ y :: after) with ((u :: run) ++ y :: after).
      rewrite join_app by discriminate.
      exists [], (separator ++ join (y :: after) separator). reflexivity.
    + rewrite app_nil_r, join_app by discriminate.
      exists (join (x :: before) separator ++ separator), [].
      rewrite app_nil_r, <- app_assoc. reflexivity.
    + rewrite join_app by discriminate.
      rewrite (join_app (u :: run)) by discriminate.
      exists (join (x :: before) separator ++ separator),
             (separator ++ join (y :: after) separator).
      rewrite <- !app_assoc. reflexivity.
Qed.

Lemma split_scan_nonempty (separator : jsstring) (s : jsstring) :
  forall skip, split_scan separator skip s <> [].
Proof.
  induction s as [|c s IH]; intros skip; cbn [split_scan]; [discriminate|].
  destruct skip; [|apply IH].
  destruct (starts_with separator (c :: s)); [discriminate|].
  destruct (split_scan separator 0 s); discriminate.
Qed.

(** Joining the pieces of a scan gives back what was scanned. *)
Lemma join_split_scan (separator : jsstring) (s : jsstring) :
  separator <> [] ->
  forall skip, join (split_scan separator skip s) separator = skipn skip s.
Proof.
  intros Hne. induction s as [|c s IH]; intros skip; cbn [split_scan].
  - destruct skip; reflexivity.
  - destruct skip as [|k]; [|apply IH].
    destruct (starts_with separator (c :: s)) eqn:Hocc.
    + rewrite join_cons by apply split_scan_nonempty.
      rewrite IH. apply starts_with_iff in Hocc. destruct Hocc as (rest & Hrest).
      destruct separator as [|x sep]; [contradiction|].
      injection Hrest as -> ->. simpl.
      rewrite Nat.sub_0_r, skipn_app, Nat.sub_diag, skipn_all. reflexivity.
    + specialize (IH 0%nat). change (skipn 0 s) with s in IH.
      pose proof (split_scan_nonempty separator s 0) as Hp.
      destruct (split_scan separator 0 s) as [|p ps]; [contradiction|].
      destruct ps as [|q ps].
      * cbn [join] in *. rewrite IH. reflexivity.
      * rewrite join_cons in * by discriminate.
        cbn [app skipn]. f_equal. exact IH.
Qed.

Lemma join_split (text separator : jsstring) :
  join (split text separator) separator = text.
Proof.
  destruct separator as [|x sep].
  - simpl. induction text as [|c [|c' text] IH]; try reflexivity.
    change (join (map (fun c => [c]) (c :: c' :: text)) [])
      with ([c] ++ [] ++ join (map (fun c => [c]) (c' :: text)) []).
    rewrite IH. reflexivity.
  - unfold split. apply (join_split_scan (x :: sep) text); discriminate.
Qed.

(** ** The fixed-separator splitter: small texts and substrings *)

Lemma splitText_splits (this : CharacterTextSplitter.t) (text : jsstring) :
  CharacterTextSplitter.splitText this text
  = TextSplitter.mergeSplits (CharacterTextSplitter.params this)
      (CharacterTextSplitter.separator this)
      (split text (CharacterTextSplitter.separator this)).
Proof.
  unfold CharacterTextSplitter.splitText.
  destruct (CharacterTextSplitter.separator this); reflexivity.
Qed.

(** X7. A text at most [chunkSize] long comes back from the
    fixed-separator splitter as one chunk, the trimmed text, or as no chunk
    when the text is empty or white space only. *)
Theorem character_splitter_small_text
  (this : CharacterTextSplitter.t) (text : jsstring) :
  len text <= chunkSize (CharacterTextSplitter.params this) ->
  CharacterTextSplitter.splitText this text
  = Ok (if is_empty (trim text) then [] else [trim text]).
Proof.
  intros Hfit. rewrite splitText_splits.
  rewrite mergeSplits_no_flush
    by (rewrite total_with_separators_join, join_split; exact Hfit).
  unfold TextSplitter.joinDocs. rewrite join_split.
  destruct (is_empty (trim text)); reflexivity.
Qed.

Lemma character_splitter_small_text_witness :
  CharacterTextSplitter.splitText
    {| CharacterTextSplitter.params := {| chunkSize := 13; chunkOverlap := 3 |};
       CharacterTextSplitter.separator := str " " |}
    (str " aaa  bbb cc ")
  = Ok [str "aaa  bbb cc"].
Proof.
  apply (character_splitter_small_text
           {| CharacterTextSplitter.params := {| chunkSize := 13; chunkOverlap := 3 |};
              CharacterTextSplitter.separator := str " " |}
           (str " aaa  bbb cc ")).
  vm_compute. intros H. discriminate H.
Defined.

(** X8. Every chunk the fixed-separator splitter returns is a non-empty
    contiguous substring of the text, without white space at its ends. *)
Theorem character_splitter_chunks_are_substrings
  (this : CharacterTextSplitter.t) (text : jsstring) (chunks : list jsstring) :
  CharacterTextSplitter.splitText this text = Ok chunks ->
  Forall (fun chunk => substring chunk text /\ chunk <> [] /\ trim chunk = chunk)
         chunks.
Proof.
  rewrite splitText_splits. intros H.
  apply Forall_forall. intros chunk Hin.
  destruct (mergeSplits_chunk_run _ _ _ _ chunk H Hin) as (r & Hjoin & _).
  apply joinDocs_some in Hjoin. destruct Hjoin as [Hne ->].
  repeat split; [|exact Hne | apply trim_idempotent].
  eapply substring_trans; [apply trim_part|].
  rewrite <- (join_split text (CharacterTextSplitter.separator this)) at 2.
  apply join_run_substring. apply run_at_contiguous.
Qed.

Lemma character_splitter_chunks_are_substrings_witness :
  Forall (fun chunk => substring chunk (str "aaaa bbbb  cccc dddd ")
                       /\ chunk <> [] /\ trim chunk = chunk)
         [str "aaaa bbbb"; str "cccc dddd"].
Proof.
  apply (character_splitter_chunks_are_substrings
           {| CharacterTextSplitter.params := {| chunkSize := 10; chunkOverlap := 0 |};
              CharacterTextSplitter.separator := str " " |}
           (str "aaaa bbbb  cccc dddd ")).
  vm_compute. reflexivity.
Defined.

Lemma fits_run_length (this : TextSplitterParams) (separator : jsstring)
  (run : list jsstring) :
  fits this run ->
  (forall u, In u run -> len u <= chunkSize this) ->
  len (trim (join run separator))
  <= chunkSize this + len separator * Z.max 0 (array_length run - 1).
Proof.
  intros Hfit Hunits.
  pose proof (trim_length (join run separator)) as Htrim.
  rewrite <- total_with_separators_join in Htrim.
  unfold total_with_separators in Htrim.
  assert (sum_len run <= chunkSize this); [|lia].
  destruct Hfit as [Hsum | (pre & d & Hpre & Hzero)]; [exact Hsum|].
  rewrite Hpre, sum_len_app, Hzero. simpl.
  assert (len d <= chunkSize this); [|lia].
  apply Hunits. rewrite Hpre. apply in_or_app. right. left. reflexivity.
Qed.

(** X9. With the empty separator and [chunkSize >= 1], no chunk of the
    fixed-separator splitter is longer than [chunkSize]. *)
Theorem character_splitter_empty_separator_bound
  (this : CharacterTextSplitter.t) (text : jsstring) (chunks : list jsstring) :
  CharacterTextSplitter.separator this = [] ->
  1 <= chunkSize (CharacterTextSplitter.params this) ->
  CharacterTextSplitter.splitText this text = Ok chunks ->
  Forall (fun chunk => len chunk <= chunkSize (CharacterTextSplitter.params this))
         chunks.
Proof.
  intros Hsep Hsize. rewrite splitText_splits, Hsep. intros H.
  apply Forall_forall. intros chunk Hin.
  destruct (mergeSplits_chunk_run _ _ _ _ chunk H Hin) as (r & Hjoin & Hfit).
  apply joinDocs_some in Hjoin. destruct Hjoin as [_ ->].
  pose proof (fits_run_length _ [] _ Hfit) as Hlen.
  change (len []) with 0 in Hlen. rewrite Z.mul_0_l, Z.add_0_r in Hlen.
  apply Hlen. intros u Hu.
  apply (contiguous_run_in _ _ _ (run_at_contiguous _ r)) in Hu.
  apply in_map_iff in Hu. destruct Hu as (c & <- & _).
  change (len [c]) with 1. exact Hsize.
Qed.

Lemma character_splitter_empty_separator_bound_witness :
  Forall (fun chunk => len chunk <= 3) [str "abc"; str "cde"; str "efg"].
Proof.
  apply (character_splitter_empty_separator_bound
           {| CharacterTextSplitter.params := {| chunkSize := 3; chunkOverlap := 1 |};
              CharacterTextSplitter.separator := [] |}
           (str "abcdefg")).
  - reflexivity.
  - simpl. lia.
  - vm_compute. reflexivity.
Defined.

(** ** The recursive splitter: results *)

Section RecursiveResults.

Import RecursiveCharacterTextSplitter.

Variable this : t.

Lemma flush_good_returns (separator : jsstring)
  (finalChunks goodSplits : list jsstring) :
  0 <= chunkOverlap (params this) ->
  exists chunks,
    flush_good this (Some separator) finalChunks goodSplits = Ok chunks.
Proof.
  intros Hov. unfold flush_good.
  destruct (0 <? array_length goodSplits); [|eauto].
  cbn [TextSplitter.mergeSplits_any]. unfold TextSplitter.mergeSplits.
  destruct (merge_loop_returns (params this) separator goodSplits Hov
              TextSplitter.initial_state eq_refl) as (st & -> & _).
  simpl. eauto.
Qed.

Lemma split_loop_never_rejects (self : jsstring -> outcome (list jsstring))
  (separator : jsstring) (splits : list jsstring) :
  0 <= chunkOverlap (params this) ->
  (forall s e, self s <> Rejects e) ->
  forall finalChunks goodSplits e,
    split_loop this self (Some separator) finalChunks goodSplits splits
    <> Rejects e.
Proof.
  intros Hov Hself.
  induction splits as [|s rest IH]; intros finalChunks goodSplits e.
  - discriminate.
  - cbn [split_loop]. destruct (len s <? chunkSize (params this)); [apply IH|].
    destruct (flush_good_returns separator finalChunks goodSplits Hov)
      as (fc & ->).
    destruct (self s) eqn:Hs; try discriminate; [apply IH|].
    exfalso. eapply Hself; eassumption.
Qed.

Lemma select_separator_some (text : jsstring) :
  separators this <> [] ->
  exists separator, select_separator (separators this) text = Some separator.
Proof.
  intros Hne. unfold select_separator.
  rewrite (last_entry _ Hne).
  generalize (last (separators this) []). intros dflt. clear Hne.
  induction (separators this) as [|s seps IH]; simpl; [eauto|].
  destruct (is_empty s); [eauto|].
  destruct (includes text s); [eauto | exact IH].
Qed.

Lemma split_on_string (text separator : jsstring) :
  split_on text (Some separator) = split text separator.
Proof.
  destruct separator; reflexivity.
Qed.

(** With a string for separator and [chunkOverlap >= 0] no call rejects. *)
Lemma splitText_never_rejects (fuel : nat) :
  separators this <> [] ->
  0 <= chunkOverlap (params this) ->
  forall text e, splitText this fuel text <> Rejects e.
Proof.
  intros Hne Hov. induction fuel as [|fuel IH]; intros text e; [discriminate|].
  rewrite splitText_unfold.
  destruct (select_separator_some text Hne) as (separator & ->).
  cbv zeta.
  destruct (split_loop this (splitText this fuel) (Some separator) [] []
              (split_on text (Some separator)))
    as [[finalChunks goodSplits]|e'|] eqn:Hloop; try discriminate.
  - destruct (flush_good_returns separator finalChunks goodSplits Hov)
      as (fc & ->). discriminate.
  - exfalso. eapply split_loop_never_rejects; eassumption.
Qed.

Lemma split_loop_all_good (self : jsstring -> outcome (list jsstring))
  (separator : option jsstring) (splits : list jsstring) :
  (forall s, In s splits -> len s < chunkSize (params this)) ->
  forall finalChunks goodSplits,
    split_loop this self separator finalChunks goodSplits splits
    = Returns (finalChunks, goodSplits ++ splits).
Proof.
  induction splits as [|s rest IH]; intros Hgood finalChunks goodSplits.
  - rewrite app_nil_r. reflexivity.
  - cbn [split_loop].
    replace (len s <? chunkSize (params this)) with true
      by (symmetry; apply Z.ltb_lt; apply Hgood; left; reflexivity).
    rewrite IH by (intros s' Hin; apply Hgood; right; exact Hin).
    rewrite <- app_assoc. reflexivity.
Qed.

Lemma split_piece_length (text separator piece : jsstring) :
  In piece (split text separator) -> len piece <= len text.
Proof.
  unfold split, len. destruct separator as [|x sep].
  - intros Hin. apply in_map_iff in Hin. destruct Hin as (c & <- & Hc).
    destruct text; [contradiction | simpl; lia].
  - intros Hin. apply split_scan_pieces in Hin. destruct Hin as (a & b & ->).
    rewrite !length_app. lia.
Qed.

End RecursiveResults.

(** X10. With [chunkSize >= 2], [chunkOverlap >= 0] and a separator list
    that ends with the empty string, the recursive splitter returns its
    chunks for every text, within a nesting of calls as deep as the list is
    long. *)
Theorem recursive_splitter_returns
  (this : RecursiveCharacterTextSplitter.t) (text : jsstring) (fuel : nat) :
  2 <= chunkSize (RecursiveCharacterTextSplitter.params this) ->
  0 <= chunkOverlap (RecursiveCharacterTextSplitter.params this) ->
  RecursiveCharacterTextSplitter.separators this <> [] ->
  last (RecursiveCharacterTextSplitter.separators this) [] = [] ->
  (List.length (RecursiveCharacterTextSplitter.separators this) <= fuel)%nat ->
  exists chunks,
    RecursiveCharacterTextSplitter.splitText this fuel text = Returns chunks.
Proof.
  intros Hsize Hov Hne Hlast Hfuel.
  pose proof (splitText_terminates_from_chunkSize_2 this text fuel
                Hsize Hne Hlast Hfuel) as Hsettled.
  pose proof (splitText_never_rejects this fuel Hne Hov text) as Hrej.
  destruct (RecursiveCharacterTextSplitter.splitText this fuel text) as [r|e|];
    try contradiction; [eauto|].
  exfalso. apply (Hrej e). reflexivity.
Qed.

Lemma recursive_splitter_returns_witness :
  exists chunks,
    RecursiveCharacterTextSplitter.splitText
      {| RecursiveCharacterTextSplitter.params :=
           {| chunkSize := 5; chunkOverlap := 2 |};
         RecursiveCharacterTextSplitter.separators :=
           RecursiveCharacterTextSplitter.default_separators |}
      4 (str "ab cdefghij klm")
    = Returns chunks.
Proof.
  apply (recursive_splitter_returns
           {| RecursiveCharacterTextSplitter.params :=
                {| chunkSize := 5; chunkOverlap := 2 |};
              RecursiveCharacterTextSplitter.separators :=
                RecursiveCharacterTextSplitter.default_separators |}
           (str "ab cdefghij klm") 4).
  - simpl. lia.
  - simpl. lia.
  - discriminate.
  - reflexivity.
  - simpl. lia.
Defined.

(** X11. A text shorter than [chunkSize] comes back from the recursive
    splitter, for any non-empty separator list, as one chunk, the trimmed
    text, or as no chunk when the text is empty or white space only; no
    nested call is made. *)
Theorem recursive_splitter_small_text
  (this : RecursiveCharacterTextSplitter.t) (text : jsstring) (fuel : nat) :
  RecursiveCharacterTextSplitter.separators this <> [] ->
  len text < chunkSize (RecursiveCharacterTextSplitter.params this) ->
  RecursiveCharacterTextSplitter.splitText this (S fuel) text
  = Returns (if is_empty (trim text) then [] else [trim text]).
Proof.
  intros Hne Hsmall. rewrite splitText_unfold.
  destruct (select_separator_some this text Hne) as (separator & ->).
  cbv zeta. rewrite split_on_string.
  rewrite split_loop_all_good.
  - cbn [app]. unfold RecursiveCharacterTextSplitter.flush_good.
    cbn [TextSplitter.mergeSplits_any].
    destruct (Z.ltb_spec 0 (array_length (split text separator))) as [Hsome|Hnone].
    + rewrite mergeSplits_no_flush
        by (rewrite total_with_separators_join, join_split; lia).
      unfold TextSplitter.joinDocs. rewrite join_split.
      destruct (is_empty (trim text)); reflexivity.
    + assert (Hnil : split text separator = []).
      { unfold array_length in Hnone.
        destruct (split text separator); [reflexivity | simpl in Hnone; lia]. }
      rewrite <- (join_split text separator), Hnil. reflexivity.
  - intros s Hin. apply split_piece_length in Hin. lia.
Qed.

Lemma recursive_splitter_small_text_witness :
  RecursiveCharacterTextSplitter.splitText
    {| RecursiveCharacterTextSplitter.params :=
         {| chunkSize := 12; chunkOverlap := 0 |};
       RecursiveCharacterTextSplitter.separators := [str "--"; str " "] |}
    1 (str " ab cd--ef ")
  = Returns [str "ab cd--ef"].
Proof.
  apply (recursive_splitter_small_text
           {| RecursiveCharacterTextSplitter.params :=
                {| chunkSize := 12; chunkOverlap := 0 |};
              RecursiveCharacterTextSplitter.separators := [str "--"; str " "] |}
           (str " ab cd--ef ") 0).
  - discriminate.
  - vm_compute. reflexivity.
Defined.

Lemma contiguous_run_trans (a b c : list jsstring) :
  contiguous_run a b -> contiguous_run b c -> contiguous_run a c.
Proof.
  intros (x & y & ->) (x' & y' & ->).
  exists (x' ++ x), (y ++ y'). rewrite <- !app_assoc. reflexivity.
Qed.

Lemma split_piece_substring (text separator piece : jsstring) :
  In piece (split text separator) -> substring piece text.
Proof.
  unfold split. destruct separator as [|x sep].
  - intros Hin. apply in_map_iff in Hin. destruct Hin as (c & <- & Hc).
    apply in_split in Hc. destruct Hc as (l1 & l2 & ->).
    exists l1, l2. reflexivity.
  - intros Hin. apply split_scan_pieces in Hin. exact Hin.
Qed.

(** The chunks merged from a run of the pieces of a text are taken
    verbatim from the text. *)
Lemma mergeSplits_verbatim (p : TextSplitterParams)
  (text separator : jsstring) (run merged : list jsstring) :
  contiguous_run run (split text separator) ->
  TextSplitter.mergeSplits p separator run = Ok merged ->
  Forall (verbatim_chunk text) merged.
Proof.
  intros Hrun H. apply Forall_forall. intros chunk Hin.
  destruct (mergeSplits_chunk_run _ _ _ _ chunk H Hin) as (r & Hjoin & _).
  apply joinDocs_some in Hjoin. destruct Hjoin as [Hne ->].
  repeat split; [|exact Hne | apply trim_idempotent].
  eapply substring_trans; [apply trim_part|].
  rewrite <- (join_split text separator) at 1.
  apply join_run_substring.
  eapply contiguous_run_trans; [apply run_at_contiguous | exact Hrun].
Qed.

Lemma split_on_piece_substring (text piece : jsstring)
  (separator : option jsstring) :
  In piece (RecursiveCharacterTextSplitter.split_on text separator) ->
  substring piece text.
Proof.
  destruct separator as [s|].
  - rewrite split_on_string. apply split_piece_substring.
  - apply (split_piece_substring text []).
Qed.

(** Also with [undefined] for separator the chunks merged from a run of
    the pieces are taken verbatim from the text. *)
Lemma mergeSplits_any_verbatim (p : TextSplitterParams) (text : jsstring)
  (separator : option jsstring) (run merged : list jsstring) :
  contiguous_run run (RecursiveCharacterTextSplitter.split_on text separator) ->
  TextSplitter.mergeSplits_any p separator run = Ok merged ->
  Forall (verbatim_chunk text) merged.
Proof.
  destruct separator as [s|]; cbn [TextSplitter.mergeSplits_any].
  - rewrite split_on_string. apply mergeSplits_verbatim.
  - intros Hrun. rewrite mergeSplits_undefined_cases.
    destruct run as [|d [|d2 rest]]; [| |discriminate];
      intros H; injection H as <-; [constructor|].
    destruct (TextSplitter.joinDocs [d] TextSplitter.comma) as [doc|] eqn:Hjoin;
      simpl; [|constructor].
    apply joinDocs_some in Hjoin. destruct Hjoin as [Hne ->].
    constructor; [|constructor]. cbn [join].
    repeat split; [|exact Hne | apply trim_idempotent].
    eapply substring_trans; [apply trim_part|].
    apply (split_on_piece_substring text d None).
    apply (contiguous_run_in _ _ _ Hrun). left. reflexivity.
Qed.

Section RecursiveChunks.

Import RecursiveCharacterTextSplitter.

Variable this : t.

Lemma flush_good_verbatim (text : jsstring) (separator : option jsstring)
  (finalChunks goodSplits chunks : list jsstring) :
  contiguous_run goodSplits (split_on text separator) ->
  Forall (verbatim_chunk text) finalChunks ->
  flush_good this separator finalChunks goodSplits = Ok chunks ->
  Forall (verbatim_chunk text) chunks.
Proof.
  intros Hrun Hfc. unfold flush_good.
  destruct (0 <? array_length goodSplits).
  - destruct (TextSplitter.mergeSplits_any (params this) separator goodSplits)
      as [merged|e] eqn:Hm; simpl; [|discriminate].
    intros H. injection H as <-. apply Forall_app. split; [exact Hfc|].
    eapply mergeSplits_any_verbatim; eassumption.
  - intros H. injection H as <-. exact Hfc.
Qed.

Lemma split_loop_verbatim (self : jsstring -> outcome (list jsstring))
  (text : jsstring) (separator : option jsstring) (rest : list jsstring) :
  (forall s r, In s rest -> self s = Returns r -> Forall (verbatim_chunk s) r) ->
  forall before goodSplits finalChunks out goodSplits',
    split_on text separator = before ++ goodSplits ++ rest ->
    Forall (verbatim_chunk text) finalChunks ->
    split_loop this self separator finalChunks goodSplits rest
    = Returns (out, goodSplits') ->
    Forall (verbatim_chunk text) out /\
    contiguous_run goodSplits' (split_on text separator).
Proof.
  induction rest as [|s rest IH];
    intros Hself before goodSplits finalChunks out goodSplits' Hall Hfc.
  - cbn [split_loop]. intros H. injection H as <- <-.
    split; [exact Hfc|]. exists before, []. exact Hall.
  - cbn [split_loop]. destruct (len s <? chunkSize (params this)).
    + apply (IH (fun s' r Hin => Hself s' r (or_intror Hin)) before); [|exact Hfc].
      rewrite Hall, <- !app_assoc. reflexivity.
    + destruct (flush_good this separator finalChunks goodSplits)
        as [fc1|e] eqn:Hflush; [|discriminate].
      destruct (self s) as [other| |] eqn:Hs; try discriminate.
      apply (IH (fun s' r Hin => Hself s' r (or_intror Hin))
               (before ++ goodSplits ++ [s]) []).
      * rewrite Hall, <- !app_assoc. reflexivity.
      * apply Forall_app. split.
        -- eapply flush_good_verbatim; [|exact Hfc | exact Hflush].
           exists before, (s :: rest). exact Hall.
        -- assert (Hpiece : substring s text).
           { apply (split_on_piece_substring text s separator).
             rewrite Hall. apply in_or_app. right. apply in_or_app. right.
             left. reflexivity. }
           eapply Forall_impl; [|apply (Hself s other (or_introl eq_refl) Hs)].
           intros chunk (Hsub & Hne & Htrim).
           repeat split; [|exact Hne | exact Htrim].
           eapply substring_trans; eassumption.
Qed.

Lemma splitText_verbatim (fuel : nat) :
  forall text chunks,
    splitText this fuel text = Returns chunks ->
    Forall (verbatim_chunk text) chunks.
Proof.
  induction fuel as [|fuel IH]; intros text chunks; [discriminate|].
  rewrite splitText_unfold. cbv zeta.
  set (separator := select_separator (separators this) text).
  destruct (split_loop this (splitText this fuel) separator [] []
              (split_on text separator))
    as [[finalChunks goodSplits]| |] eqn:Hloop; try discriminate.
  destruct (flush_good this separator finalChunks goodSplits)
    as [out|e] eqn:Hflush; [|discriminate].
  intros H. injection H as <-.
  destruct (split_loop_verbatim (splitText this fuel) text separator
              (split_on text separator) (fun s r _ => IH s r)
              [] [] [] finalChunks goodSplits eq_refl (Forall_nil _) Hloop)
    as [Hfc Hrun].
  eapply flush_good_verbatim; eassumption.
Qed.

End RecursiveChunks.

(** X12. Every chunk the recursive splitter returns is taken verbatim from
    the text: it is a non-empty contiguous substring of the text without
    white space at its ends.  This holds for every separator array, the
    empty one included, where the separator is [undefined] and the text is
    split into its code units. *)
Theorem recursive_splitter_chunks_are_substrings
  (this : RecursiveCharacterTextSplitter.t) (fuel : nat)
  (text : jsstring) (chunks : list jsstring) :
  RecursiveCharacterTextSplitter.splitText this fuel text = Returns chunks ->
  Forall (fun chunk => substring chunk text /\ chunk <> [] /\ trim chunk = chunk)
         chunks.
Proof.
  intros H. exact (splitText_verbatim this fuel text chunks H).
Qed.

Lemma recursive_splitter_chunks_are_substrings_witness :
  Forall (fun chunk => substring chunk ([97; 98; 10] ++ str "cdefghij")%N
                       /\ chunk <> [] /\ trim chunk = chunk)
         [str "ab"; str "cdefg"; str "hij"].
Proof.
  apply (recursive_splitter_chunks_are_substrings
           {| RecursiveCharacterTextSplitter.params :=
                {| chunkSize := 5; chunkOverlap := 0 |};
              RecursiveCharacterTextSplitter.separators :=
                RecursiveCharacterTextSplitter.default_separators |}
           2 ([97; 98; 10] ++ str "cdefghij")%N).
  vm_compute. reflexivity.
Defined.

(** ** The Markdown splitter *)

Lemma constructor_keeps_invariant (fields : option PartialTextSplitterParams)
  (p : TextSplitterParams) :
  TextSplitter.constructor fields = Ok p -> chunkOverlap p < chunkSize p.
Proof.
  unfold TextSplitter.constructor. simpl.
  destruct (Z.geb_spec (TextSplitter.resolve_chunkOverlap fields)
              (TextSplitter.resolve_chunkSize fields)) as [Hge|Hlt];
    [discriminate|].
  intros H. injection H as <-. simpl. exact Hlt.
Qed.

(** X13. A Markdown splitter that is built has passed the base check, its
    parameters being the ones the base constructor returns; it always
    carries the thirteen Markdown separators, and with [chunkSize >= 2] and
    [chunkOverlap >= 0] it returns its chunks for every text within a
    nesting of thirteen calls. *)
Theorem markdown_splitter_returns
  (fields : option PartialTextSplitterParams)
  (this : RecursiveCharacterTextSplitter.t) (text : jsstring) :
  MarkdownTextSplitter.constructor fields = Ok this ->
  RecursiveCharacterTextSplitter.separators this = MarkdownTextSplitter.separators /\
  TextSplitter.constructor fields = Ok (RecursiveCharacterTextSplitter.params this) /\
  (2 <= chunkSize (RecursiveCharacterTextSplitter.params this) ->
   0 <= chunkOverlap (RecursiveCharacterTextSplitter.params this) ->
   exists chunks,
     RecursiveCharacterTextSplitter.splitText this 13 text = Returns chunks).
Proof.
  unfold MarkdownTextSplitter.constructor,
    RecursiveCharacterTextSplitter.constructor.
  assert (Hbase : option_map RecursiveCharacterTextSplitter.fields_base
            (option_map
               (fun f => {| RecursiveCharacterTextSplitter.fields_base := f;
                            RecursiveCharacterTextSplitter.fields_separators := None |})
               fields) = fields) by (destruct fields; reflexivity).
  rewrite Hbase.
  destruct (TextSplitter.constructor fields) as [p|e0];
    cbn [bind]; [|discriminate].
  intros H. injection H as <-.
  cbn [RecursiveCharacterTextSplitter.params
       RecursiveCharacterTextSplitter.separators].
  split; [reflexivity|]. split; [reflexivity|].
  intros Hsize Hov.
  assert (Hsettled : settled
            (RecursiveCharacterTextSplitter.splitText
               {| RecursiveCharacterTextSplitter.params := p;
                  RecursiveCharacterTextSplitter.separators :=
                    MarkdownTextSplitter.separators |} 13 text)).
  { apply splitText_terminates_from_chunkSize_2;
      [exact Hsize | discriminate | reflexivity | simpl; lia]. }
  pose proof (splitText_never_rejects
                {| RecursiveCharacterTextSplitter.params := p;
                   RecursiveCharacterTextSplitter.separators :=
                     MarkdownTextSplitter.separators |} 13
                ltac:(discriminate) Hov text) as Hrej.
  destruct (RecursiveCharacterTextSplitter.splitText _ 13 text) as [r|e|];
    try contradiction; [eauto|].
  exfalso. apply (Hrej e). reflexivity.
Qed.

Lemma markdown_splitter_returns_witness :
  RecursiveCharacterTextSplitter.separators
    {| RecursiveCharacterTextSplitter.params :=
         {| chunkSize := 8; chunkOverlap := 0 |};
       RecursiveCharacterTextSplitter.separators := MarkdownTextSplitter.separators |}
  = MarkdownTextSplitter.separators /\
  TextSplitter.constructor
    (Some {| fields_chunkSize := Some 8; fields_chunkOverlap := Some 0 |})
  = Ok {| chunkSize := 8; chunkOverlap := 0 |} /\
  (2 <= 8 -> 0 <= 0 ->
   exists chunks,
     RecursiveCharacterTextSplitter.splitText
       {| RecursiveCharacterTextSplitter.params :=
            {| chunkSize := 8; chunkOverlap := 0 |};
          RecursiveCharacterTextSplitter.separators := MarkdownTextSplitter.separators |}
       13 (str "# Title" ++ 10%N :: str "## Part one of the text")
     = Returns chunks).
Proof.
  apply (markdown_splitter_returns
           (Some {| fields_chunkSize := Some 8; fields_chunkOverlap := Some 0 |})
           {| RecursiveCharacterTextSplitter.params :=
                {| chunkSize := 8; chunkOverlap := 0 |};
              RecursiveCharacterTextSplitter.separators :=
                MarkdownTextSplitter.separators |}).
  reflexivity.
Defined.

(** ** The token-window splitter: further results *)

Section TokenWindows.

Variable getEncoding : string -> res Tiktoken.
Variable this this' : TokenTextSplitter.t.
Variable tk : Tiktoken.
Variable text : jsstring.
Variable ids : list Z.

Let p : TextSplitterParams := TokenTextSplitter.params this.
Let step : Z := chunkSize p - chunkOverlap p.
Let n : Z := array_length ids.

Hypothesis acquired : TokenTextSplitter.acquire getEncoding this = Ok (this', tk).
Hypothesis encoded :
  encode tk text (TokenTextSplitter.allowedSpecial this)
    (TokenTextSplitter.disallowedSpecial this) = Ok ids.

(** The call as the list of the decoded windows. *)
Lemma splitText_windows (fuel : nat) :
  0 <= chunkSize p -> 0 < step -> (List.length ids < fuel)%nat ->
  TokenTextSplitter.splitText getEncoding this fuel text
  = Ok (this', Some (map (decoded_window p tk ids) (window_starts p n))).
Proof.
  intros Hsize Hstep Hfuel.
  rewrite (splitText_runs getEncoding this this' tk text ids fuel
             Hstep acquired encoded Hfuel).
  fold p step n. do 3 f_equal.
  unfold window_starts. rewrite map_map. fold step.
  apply map_ext_in. intros k Hk. apply in_seq in Hk. cbv zeta.
  unfold decoded_window. fold n. f_equal.
  assert (Z.of_nat k * step < n)
    by (apply (ceil_div_bounds step n k Hstep); lia).
  apply slice_is_window; [fold n; nia | exact Hsize].
Qed.

End TokenWindows.

Lemma window_starts_in (p : TextSplitterParams) (n start : Z) :
  0 < chunkSize p - chunkOverlap p ->
  In start (window_starts p n) ->
  exists k : nat,
    start = Z.of_nat k * (chunkSize p - chunkOverlap p) /\ 0 <= start < n.
Proof.
  intros Hstep Hin. unfold window_starts in Hin.
  apply in_map_iff in Hin. destruct Hin as (k & <- & Hk).
  apply in_seq in Hk. exists k. split; [reflexivity|].
  assert (Z.of_nat k * (chunkSize p - chunkOverlap p) < n)
    by (apply (ceil_div_bounds _ n k Hstep); lia).
  nia.
Qed.

Lemma window_length (ids : list Z) (start stop : Z) :
  0 <= start <= stop -> stop <= array_length ids ->
  array_length (window ids start stop) = stop - start.
Proof.
  intros Hs Hn. unfold window, array_length in *.
  rewrite length_firstn, length_skipn. lia.
Qed.

(** X14. Under [0 < chunkSize] and [chunkOverlap < chunkSize] every chunk
    of the token-window splitter is the decoding of at least one and at
    most [chunkSize] tokens. *)
Theorem token_splitter_window_sizes
  (getEncoding : string -> res Tiktoken)
  (this this' : TokenTextSplitter.t) (tk : Tiktoken)
  (text : jsstring) (ids : list Z) (fuel : nat) :
  let p := TokenTextSplitter.params this in
  let n := array_length ids in
  0 < chunkSize p ->
  chunkOverlap p < chunkSize p ->
  TokenTextSplitter.acquire getEncoding this = Ok (this', tk) ->
  encode tk text (TokenTextSplitter.allowedSpecial this)
    (TokenTextSplitter.disallowedSpecial this) = Ok ids ->
  (List.length ids < fuel)%nat ->
  exists windows,
    TokenTextSplitter.splitText getEncoding this fuel text
    = Ok (this', Some (map (decode tk) windows)) /\
    Forall (fun w => 1 <= array_length w <= chunkSize p) windows.
Proof.
  intros p n Hsize Hvalid Hacq Henc Hfuel.
  assert (Hstep : 0 < chunkSize p - chunkOverlap p) by lia.
  exists (map (fun start => window ids start (Z.min (start + chunkSize p) n))
              (window_starts p n)).
  split.
  - rewrite (splitText_windows getEncoding this this' tk text ids Hacq Henc fuel)
      by (fold p; lia || exact Hfuel).
    rewrite map_map. reflexivity.
  - apply Forall_forall. intros w Hw. apply in_map_iff in Hw.
    destruct Hw as (start & <- & Hin).
    apply (window_starts_in p n start Hstep) in Hin.
    destruct Hin as (k & _ & Hrange).
    rewrite (window_length ids) by (fold n; lia). lia.
Qed.

Lemma token_splitter_window_sizes_witness :
  exists windows,
    TokenTextSplitter.splitText (fun _ => Ok code_unit_tokenizer)
      (code_unit_splitter 4 1) 9 (str "abcdefgh")
    = Ok (TokenTextSplitter.set_tokenizer (code_unit_splitter 4 1) code_unit_tokenizer,
          Some (map (decode code_unit_tokenizer) windows)) /\
    Forall (fun w => 1 <= array_length w <= 4) windows.
Proof.
  apply (token_splitter_window_sizes
           (fun _ => Ok code_unit_tokenizer) (code_unit_splitter 4 1)
           (TokenTextSplitter.set_tokenizer (code_unit_splitter 4 1) code_unit_tokenizer)
           code_unit_tokenizer (str "abcdefgh")
           (map Z.of_N (str "abcdefgh")) 9).
  - vm_compute. reflexivity.
  - vm_compute. reflexivity.
  - reflexivity.
  - reflexivity.
  - vm_compute. lia.
Defined.

(** X15. Under [0 <= chunkOverlap < chunkSize] the windows of the
    token-window splitter leave no token out, and a window of [chunkSize]
    tokens shares exactly its last [chunkOverlap] tokens with the window
    that starts [chunkSize - chunkOverlap] further on. *)
Theorem token_splitter_windows_cover_and_overlap
  (getEncoding : string -> res Tiktoken)
  (this this' : TokenTextSplitter.t) (tk : Tiktoken)
  (text : jsstring) (ids : list Z) (fuel : nat) :
  let p := TokenTextSplitter.params this in
  let step := chunkSize p - chunkOverlap p in
  let n := array_length ids in
  0 <= chunkOverlap p ->
  chunkOverlap p < chunkSize p ->
  TokenTextSplitter.acquire getEncoding this = Ok (this', tk) ->
  encode tk text (TokenTextSplitter.allowedSpecial this)
    (TokenTextSplitter.disallowedSpecial this) = Ok ids ->
  (List.length ids < fuel)%nat ->
  TokenTextSplitter.splitText getEncoding this fuel text
  = Ok (this', Some (map (decoded_window p tk ids) (window_starts p n))) /\
  (forall i, 0 <= i < n ->
     exists start, In start (window_starts p n) /\
                   start <= i < Z.min (start + chunkSize p) n) /\
  (forall start,
     In start (window_starts p n) -> start + chunkSize p <= n ->
     skipn (Z.to_nat step) (window ids start (start + chunkSize p))
     = firstn (Z.to_nat (chunkOverlap p))
         (window ids (start + step) (Z.min (start + step + chunkSize p) n))).
Proof.
  intros p step n Hov Hvalid Hacq Henc Hfuel.
  assert (Hstep : 0 < step) by (unfold step; lia).
  split; [|split].
  - apply (splitText_windows getEncoding this this' tk text ids Hacq Henc fuel);
      fold p; (lia || exact Hfuel).
  - intros i Hi.
    pose proof (Z.mul_div_le i step Hstep).
    pose proof (Z.mul_succ_div_gt i step Hstep).
    assert (0 <= i / step) by (apply Z.div_pos; lia).
    exists (Z.of_nat (Z.to_nat (i / step)) * step).
    split.
    + apply (window_starts_spec p n (Z.to_nat (i / step)) Hstep).
      fold step. rewrite Z2Nat.id by assumption. lia.
    + rewrite Z2Nat.id by assumption. unfold step in *. lia.
  - intros start Hin Hfull.
    apply (window_starts_in p n start Hstep) in Hin.
    destruct Hin as (k & _ & Hrange).
    unfold window. rewrite skipn_firstn_comm, skipn_skipn, firstn_firstn.
    replace (Z.to_nat step + Z.to_nat start)%nat with (Z.to_nat (start + step))
      by lia.
    f_equal. unfold step. lia.
Qed.

Lemma token_splitter_windows_cover_and_overlap_witness :
  TokenTextSplitter.splitText (fun _ => Ok code_unit_tokenizer)
    (code_unit_splitter 4 1) 9 (str "abcdefgh")
  = Ok (TokenTextSplitter.set_tokenizer (code_unit_splitter 4 1) code_unit_tokenizer,
        Some [str "abcd"; str "defg"; str "gh"]).
Proof.
  apply (token_splitter_windows_cover_and_overlap
           (fun _ => Ok code_unit_tokenizer) (code_unit_splitter 4 1)
           (TokenTextSplitter.set_tokenizer (code_unit_splitter 4 1) code_unit_tokenizer)
           code_unit_tokenizer (str "abcdefgh")
           (map Z.of_N (str "abcdefgh")) 9).
  - vm_compute. discriminate.
  - vm_compute. reflexivity.
  - reflexivity.
  - reflexivity.
  - vm_compute. lia.
Defined.

Lemma window_loop_stuck (p : TextSplitterParams) (tk : Tiktoken)
  (input_ids : list Z) (fuel : nat) :
  chunkSize p <= chunkOverlap p ->
  forall start_idx chunk_ids splits,
    start_idx < array_length input_ids ->
    TokenTextSplitter.window_loop p tk input_ids fuel start_idx chunk_ids splits
    = None.
Proof.
  intros Hstep. induction fuel as [|fuel IH]; intros start chunk acc Hstart;
    [reflexivity|].
  cbn [TokenTextSplitter.window_loop].
  replace (start <? array_length input_ids) with true
    by (symmetry; apply Z.ltb_lt; exact Hstart).
  apply IH. lia.
Qed.

(** X16. Were [chunkOverlap] at least [chunkSize] (the fields can be
    assigned after construction), the token-window loop would make no
    progress: on a text with at least one token it never ends. *)
Theorem token_splitter_needs_progress
  (getEncoding : string -> res Tiktoken)
  (this this' : TokenTextSplitter.t) (tk : Tiktoken)
  (text : jsstring) (ids : list Z) (fuel : nat) :
  chunkSize (TokenTextSplitter.params this)
    <= chunkOverlap (TokenTextSplitter.params this) ->
  ids <> [] ->
  TokenTextSplitter.acquire getEncoding this = Ok (this', tk) ->
  encode tk text (TokenTextSplitter.allowedSpecial this)
    (TokenTextSplitter.disallowedSpecial this) = Ok ids ->
  TokenTextSplitter.splitText getEncoding this fuel text = Ok (this', None).
Proof.
  intros Hstep Hne Hacq Henc.
  unfold TokenTextSplitter.splitText. rewrite Hacq. cbn [bind fst snd].
  destruct (acquire_fields getEncoding this this' tk Hacq) as (Hp & Ha & Hd & _).
  rewrite Ha, Hd, Henc, Hp. cbn [bind]. f_equal. f_equal.
  apply window_loop_stuck; [exact Hstep|].
  unfold array_length. destruct ids; [contradiction | simpl; lia].
Qed.

Lemma token_splitter_needs_progress_witness :
  TokenTextSplitter.splitText (fun _ => Ok code_unit_tokenizer)
    (code_unit_splitter 2 2) 1000 (str "abc")
  = Ok (TokenTextSplitter.set_tokenizer (code_unit_splitter 2 2) code_unit_tokenizer,
        None).
Proof.
  apply (token_splitter_needs_progress
           (fun _ => Ok code_unit_tokenizer) (code_unit_splitter 2 2)
           (TokenTextSplitter.set_tokenizer (code_unit_splitter 2 2) code_unit_tokenizer)
           code_unit_tokenizer (str "abc") (map Z.of_N (str "abc")) 1000).
  - vm_compute. discriminate.
  - discriminate.
  - reflexivity.
  - reflexivity.
Defined.

(** X17. The tokenizer is acquired at most once: the splitter a call
    returns holds the tokenizer, and a later call on it gives the same
    result whatever [getEncoding] would answer, and leaves the splitter as
    it is. *)
Theorem token_splitter_acquires_once
  (getEncoding : string -> res Tiktoken)
  (this this' : TokenTextSplitter.t) (fuel : nat) (text : jsstring)
  (result : option (list jsstring)) :
  TokenTextSplitter.splitText getEncoding this fuel text = Ok (this', result) ->
  (exists tk, TokenTextSplitter.tokenizer this' = Some tk) /\
  TokenTextSplitter.params this' = TokenTextSplitter.params this /\
  (forall getEncoding' fuel' text',
     TokenTextSplitter.splitText getEncoding' this' fuel' text'
     = TokenTextSplitter.splitText getEncoding this' fuel' text') /\
  (forall getEncoding' fuel' text' this'' result',
     TokenTextSplitter.splitText getEncoding' this' fuel' text'
     = Ok (this'', result') -> this'' = this').
Proof.
  unfold TokenTextSplitter.splitText at 1.
  destruct (TokenTextSplitter.acquire getEncoding this) as [[this1 tk]|e] eqn:Hacq;
    cbn [bind fst snd]; [|discriminate].
  destruct (encode tk text (TokenTextSplitter.allowedSpecial this1)
              (TokenTextSplitter.disallowedSpecial this1)) as [ids|e];
    cbn [bind]; [|discriminate].
  intros H. injection H as <- _.
  destruct (acquire_fields getEncoding this this1 tk Hacq) as (Hp & _ & _ & Htk).
  assert (Hre : forall ge, TokenTextSplitter.acquire ge this1 = Ok (this1, tk)).
  { intros ge. unfold TokenTextSplitter.acquire. rewrite Htk. reflexivity. }
  split; [eauto|]. split; [exact Hp|]. split.
  - intros ge fuel' text'. unfold TokenTextSplitter.splitText.
    rewrite !Hre. reflexivity.
  - intros ge fuel' text' this'' result'. unfold TokenTextSplitter.splitText.
    rewrite Hre. cbn [bind fst snd].
    destruct (encode tk text' (TokenTextSplitter.allowedSpecial this1)
                (TokenTextSplitter.disallowedSpecial this1));
      cbn [bind]; [|discriminate].
    intros H. injection H as <- _. reflexivity.
Qed.

Lemma token_splitter_acquires_once_witness :
  (exists tk,
     TokenTextSplitter.tokenizer
       (TokenTextSplitter.set_tokenizer (code_unit_splitter 2 1) code_unit_tokenizer)
     = Some tk).
Proof.
  apply (token_splitter_acquires_once
           (fun _ => Ok code_unit_tokenizer) (code_unit_splitter 2 1)
           (TokenTextSplitter.set_tokenizer (code_unit_splitter 2 1) code_unit_tokenizer)
           4 (str "abc") (Some [str "ab"; str "bc"; str "c"])).
  reflexivity.
Defined.

(** ** Documents *)

Lemma get_set_same (o : object) (k : string) (v : jsvalue) :
  get (set o k v) k = Some v.
Proof.
  induction o as [|[k' v'] o IH]; simpl.
  - rewrite String.eqb_refl. reflexivity.
  - destruct (String.eqb k k') eqn:Hk; simpl; rewrite Hk; [reflexivity | exact IH].
Qed.

Lemma get_set_other (o : object) (k k' : string) (v : jsvalue) :
  k' <> k -> get (set o k v) k' = get o k'.
Proof.
  intros Hne. induction o as [|[k0 v0] o IH]; simpl.
  - destruct (String.eqb_spec k' k); [contradiction | reflexivity].
  - destruct (String.eqb_spec k k0) as [->|Hk]; simpl.
    + destruct (String.eqb_spec k' k0); [contradiction | reflexivity].
    + destruct (String.eqb k' k0); [reflexivity | exact IH].
Qed.

Lemma count_newlines_nonneg (s : jsstring) :
  0 <= TextSplitterDocuments.count_newlines s.
Proof.
  induction s as [|c s IH]; simpl; [lia|].
  destruct (c =? 10)%N; lia.
Qed.

Lemma chunk_metadata_set (m : object) (from to : Z) :
  chunk_metadata m
    (set m "loc" (VObject (TextSplitterDocuments.loc_with_lines m from to)))
    (from, to).
Proof.
  split.
  - intros k Hk. apply get_set_other. exact Hk.
  - exists (TextSplitterDocuments.loc_with_lines m from to).
    split; [apply get_set_same|].
    unfold TextSplitterDocuments.loc_with_lines. split.
    + apply get_set_same.
    + intros k Hk. rewrite get_set_other by exact Hk.
      destruct (get m "loc") as [[| | | | |props]|]; reflexivity.
Qed.

Section DocumentFacts.

Import TextSplitterDocuments.

Variable Document : Type.
Variable new_Document : jsstring -> object -> Document.
Variable splitText : jsstring -> outcome (list jsstring).
Variable o : TextSplitterChunkHeaderOptions.

Let mk (f : jsstring * object) : Document := new_Document (fst f) (snd f).

(** The loop over the chunks of a text whose metadata is there. *)
Lemma chunks_loop_fields (text : jsstring) (m : object) (chunks : list jsstring) :
  forall st,
    exists group ranges st',
      chunks_loop Document new_Document o text (Some m) st chunks = Ok st' /\
      documents Document st' = documents Document st ++ map mk group /\
      map fst group = page_contents o (prevChunk Document st) chunks /\
      Forall2 (fun f r => chunk_metadata m (snd f) r) group ranges /\
      ranges_from (lineCounterIndex Document st) chunks ranges /\
      (truthy (prevChunk Document st) = false ->
       match ranges with
       | r :: _ => fst r = lineCounterIndex Document st
       | [] => True
       end).
Proof.
  induction chunks as [|chunk rest IH]; intros st.
  - exists [], [], st. simpl. rewrite app_nil_r. repeat split; auto.
  - cbn [chunks_loop chunk_step bind].
    set (gap := match prevChunk Document st with
                | Some prev =>
                    if truthy (prevChunk Document st)
                    then count_newlines
                           (slice text (indexOf text prev + len prev)
                              (indexOf text chunk))
                    else 0
                | None => 0
                end).
    assert (Hgap : 0 <= gap).
    { unfold gap. destruct (prevChunk Document st); [|lia].
      destruct (truthy _); [apply count_newlines_nonneg | lia]. }
    assert (Hfirst : truthy (prevChunk Document st) = false -> gap = 0).
    { unfold gap. intros ->. destruct (prevChunk Document st); reflexivity. }
    set (from := lineCounterIndex Document st + gap).
    set (to := from + count_newlines chunk).
    match goal with
    | |- context [chunks_loop _ _ _ _ _ ?st1 rest] =>
        destruct (IH st1) as (group & ranges & st' & Hloop & Hdocs & Hpc & Hmd & Hr & _)
    end.
    cbn [documents lineCounterIndex prevChunk] in Hdocs, Hpc, Hr.
    exists ((page_content o (prevChunk Document st) chunk,
             set m "loc" (VObject (loc_with_lines m from to))) :: group),
           ((from, to) :: ranges), st'.
    split; [exact Hloop|]. split; [|split; [|split; [|split]]].
    + rewrite Hdocs, <- app_assoc. cbn [map app]. unfold mk at 2.
      cbn [fst snd]. do 3 f_equal. unfold page_content.
      destruct (truthy (prevChunk Document st)
                && or_default (appendChunkOverlapHeader o) false);
        [rewrite <- app_assoc; reflexivity | reflexivity].
    + cbn [map fst page_contents]. rewrite Hpc. reflexivity.
    + constructor; [|exact Hmd]. cbn [snd]. apply chunk_metadata_set.
    + cbn [ranges_from]. repeat split; [unfold from; lia | exact Hr].
    + intros Hfalse. cbn [fst]. unfold from. rewrite (Hfirst Hfalse). lia.
Qed.

(** Without metadata for the text the first chunk stops the loop. *)
Lemma chunks_loop_no_metadata (text : jsstring) (st : chunk_state Document)
  (chunks : list jsstring) :
  chunks_loop Document new_Document o text None st chunks
  = match chunks with
    | [] => Ok st
    | _ :: _ => Throw TypeError
    end.
Proof.
  destruct chunks; reflexivity.
Qed.

End DocumentFacts.

Section DocumentResults.

Import TextSplitterDocuments.

Variable Document : Type.
Variable new_Document : jsstring -> object -> Document.
Variable splitText : jsstring -> outcome (list jsstring).
Variable o : TextSplitterChunkHeaderOptions.

Let mk (f : jsstring * object) : Document := new_Document (fst f) (snd f).

(** The documents of the texts from index [i] on, text by text. *)
Lemma texts_loop_groups (mds : list object) (texts : list jsstring) :
  forall i docs0 out,
    texts_loop Document new_Document splitText o mds i texts docs0 = Returns out ->
    exists chunkss groups,
      out = docs0 ++ map mk (List.concat groups) /\
      Forall2 (fun text chunks => splitText text = Returns chunks) texts chunkss /\
      groups_from o mds i chunkss groups.
Proof.
  induction texts as [|text rest IH]; intros i docs0 out.
  - simpl. intros H. injection H as <-. exists [], [].
    simpl. rewrite app_nil_r. repeat split; constructor.
  - cbn [texts_loop].
    destruct (splitText text) as [chunks| |] eqn:Hsplit; try discriminate.
    destruct (nth_error mds i) as [m|] eqn:Hmd.
    + destruct (chunks_loop_fields Document new_Document o text m chunks
                  {| documents := docs0; lineCounterIndex := 1; prevChunk := None |})
        as (group & ranges & st' & -> & Hdocs & Hpc & Hmeta & Hr & Hfirst).
      cbn [documents lineCounterIndex prevChunk] in Hdocs, Hpc, Hr, Hfirst.
      intros Hloop. apply IH in Hloop.
      destruct Hloop as (chunkss & groups & -> & Hsplits & Hgroups).
      exists (chunks :: chunkss), (group :: groups).
      split; [|split].
      * rewrite Hdocs. cbn [List.concat]. rewrite map_app, app_assoc. reflexivity.
      * constructor; assumption.
      * constructor; [|exact Hgroups]. right. exists m, ranges.
        split; [exact Hmd|].
        repeat split; try assumption. apply Hfirst. reflexivity.
    + rewrite chunks_loop_no_metadata.
      destruct chunks as [|c cs]; [|discriminate].
      cbn [documents]. intros Hloop. apply IH in Hloop.
      destruct Hloop as (chunkss & groups & -> & Hsplits & Hgroups).
      exists ([] :: chunkss), ([] :: groups).
      split; [|split].
      * reflexivity.
      * constructor; assumption.
      * constructor; [left; auto | exact Hgroups].
Qed.

(** The loop returns when every text is split and has its metadata. *)
Lemma texts_loop_returns (mds : list object) (texts : list jsstring) :
  forall i docs0,
    Forall (fun text => exists chunks, splitText text = Returns chunks) texts ->
    (i + List.length texts <= List.length mds)%nat ->
    exists out,
      texts_loop Document new_Document splitText o mds i texts docs0 = Returns out.
Proof.
  induction texts as [|text rest IH]; intros i docs0 Hsplit Hlen.
  - simpl. eauto.
  - cbn [texts_loop]. inversion Hsplit as [|? ? (chunks & Hchunks) Hrest]; subst.
    rewrite Hchunks.
    destruct (nth_error mds i) as [m|] eqn:Hmd.
    + destruct (chunks_loop_fields Document new_Document o text m chunks
                  {| documents := docs0; lineCounterIndex := 1; prevChunk := None |})
        as (group & ranges & st' & -> & _).
      apply IH; [exact Hrest | simpl in Hlen; lia].
    + apply nth_error_None in Hmd. simpl in Hlen. lia.
Qed.

End DocumentResults.

Lemma groups_from_page_contents (o : TextSplitterChunkHeaderOptions)
  (mds : list object) (i : nat) (chunkss : list (list jsstring))
  (groups : list (list (jsstring * object))) :
  groups_from o mds i chunkss groups ->
  map fst (List.concat groups) = List.concat (map (page_contents o None) chunkss).
Proof.
  induction 1 as [|i chunks group chunkss groups Hhead _ IH]; [reflexivity|].
  cbn [List.concat map]. rewrite map_app, IH. f_equal.
  destruct Hhead as [[-> ->] | (m & ranges & _ & Hpc & _)]; [reflexivity | exact Hpc].
Qed.

Lemma page_contents_plain (o : TextSplitterChunkHeaderOptions)
  (chunks : list jsstring) :
  chunkHeader o = None ->
  appendChunkOverlapHeader o = None \/ appendChunkOverlapHeader o = Some false ->
  forall prev, page_contents o prev chunks = chunks.
Proof.
  intros Hh Ha. induction chunks as [|chunk rest IH]; intros prev; [reflexivity|].
  cbn [page_contents]. rewrite IH. f_equal.
  unfold page_content. rewrite Hh.
  destruct Ha as [-> | ->]; cbn [TextSplitterDocuments.or_default];
    rewrite andb_false_r; reflexivity.
Qed.

(** X18. The documents [createDocuments] returns are made, text after
    text and chunk after chunk, from the chunks [splitText] gives: the page
    content of a document is the chunk header, then the overlap header if
    asked for and the chunk before it in the text is a non-empty string,
    then the chunk; without header options the page contents are the chunks
    themselves. *)
Theorem createDocuments_page_contents
  (Document : Type) (new_Document : jsstring -> object -> Document)
  (splitText : jsstring -> outcome (list jsstring))
  (o : TextSplitterChunkHeaderOptions)
  (texts : list jsstring) (metadatas : list object) (docs : list Document) :
  TextSplitterDocuments.createDocuments Document new_Document splitText o
    texts metadatas = Returns docs ->
  exists chunkss fields,
    Forall2 (fun text chunks => splitText text = Returns chunks) texts chunkss /\
    docs = map (fun f => new_Document (fst f) (snd f)) fields /\
    map fst fields = List.concat (map (page_contents o None) chunkss) /\
    (chunkHeader o = None ->
     appendChunkOverlapHeader o = None \/ appendChunkOverlapHeader o = Some false ->
     map fst fields = List.concat chunkss).
Proof.
  unfold TextSplitterDocuments.createDocuments. intros H.
  apply texts_loop_groups in H.
  destruct H as (chunkss & groups & -> & Hsplits & Hgroups).
  exists chunkss, (List.concat groups).
  pose proof (groups_from_page_contents _ _ _ _ _ Hgroups) as Hpc.
  repeat split; try assumption.
  intros Hh Ha. rewrite Hpc. f_equal.
  clear -Hh Ha. induction chunkss as [|chunks chunkss IH]; [reflexivity|].
  cbn [map]. rewrite IH, (page_contents_plain o chunks Hh Ha). reflexivity.
Qed.

Lemma createDocuments_page_contents_witness :
  exists chunkss fields,
    Forall2 (fun text chunks => line_splitter 3 text = Returns chunks)
      [str "ab" ++ 10%N :: str "cd"; str "ef"] chunkss /\
    [(str "ab", [("loc"%string,
                  VObject [("lines"%string,
                            VObject [("from"%string, VNumber 1);
                                     ("to"%string, VNumber 1)])])]);
     (str "cd", [("loc"%string,
                  VObject [("lines"%string,
                            VObject [("from"%string, VNumber 2);
                                     ("to"%string, VNumber 2)])])]);
     (str "ef", [("loc"%string,
                  VObject [("lines"%string,
                            VObject [("from"%string, VNumber 1);
                                     ("to"%string, VNumber 1)])])])]
    = map (fun f => (fst f, snd f)) fields /\
    map fst fields
    = List.concat
        (map (page_contents
                {| chunkHeader := None; chunkOverlapHeader := None;
                   appendChunkOverlapHeader := None |} None) chunkss) /\
    (@None jsstring = None ->
     @None bool = None \/ @None bool = Some false ->
     map fst fields = List.concat chunkss).
Proof.
  apply (createDocuments_page_contents (jsstring * object) pair (line_splitter 3)
           {| chunkHeader := None; chunkOverlapHeader := None;
              appendChunkOverlapHeader := None |}
           [str "ab" ++ 10%N :: str "cd"; str "ef"] []).
  vm_compute. reflexivity.
Defined.

Lemma ranges_from_bounds (chunks : list jsstring) :
  forall lo ranges r,
    ranges_from lo chunks ranges -> In r ranges -> lo <= fst r <= snd r.
Proof.
  induction chunks as [|chunk rest IH]; intros lo ranges r;
    destruct ranges as [|[from to] ranges]; simpl; try contradiction.
  intros (Hlo & Hto & Hrest) [<- | Hin].
  - simpl. pose proof (count_newlines_nonneg chunk). lia.
  - pose proof (count_newlines_nonneg chunk).
    specialize (IH to ranges r Hrest Hin). lia.
Qed.

Lemma groups_from_length (o : TextSplitterChunkHeaderOptions)
  (mds : list object) (i : nat) (chunkss : list (list jsstring))
  (groups : list (list (jsstring * object))) :
  groups_from o mds i chunkss groups -> List.length groups = List.length chunkss.
Proof.
  induction 1; simpl; congruence.
Qed.

Lemma Forall2_nth_left {A B : Type} (P : A -> B -> Prop)
  (l1 : list A) (l2 : list B) :
  Forall2 P l1 l2 ->
  forall j a, nth_error l1 j = Some a ->
  exists b, nth_error l2 j = Some b /\ P a b.
Proof.
  induction 1 as [|a0 b0 l1 l2 Hab _ IH]; intros j a Hj.
  - destruct j; discriminate.
  - destruct j as [|j]; simpl in Hj.
    + injection Hj as <-. exists b0. split; [reflexivity | exact Hab].
    + apply (IH j a Hj).
Qed.

Lemma Forall2_from_nth {A B : Type} (P : A -> B -> Prop) :
  forall (l1 : list A) (l2 : list B),
    List.length l1 = List.length l2 ->
    (forall j a, nth_error l1 j = Some a ->
       exists b, nth_error l2 j = Some b /\ P a b) ->
    Forall2 P l1 l2.
Proof.
  induction l1 as [|a l1 IH]; intros [|b l2] Hlen H; try discriminate;
    constructor.
  - destruct (H 0%nat a eq_refl) as (b' & Hb & HP). injection Hb as <-. exact HP.
  - apply IH; [simpl in Hlen; congruence|].
    intros j a' Hj. apply (H (S j) a' Hj).
Qed.

(** The group of the text at index [j]. *)
Lemma groups_from_at (o : TextSplitterChunkHeaderOptions)
  (mds : list object) (i : nat) (chunkss : list (list jsstring))
  (groups : list (list (jsstring * object))) :
  groups_from o mds i chunkss groups ->
  forall j chunks,
    nth_error chunkss j = Some chunks ->
    exists group,
      nth_error groups j = Some group /\
      ((chunks = [] /\ group = []) \/
       exists m ranges,
         nth_error mds (i + j) = Some m /\ text_group o m chunks group ranges).
Proof.
  induction 1 as [|i chunks group chunkss groups Hhead _ IH]; intros j chunks' Hj.
  - destruct j; discriminate.
  - destruct j as [|j]; simpl in Hj.
    + injection Hj as <-. exists group. split; [reflexivity|].
      rewrite Nat.add_0_r. exact Hhead.
    + destruct (IH j chunks' Hj) as (group' & Hg & Hcase).
      exists group'. split; [exact Hg|]. rewrite Nat.add_succ_r. exact Hcase.
Qed.

(** Every document of a group carries the metadata of the group. *)
Lemma text_group_metadata (o : TextSplitterChunkHeaderOptions) (m : object)
  (chunks : list jsstring) (group : list (jsstring * object))
  (ranges : list (Z * Z)) :
  text_group o m chunks group ranges ->
  forall f, In f group ->
    exists range, chunk_metadata m (snd f) range /\ 1 <= fst range <= snd range.
Proof.
  intros (_ & Hmeta & Hranges & _) f Hin.
  assert (Hf : exists range, In range ranges /\ chunk_metadata m (snd f) range).
  { clear -Hmeta Hin. induction Hmeta as [|f' r group ranges Hhead _ IH];
      [contradiction|].
    destruct Hin as [<- | Hin].
    - exists r. split; [left; reflexivity | exact Hhead].
    - destruct (IH Hin) as (range & Hr & Hrange).
      exists range. split; [right; exact Hr | exact Hrange]. }
  destruct Hf as (range & Hr & Hrange).
  exists range. split; [exact Hrange|].
  apply (ranges_from_bounds chunks 1 ranges range Hranges Hr).
Qed.

(** X19. The documents [createDocuments] returns come in one group for
    each text, in the order of the texts: the group of the text at index
    [j] has one document for each chunk [splitText] gives for that text,
    with the page contents of these chunks, and every document of the group
    carries the metadata at index [j] (an empty object when no metadata is
    given): the same properties, but for [loc], an object that keeps the
    properties of the [loc] object of that metadata, if it has one, and
    whose [lines] is a range [{from, to}] with [1 <= from <= to]. *)
Theorem createDocuments_metadata
  (Document : Type) (new_Document : jsstring -> object -> Document)
  (splitText : jsstring -> outcome (list jsstring))
  (o : TextSplitterChunkHeaderOptions)
  (texts : list jsstring) (metadatas : list object) (docs : list Document) :
  TextSplitterDocuments.createDocuments Document new_Document splitText o
    texts metadatas = Returns docs ->
  exists groups,
    docs = map (fun f => new_Document (fst f) (snd f)) (List.concat groups) /\
    List.length groups = List.length texts /\
    (forall j text,
       nth_error texts j = Some text ->
       exists chunks group,
         splitText text = Returns chunks /\
         nth_error groups j = Some group /\
         map fst group = page_contents o None chunks /\
         forall f, In f group ->
           exists m range,
             nth_error (metadatas_used texts metadatas) j = Some m /\
             chunk_metadata m (snd f) range /\
             1 <= fst range <= snd range).
Proof.
  unfold TextSplitterDocuments.createDocuments. intros H.
  apply texts_loop_groups in H.
  destruct H as (chunkss & groups & -> & Hsplits & Hgroups).
  exists groups. split; [reflexivity|]. split.
  - rewrite (groups_from_length _ _ _ _ _ Hgroups).
    symmetry. eapply Forall2_length. exact Hsplits.
  - intros j text Hj.
    destruct (Forall2_nth_left _ _ _ Hsplits j text Hj) as (chunks & Hchunks & Hsplit).
    destruct (groups_from_at _ _ _ _ _ Hgroups j chunks Hchunks)
      as (group & Hgroup & [[-> ->] | (m & ranges & Hm & Htext)]).
    + exists [], []. repeat split; try assumption. intros f [].
    + exists chunks, group. split; [exact Hsplit|]. split; [exact Hgroup|].
      split; [apply Htext|]. intros f Hin.
      destruct (text_group_metadata o m chunks group ranges Htext f Hin)
        as (range & Hrange & Hbounds).
      exists m, range. auto.
Qed.

Lemma createDocuments_metadata_witness :
  exists groups,
    [(str "ab", [("source"%string, VString (str "a.txt"));
                 ("loc"%string,
                  VObject [("page"%string, VNumber 7);
                           ("lines"%string,
                            VObject [("from"%string, VNumber 1);
                                     ("to"%string, VNumber 1)])])]);
     (str "cd", [("source"%string, VString (str "a.txt"));
                 ("loc"%string,
                  VObject [("page"%string, VNumber 7);
                           ("lines"%string,
                            VObject [("from"%string, VNumber 2);
                                     ("to"%string, VNumber 2)])])]);
     (str "ef", [("source"%string, VString (str "b.txt"));
                 ("loc"%string,
                  VObject [("lines"%string,
                            VObject [("from"%string, VNumber 1);
                                     ("to"%string, VNumber 1)])])])]
    = map (fun f => (fst f, snd f)) (List.concat groups) /\
    List.length groups = 2%nat /\
    (forall j text,
       nth_error [str "ab" ++ 10%N :: str "cd"; str "ef"] j = Some text ->
       exists chunks group,
         line_splitter 3 text = Returns chunks /\
         nth_error groups j = Some group /\
         map fst group
         = page_contents {| chunkHeader := None; chunkOverlapHeader := None;
                            appendChunkOverlapHeader := None |} None chunks /\
         forall f, In f group ->
           exists m range,
             nth_error
               (metadatas_used [str "ab" ++ 10%N :: str "cd"; str "ef"]
                  [[("source"%string, VString (str "a.txt"));
                    ("loc"%string, VObject [("page"%string, VNumber 7)])];
                   [("source"%string, VString (str "b.txt"))]]) j
             = Some m /\
             chunk_metadata m (snd f) range /\
             1 <= fst range <= snd range).
Proof.
  apply (createDocuments_metadata (jsstring * object) pair (line_splitter 3)
           {| chunkHeader := None; chunkOverlapHeader := None;
              appendChunkOverlapHeader := None |}
           [str "ab" ++ 10%N :: str "cd"; str "ef"]
           [[("source"%string, VString (str "a.txt"));
             ("loc"%string, VObject [("page"%string, VNumber 7)])];
            [("source"%string, VString (str "b.txt"))]]).
  vm_compute. reflexivity.
Defined.

(** X20. The line ranges [createDocuments] writes start anew with each
    text: the range of the first chunk of a text starts at line 1, every
    range spans as many lines as its chunk has newlines, and a range starts
    at or behind the end of the range before it. *)
Theorem createDocuments_line_ranges
  (Document : Type) (new_Document : jsstring -> object -> Document)
  (splitText : jsstring -> outcome (list jsstring))
  (o : TextSplitterChunkHeaderOptions)
  (texts : list jsstring) (metadatas : list object) (docs : list Document) :
  TextSplitterDocuments.createDocuments Document new_Document splitText o
    texts metadatas = Returns docs ->
  exists chunkss groups,
    Forall2 (fun text chunks => splitText text = Returns chunks) texts chunkss /\
    docs = map (fun f => new_Document (fst f) (snd f)) (List.concat groups) /\
    Forall2
      (fun chunks group =>
         exists ranges,
           Forall2
             (fun f r =>
                exists loc,
                  get (snd f) "loc" = Some (VObject loc) /\
                  get loc "lines"
                  = Some (VObject [("from"%string, VNumber (fst r));
                                   ("to"%string, VNumber (snd r))]))
             group ranges /\
           ranges_from 1 chunks ranges /\
           match ranges with
           | r :: _ => fst r = 1
           | [] => True
           end)
      chunkss groups.
Proof.
  unfold TextSplitterDocuments.createDocuments. intros H.
  apply texts_loop_groups in H.
  destruct H as (chunkss & groups & -> & Hsplits & Hgroups).
  exists chunkss, groups. split; [exact Hsplits|]. split; [reflexivity|].
  clear Hsplits.
  induction Hgroups as [|i chunks group chunkss groups Hhead _ IH];
    constructor; [|exact IH].
  destruct Hhead as [[-> ->] | (m & ranges & _ & _ & Hmeta & Hranges & Hfirst)].
  - exists []. repeat split. constructor.
  - exists ranges. split; [|split; assumption].
    eapply Forall2_impl; [|exact Hmeta].
    intros f r (_ & loc & Hloc & Hlines & _). exists loc. auto.
Qed.

Lemma createDocuments_line_ranges_witness :
  exists chunkss groups,
    Forall2 (fun text chunks => line_splitter 5 text = Returns chunks)
      [str "ab" ++ 10%N :: str "cd" ++ 10%N :: 10%N :: str "efgh"] chunkss /\
    [(str "ab" ++ 10%N :: str "cd",
      [("loc"%string,
        VObject [("lines"%string,
                  VObject [("from"%string, VNumber 1);
                           ("to"%string, VNumber 2)])])]);
     (str "efgh",
      [("loc"%string,
        VObject [("lines"%string,
                  VObject [("from"%string, VNumber 4);
                           ("to"%string, VNumber 4)])])])]
    = map (fun f => (fst f, snd f)) (List.concat groups) /\
    Forall2
      (fun chunks group =>
         exists ranges,
           Forall2
             (fun f r =>
                exists loc,
                  get (snd f) "loc" = Some (VObject loc) /\
                  get loc "lines"
                  = Some (VObject [("from"%string, VNumber (fst r));
                                   ("to"%string, VNumber (snd r))]))
             group ranges /\
           ranges_from 1 chunks ranges /\
           match ranges with
           | r :: _ => fst r = 1
           | [] => True
           end)
      chunkss groups.
Proof.
  apply (createDocuments_line_ranges (jsstring * object) pair (line_splitter 5)
           {| chunkHeader := None; chunkOverlapHeader := None;
              appendChunkOverlapHeader := None |}
           [str "ab" ++ 10%N :: str "cd" ++ 10%N :: 10%N :: str "efgh"] []).
  vm_compute. reflexivity.
Defined.

Section DocumentErrors.

Import TextSplitterDocuments.

Variable Document : Type.
Variable new_Document : jsstring -> object -> Document.
Variable splitText : jsstring -> outcome (list jsstring).
Variable o : TextSplitterChunkHeaderOptions.

(** The loop passes the texts that are split and have their metadata. *)
Lemma texts_loop_app (mds : list object) (pre rest : list jsstring) :
  forall i docs0,
    Forall (fun text => exists chunks, splitText text = Returns chunks) pre ->
    (i + List.length pre <= List.length mds)%nat ->
    exists docs1,
      texts_loop Document new_Document splitText o mds i (pre ++ rest) docs0
      = texts_loop Document new_Document splitText o mds
          (i + List.length pre) rest docs1.
Proof.
  induction pre as [|text pre IH]; intros i docs0 Hsplit Hlen.
  - exists docs0. simpl. rewrite Nat.add_0_r. reflexivity.
  - cbn [app texts_loop]. inversion Hsplit as [|? ? (chunks & Hchunks) Hrest]; subst.
    rewrite Hchunks.
    destruct (nth_error mds i) as [m|] eqn:Hmd.
    + destruct (chunks_loop_fields Document new_Document o text m chunks
                  {| documents := docs0; lineCounterIndex := 1; prevChunk := None |})
        as (group & ranges & st' & -> & _).
      destruct (IH (S i) (documents Document st') Hrest) as (docs1 & ->);
        [simpl in Hlen; lia|].
      exists docs1. simpl. rewrite Nat.add_succ_r. reflexivity.
    + apply nth_error_None in Hmd. simpl in Hlen. lia.
Qed.

(** A text without chunks is passed whether it has metadata or not. *)
Lemma texts_loop_bare (mds : list object) (bare rest : list jsstring) :
  forall i docs0,
    Forall (fun text => splitText text = Returns []) bare ->
    texts_loop Document new_Document splitText o mds i (bare ++ rest) docs0
    = texts_loop Document new_Document splitText o mds
        (i + List.length bare) rest docs0.
Proof.
  induction bare as [|text bare IH]; intros i docs0 Hbare.
  - simpl. rewrite Nat.add_0_r. reflexivity.
  - cbn [app texts_loop]. inversion Hbare as [|? ? Htext Hrest]; subst.
    rewrite Htext. cbn [chunks_loop documents].
    rewrite (IH (S i) docs0 Hrest). simpl. rewrite Nat.add_succ_r. reflexivity.
Qed.

End DocumentErrors.

(** X21. When metadata is given for fewer texts than there are, the first
    text behind the metadata that has a chunk makes [createDocuments]
    reject with a [TypeError]: the texts that have their metadata being
    split, and the texts between them and that text having no chunk. *)
Theorem createDocuments_missing_metadata
  (Document : Type) (new_Document : jsstring -> object -> Document)
  (splitText : jsstring -> outcome (list jsstring))
  (o : TextSplitterChunkHeaderOptions)
  (covered bare post : list jsstring) (text chunk : jsstring)
  (chunks : list jsstring) (metadatas : list object) :
  metadatas <> [] ->
  List.length covered = List.length metadatas ->
  Forall (fun t => exists cs, splitText t = Returns cs) covered ->
  Forall (fun t => splitText t = Returns []) bare ->
  splitText text = Returns (chunk :: chunks) ->
  TextSplitterDocuments.createDocuments Document new_Document splitText o
    (covered ++ bare ++ text :: post) metadatas = Rejects TypeError.
Proof.
  intros Hne Hlen Hcovered Hbare Htext.
  unfold TextSplitterDocuments.createDocuments.
  replace (0 <? array_length metadatas) with true
    by (symmetry; apply Z.ltb_lt; unfold array_length;
        destruct metadatas; [contradiction | simpl; lia]).
  destruct (texts_loop_app Document new_Document splitText o metadatas
              covered (bare ++ text :: post) 0 [] Hcovered) as (docs1 & ->);
    [simpl; lia|].
  rewrite (texts_loop_bare Document new_Document splitText o metadatas
             bare (text :: post) _ docs1 Hbare).
  cbn [TextSplitterDocuments.texts_loop]. rewrite Htext.
  replace (nth_error metadatas (0 + List.length covered + List.length bare))
    with (@None object)
    by (symmetry; apply nth_error_None; simpl; lia).
  reflexivity.
Qed.

Lemma createDocuments_missing_metadata_witness :
  TextSplitterDocuments.createDocuments (jsstring * object) pair (line_splitter 5)
    {| chunkHeader := None; chunkOverlapHeader := None;
       appendChunkOverlapHeader := None |}
    ([str "ab"] ++ [[]] ++ str "cd" :: [str "ef"])
    [[("source"%string, VString (str "a.txt"))]]
  = Rejects TypeError.
Proof.
  apply (createDocuments_missing_metadata (jsstring * object) pair (line_splitter 5)
           {| chunkHeader := None; chunkOverlapHeader := None;
              appendChunkOverlapHeader := None |}
           [str "ab"] [[]] [str "ef"] (str "cd") (str "cd") []
           [[("source"%string, VString (str "a.txt"))]]).
  - discriminate.
  - reflexivity.
  - constructor; [|constructor]. exists [str "ab"]. reflexivity.
  - constructor; [|constructor]. reflexivity.
  - reflexivity.
Defined.

Lemma metadatas_used_length (texts : list jsstring) (metadatas : list object) :
  metadatas = [] \/ (List.length texts <= List.length metadatas)%nat ->
  (List.length texts <= List.length (metadatas_used texts metadatas))%nat.
Proof.
  unfold metadatas_used, array_length. intros [-> | Hlen].
  - simpl. rewrite repeat_length. lia.
  - destruct (0 <? Z.of_nat (List.length metadatas)); [exact Hlen|].
    rewrite repeat_length. lia.
Qed.

(** X22. [createDocuments] returns when [splitText] returns for every
    text and no metadata is given, or metadata is given for every text. *)
Theorem createDocuments_returns
  (Document : Type) (new_Document : jsstring -> object -> Document)
  (splitText : jsstring -> outcome (list jsstring))
  (o : TextSplitterChunkHeaderOptions)
  (texts : list jsstring) (metadatas : list object) :
  Forall (fun text => exists chunks, splitText text = Returns chunks) texts ->
  metadatas = [] \/ (List.length texts <= List.length metadatas)%nat ->
  exists docs,
    TextSplitterDocuments.createDocuments Document new_Document splitText o
      texts metadatas = Returns docs.
Proof.
  intros Hsplit Hmd. unfold TextSplitterDocuments.createDocuments.
  apply texts_loop_returns; [exact Hsplit|].
  apply (metadatas_used_length texts metadatas Hmd).
Qed.

Lemma createDocuments_returns_witness :
  exists docs,
    TextSplitterDocuments.createDocuments (jsstring * object) pair (line_splitter 5)
      {| chunkHeader := Some (str "# "); chunkOverlapHeader := None;
         appendChunkOverlapHeader := Some true |}
      [str "ab"; str "cd"] []
    = Returns docs.
Proof.
  apply (createDocuments_returns (jsstring * object) pair (line_splitter 5)
           {| chunkHeader := Some (str "# "); chunkOverlapHeader := None;
              appendChunkOverlapHeader := Some true |}
           [str "ab"; str "cd"] []).
  - repeat constructor; eexists; reflexivity.
  - left. reflexivity.
Defined.

Lemma metadatas_used_all (texts : list jsstring) (metadatas : list object) :
  List.length metadatas = List.length texts ->
  metadatas_used texts metadatas = metadatas.
Proof.
  unfold metadatas_used, array_length. intros Hlen.
  destruct metadatas as [|m rest]; [|reflexivity].
  destruct texts; [reflexivity | discriminate].
Qed.

(** X23. [splitDocuments] leaves out the documents whose page content is
    [undefined] (it gives the same result on the list without them) and
    returns whenever [splitText] returns for the page contents that are
    there: the error of a missing metadata cannot occur.  The documents it
    returns come in one group for each document that is kept, in their
    order: the group has one document for each chunk of the page content,
    with the page contents of these chunks, and each of them carries the
    metadata of the document it is split from, but for [loc], whose [lines]
    is a range [{from, to}] with [1 <= from <= to]. *)
Theorem splitDocuments_returns
  (Document : Type) (new_Document : jsstring -> object -> Document)
  (pageContent : Document -> option jsstring) (metadata : Document -> object)
  (splitText : jsstring -> outcome (list jsstring))
  (o : TextSplitterChunkHeaderOptions) (docs : list Document) :
  (forall doc text,
     In doc docs -> pageContent doc = Some text ->
     exists chunks, splitText text = Returns chunks) ->
  exists out,
    TextSplitterDocuments.splitDocuments Document new_Document pageContent
      metadata splitText o docs = Returns out /\
    TextSplitterDocuments.splitDocuments Document new_Document pageContent
      metadata splitText o docs
    = TextSplitterDocuments.splitDocuments Document new_Document pageContent
        metadata splitText o
        (filter (TextSplitterDocuments.selected Document pageContent) docs) /\
    exists groups,
      out = map (fun f => new_Document (fst f) (snd f)) (List.concat groups) /\
      Forall2
        (fun doc group =>
           exists text chunks,
             pageContent doc = Some text /\
             splitText text = Returns chunks /\
             map fst group = page_contents o None chunks /\
             Forall (fun f => exists range,
                       chunk_metadata (metadata doc) (snd f) range /\
                       1 <= fst range <= snd range) group)
        (filter (TextSplitterDocuments.selected Document pageContent) docs)
        groups.
Proof.
  intros Hsplit.
  assert (Hsame :
    TextSplitterDocuments.splitDocuments Document new_Document pageContent
      metadata splitText o docs
    = TextSplitterDocuments.splitDocuments Document new_Document pageContent
        metadata splitText o
        (filter (TextSplitterDocuments.selected Document pageContent) docs)).
  { unfold TextSplitterDocuments.splitDocuments.
    assert (Hidem : forall l,
      filter (TextSplitterDocuments.selected Document pageContent)
        (filter (TextSplitterDocuments.selected Document pageContent) l)
      = filter (TextSplitterDocuments.selected Document pageContent) l).
    { induction l as [|d l IH]; [reflexivity|]. simpl.
      destruct (TextSplitterDocuments.selected Document pageContent d) eqn:Hd;
        simpl; [rewrite Hd, IH|]; auto. }
    rewrite Hidem. reflexivity. }
  set (kept := filter (TextSplitterDocuments.selected Document pageContent) docs)
    in *.
  set (texts := map (fun doc => TextSplitterDocuments.or_default (pageContent doc) [])
                  kept).
  assert (Hkept : forall doc, In doc kept ->
            exists text, pageContent doc = Some text /\ In doc docs).
  { intros doc Hdoc. apply filter_In in Hdoc. destruct Hdoc as [Hdoc Hsel].
    unfold TextSplitterDocuments.selected in Hsel.
    destruct (pageContent doc) as [t|]; [eauto | discriminate]. }
  assert (Hused : metadatas_used texts (map metadata kept) = map metadata kept).
  { apply metadatas_used_all. unfold texts. rewrite !length_map. reflexivity. }
  assert (Hout : exists out,
    TextSplitterDocuments.createDocuments Document new_Document splitText o
      texts (map metadata kept) = Returns out).
  { unfold TextSplitterDocuments.createDocuments.
    apply texts_loop_returns.
    - apply Forall_forall. intros text Hin. apply in_map_iff in Hin.
      destruct Hin as (doc & <- & Hdoc).
      destruct (Hkept doc Hdoc) as (t & Hpc & Hin). rewrite Hpc.
      apply (Hsplit doc t Hin Hpc).
    - apply (metadatas_used_length texts (map metadata kept)).
      right. unfold texts. rewrite !length_map. lia. }
  destruct Hout as (out & Hout).
  exists out. split; [exact Hout|]. split; [exact Hsame|].
  unfold TextSplitterDocuments.createDocuments in Hout.
  change (if 0 <? array_length (map metadata kept)
          then map metadata kept
          else repeat [] (List.length texts))
    with (metadatas_used texts (map metadata kept)) in Hout.
  rewrite Hused in Hout.
  apply texts_loop_groups in Hout.
  destruct Hout as (chunkss & groups & -> & Hsplits & Hgroups).
  exists groups. split; [reflexivity|].
  apply Forall2_from_nth.
  - rewrite (groups_from_length _ _ _ _ _ Hgroups).
    rewrite <- (Forall2_length Hsplits). unfold texts. rewrite length_map.
    reflexivity.
  - intros j doc Hj.
    assert (Hdoc : In doc kept) by (eapply nth_error_In; exact Hj).
    destruct (Hkept doc Hdoc) as (text & Hpc & _).
    assert (Htext : nth_error texts j = Some text).
    { unfold texts. rewrite nth_error_map, Hj. simpl. rewrite Hpc. reflexivity. }
    destruct (Forall2_nth_left _ _ _ Hsplits j text Htext)
      as (chunks & Hchunks & Hreturns).
    destruct (groups_from_at _ _ _ _ _ Hgroups j chunks Hchunks)
      as (group & Hgroup & [[-> ->] | (m & ranges & Hm & Hgrp)]).
    + exists []. split; [exact Hgroup|]. exists text, [].
      repeat split; try assumption. constructor.
    + exists group. split; [exact Hgroup|]. exists text, chunks.
      split; [exact Hpc|]. split; [exact Hreturns|]. split; [apply Hgrp|].
      simpl in Hm. rewrite nth_error_map, Hj in Hm. injection Hm as <-.
      apply Forall_forall. intros f Hin.
      apply (text_group_metadata o (metadata doc) chunks group ranges Hgrp f Hin).
Qed.

Lemma splitDocuments_returns_witness :
  exists out,
    TextSplitterDocuments.splitDocuments (option jsstring * object)
      (fun pc md => (Some pc, md)) fst snd (line_splitter 5)
      {| chunkHeader := None; chunkOverlapHeader := None;
         appendChunkOverlapHeader := None |}
      [(Some (str "ab" ++ 10%N :: str "cdefg"), [("n"%string, VNumber 1)]);
       (None, [("n"%string, VNumber 2)]);
       (Some (str "hi"), [("n"%string, VNumber 3)])]
    = Returns out /\
    TextSplitterDocuments.splitDocuments (option jsstring * object)
      (fun pc md => (Some pc, md)) fst snd (line_splitter 5)
      {| chunkHeader := None; chunkOverlapHeader := None;
         appendChunkOverlapHeader := None |}
      [(Some (str "ab" ++ 10%N :: str "cdefg"), [("n"%string, VNumber 1)]);
       (None, [("n"%string, VNumber 2)]);
       (Some (str "hi"), [("n"%string, VNumber 3)])]
    = TextSplitterDocuments.splitDocuments (option jsstring * object)
        (fun pc md => (Some pc, md)) fst snd (line_splitter 5)
        {| chunkHeader := None; chunkOverlapHeader := None;
           appendChunkOverlapHeader := None |}
        (filter (TextSplitterDocuments.selected (option jsstring * object) fst)
           [(Some (str "ab" ++ 10%N :: str "cdefg"), [("n"%string, VNumber 1)]);
            (None, [("n"%string, VNumber 2)]);
            (Some (str "hi"), [("n"%string, VNumber 3)])]) /\
    exists groups,
      out = map (fun f => (Some (fst f), snd f)) (List.concat groups) /\
      Forall2
        (fun doc group =>
           exists text chunks,
             fst doc = Some text /\
             line_splitter 5 text = Returns chunks /\
             map fst group
             = page_contents {| chunkHeader := None; chunkOverlapHeader := None;
                                appendChunkOverlapHeader := None |} None chunks /\
             Forall (fun f => exists range,
                       chunk_metadata (snd doc) (snd f) range /\
                       1 <= fst range <= snd range) group)
        [(Some (str "ab" ++ 10%N :: str "cdefg"), [("n"%string, VNumber 1)]);
         (Some (str "hi"), [("n"%string, VNumber 3)])]
        groups.
Proof.
  apply (splitDocuments_returns (option jsstring * object)
           (fun pc md => (Some pc, md)) fst snd (line_splitter 5)
           {| chunkHeader := None; chunkOverlapHeader := None;
              appendChunkOverlapHeader := None |}
           [(Some (str "ab" ++ 10%N :: str "cdefg"), [("n"%string, VNumber 1)]);
            (None, [("n"%string, VNumber 2)]);
            (Some (str "hi"), [("n"%string, VNumber 3)])]).
  intros doc text [<- | [<- | [<- | []]]] Hpc; simpl in Hpc;
    try discriminate; injection Hpc as <-; eexists; vm_compute; reflexivity.
Defined.
